(** * OpenBrowserMCP: element references, selector resolution and the RPC session

    A shallow embedding of the parts of the repository that decide how
    page elements are named and found again, and how requests are
    correlated with their responses:

    - [extension/lib/aria-snapshot.ts]: the reference table, the role
      classifier, whitespace normalisation and the tree walker;
    - [extension/lib/interactions.ts]: selector resolution and the
      interaction executor;
    - [extension/content.ts]: [handleInteract] and the error mapping of
      [handleMessage];
    - [mcp/src/context.ts] and the connection handler of
      [mcp/src/index.ts]: the pending-request table, its timers and the
      replacement of the active socket.

    JavaScript strings are sequences of UTF-16 code units, objects with
    identity (elements, sockets) are represented by a handle, module-level
    variables become fields of an explicit state, and a call that may
    throw returns a [Completion]. *)

From stdpp Require Import gmap list pretty.
From Stdlib Require Import ZArith Ascii String.

#[local] Set Warnings "-register-all".

(* ===================================================================== *)
(** ** JavaScript strings and the built-ins the sources call *)
(* ===================================================================== *)

Module Js.

(** A string is its sequence of UTF-16 code units. *)
Definition jsstring : Type := list N.

(** Literals of the sources, written as Rocq strings. *)
Definition str (s : string) : jsstring :=
  (fun a => N_of_ascii a) <$> list_ascii_of_string s.

(** [!s] is false exactly for a non-empty string. *)
Definition truthy (s : jsstring) : bool :=
  match s with [] => false | _ :: _ => true end.

(** The code units matched by [\s] in a regular expression, which are also
    the ones [String.prototype.trim] strips: WhiteSpace and LineTerminator
    of ECMAScript (TAB, LF, VT, FF, CR, SP, NBSP, U+1680, U+2000..U+200A,
    LS, PS, U+202F, U+205F, U+3000, ZWNBSP). *)
Definition isWhiteSpace (c : N) : bool :=
  ((9 <=? c) && (c <=? 13) || (c =? 32) || (c =? 160) || (c =? 5760)
   || (8192 <=? c) && (c <=? 8202) || (c =? 8232) || (c =? 8233)
   || (c =? 8239) || (c =? 8287) || (c =? 12288) || (c =? 65279))%N.

Definition SPACE : N := 32.

(** [text.replace(/\s+/g, " ")]: every maximal run of white space becomes
    one space. [in_run] tells that the previous code unit was white space,
    so the current run has been written already. *)
Fixpoint replaceWhiteSpaceRuns (in_run : bool) (text : jsstring) : jsstring :=
  match text with
  | [] => []
  | c :: rest =>
      if isWhiteSpace c
      then (if in_run then replaceWhiteSpaceRuns true rest
            else SPACE :: replaceWhiteSpaceRuns true rest)
      else c :: replaceWhiteSpaceRuns false rest
  end.

Fixpoint trimStart (s : jsstring) : jsstring :=
  match s with
  | [] => []
  | c :: rest => if isWhiteSpace c then trimStart rest else s
  end.

(** A code unit is dropped from the end when it is white space and nothing
    is left after it. *)
Fixpoint trimEnd (s : jsstring) : jsstring :=
  match s with
  | [] => []
  | c :: rest =>
      match trimEnd rest with
      | [] => if isWhiteSpace c then [] else [c]
      | kept => c :: kept
      end
  end.

Definition trim (s : jsstring) : jsstring := trimEnd (trimStart s).

(** [s.split(/\s+/)[0]]: what precedes the first white-space code unit
    (the empty string when [s] starts with white space). *)
Fixpoint firstSplitPiece (s : jsstring) : jsstring :=
  match s with
  | [] => []
  | c :: rest => if isWhiteSpace c then [] else c :: firstSplitPiece rest
  end.

(** [s.split(/\s+/)]: the pieces between the runs of white space; a run at
    either end leaves an empty piece there. [cur] is the piece being read,
    reversed. *)
Fixpoint splitWhiteSpaceFrom (in_run : bool) (cur : jsstring) (s : jsstring)
  : list jsstring :=
  match s with
  | [] => [rev cur]
  | c :: rest =>
      if isWhiteSpace c
      then (if in_run then splitWhiteSpaceFrom true cur rest
            else rev cur :: splitWhiteSpaceFrom true [] rest)
      else splitWhiteSpaceFrom false (c :: cur) rest
  end.

Definition splitWhiteSpace (s : jsstring) : list jsstring :=
  splitWhiteSpaceFrom false [] s.

(** [toLowerCase] on the letters A..Z; tag names and input types are ASCII. *)
Definition toLowerCase (s : jsstring) : jsstring :=
  (fun c => if ((65 <=? c) && (c <=? 90))%N then (c + 32)%N else c) <$> s.

(** [array.includes(x)] on an array of strings. *)
Definition includes (xs : list jsstring) (x : jsstring) : bool :=
  bool_decide (x ∈ xs).

(** [array.join(" ")]. *)
Fixpoint joinSpace (xs : list jsstring) : jsstring :=
  match xs with
  | [] => []
  | [x] => x
  | x :: rest => x ++ SPACE :: joinSpace rest
  end.

(** [s.substring(0, n)]. *)
Definition substring0 (n : nat) (s : jsstring) : jsstring := take n s.

(** The decimal text of a non-negative integer, as a template literal
    renders it. *)
Definition numberToString (n : N) : jsstring := str (pretty n).

(** What a call leaves behind: a value, or a thrown exception. *)
Inductive Completion (E A : Type) : Type :=
  | Return (a : A)
  | Throw (e : E).
Arguments Return {E A} a.
Arguments Throw {E A} e.

(** Evaluate [c]; go on with its value, or pass on what it threw. *)
Definition andThen {E A B} (c : Completion E A) (k : A -> Completion E B)
  : Completion E B :=
  match c with
  | Return a => k a
  | Throw e => Throw e
  end.

End Js.
Export Js.

(* ===================================================================== *)
(** ** The wire protocol ([extension/lib/protocol.ts]) *)
(* ===================================================================== *)

Module Protocol.

Inductive ErrorCode : Set :=
  | ELEMENT_NOT_FOUND
  | ELEMENT_AMBIGUOUS
  | TIMEOUT
  | NO_TAB
  | NAVIGATION_FAILED
  | INVALID_REQUEST
  | INTERNAL_ERROR.

(** [ElementSelector]: the three shapes of the union type. *)
Inductive ElementSelector : Type :=
  | ByRef (ref : jsstring)
  | ByCss (css : jsstring)
  | ByRole (role : jsstring) (name : option jsstring).

(** The messages that travel with a code. Where the source interpolates
    [JSON.stringify(selector)] the selector itself is kept. None of them
    is the empty string. *)
Inductive CodedMessage : Type :=
  | NoElementFound (selector : ElementSelector)
  | MultipleElementsFound (count : nat) (selector : ElementSelector)
  | SelectRequiresSelectElement.

(** What the modelled code can throw. *)
Inductive Thrown : Type :=
  (** [new Error(JSON.stringify({ code, message }))] *)
  | CodedError (code : ErrorCode) (message : CodedMessage)
  (** [new Error(message)] *)
  | PlainError (message : jsstring)
  (** an exception of the host: TypeError, RangeError, DOMException *)
  | HostError (message : jsstring).

(** One row of a snapshot. The [states] column is computed from the element
    alone by [getAriaStates] and is left out of the embedding. *)
Record AriaElement : Type := {
  ref : jsstring;
  role : jsstring;
  name : jsstring
}.

Record AriaSnapshot : Type := {
  url : jsstring;
  title : jsstring;
  elements : list AriaElement
}.

End Protocol.
Export Protocol.

(** Code that reads and writes module-level state [S] and may throw. A
    throw keeps the writes made before it. *)
Definition Script (S A : Type) : Type := S -> Completion Thrown A * S.

Definition ret {S A} (a : A) : Script S A := fun s => (Return a, s).
Definition throw {S A} (e : Thrown) : Script S A := fun s => (Throw e, s).
Definition bind {S A B} (m : Script S A) (k : A -> Script S B) : Script S B :=
  fun s => match m s with
           | (Return a, s') => k a s'
           | (Throw e, s') => (Throw e, s')
           end.

Declare Scope script_scope.
Delimit Scope script_scope with script.
Notation "x <- m ;; k" := (bind m (fun x => k))
  (at level 100, m at next level, right associativity) : script_scope.
Notation "m ;;; k" := (bind m (fun _ => k))
  (at level 100, right associativity) : script_scope.

(** [for (const x of xs) body(x)] *)
Fixpoint forEach {S A} (xs : list A) (body : A -> Script S unit) : Script S unit :=
  match xs with
  | [] => ret tt
  | x :: rest => bind (body x) (fun _ => forEach rest body)
  end.

(* ===================================================================== *)
(** ** The page, as the content script reads it *)
(* ===================================================================== *)

Module Dom.

(** The identity of an element object. *)
Definition Handle : Type := positive.

(** The interfaces the sources test with [instanceof]. *)
Inductive Interface : Set :=
  | HTMLInputElement
  | HTMLSelectElement
  | HTMLTextAreaElement
  | HTMLImageElement
  | HTMLButtonElement
  | HTMLOptionElement
  | HTMLOtherElement
  | NonHTMLElement.

(** An element: its identity and what the host reports about it. *)
Record Element : Type := {
  handle : Handle;
  tagName : jsstring;
  interface : Interface;
  attributes : list (jsstring * jsstring);
  (** the property [type]; [None] is undefined, on the elements that have
      no such property ([body], [div], [h1], [nav], ...) *)
  type : option jsstring;
  value : jsstring;
  textContent : jsstring;
  (** the text content of each element of [element.labels] *)
  labels : list jsstring;
  (** the text content of [element.closest("label")] *)
  closestLabel : option jsstring;
  (** [getComputedStyle(element)] *)
  display : jsstring;
  visibility : jsstring;
  (** [getBoundingClientRect()]; only compared with 0 *)
  rectWidth : Z;
  rectHeight : Z;
  isContentEditable : bool
}.

(** [element.getAttribute(name)]; [None] is null. *)
Definition getAttribute (element : Element) (name : jsstring) : option jsstring :=
  snd <$> List.find (fun kv => bool_decide (fst kv = name)) (attributes element).

Definition hasAttribute (element : Element) (name : jsstring) : bool :=
  match getAttribute element name with Some _ => true | None => false end.

(** An attribute that is present and not the empty string:
    [const a = element.getAttribute(..); if (a) ..]. *)
Definition truthyAttribute (element : Element) (name : jsstring) : option jsstring :=
  match getAttribute element name with
  | Some v => if truthy v then Some v else None
  | None => None
  end.

Definition instanceofHTMLElement (element : Element) : bool :=
  match interface element with NonHTMLElement => false | _ => true end.

(** A node with what hangs below it. [assignedSlot] tells that the node is
    distributed into a slot; [shadowRoot] holds the children of an open
    shadow root; [assignedNodes] is [slot.assignedNodes()]. *)
Inductive Node : Type :=
  | OtherNode (assignedSlot : bool)
  | ElementNode (element : Element) (assignedSlot : bool)
                (childNodes : list Node) (shadowRoot : option (list Node))
                (assignedNodes : list Node).

Definition nodeElement (node : Node) : option Element :=
  match node with
  | OtherNode _ => None
  | ElementNode element _ _ _ _ => Some element
  end.

Definition assignedSlot (node : Node) : bool :=
  match node with
  | OtherNode a => a
  | ElementNode _ a _ _ _ => a
  end.

(** The elements a [TreeWalker] with [SHOW_ELEMENT] rooted at [node] stops
    at, [currentNode] first: pre-order over the child nodes. *)
Fixpoint treeWalkerElements (node : Node) : list Element :=
  match node with
  | OtherNode _ => []
  | ElementNode element _ childNodes _ _ =>
      element :: flat_map treeWalkerElements childNodes
  end.

Record Document : Type := {
  body : option Node;
  getElementById : jsstring -> option Node;
  (** throws a DOMException on a selector that is not valid CSS *)
  querySelectorAll : jsstring -> Completion Thrown (list Element);
  activeElement : option Element;
  href : jsstring;
  documentTitle : jsstring
}.

End Dom.
Export Dom.

(* ===================================================================== *)
(** ** [extension/lib/aria-snapshot.ts] *)
(* ===================================================================== *)

Module AriaSnapshot.

(** [WeakMap<Element, string>]: keyed by the identity of the element. An
    entry can only disappear once its key is unreachable, and then no call
    can ask for it any more, so entries are kept. *)
Module WeakMap.

Definition get (m : gmap Handle jsstring) (key : Element) : option jsstring :=
  m !! handle key.

Definition set (m : gmap Handle jsstring) (key : Element) (v : jsstring)
  : gmap Handle jsstring :=
  <[handle key := v]> m.

(** A WeakMap has [get], [set], [has] and [delete] and cannot be iterated:
    its property [entries] is undefined, and calling it in the head of a
    [for .. of] throws a TypeError whatever the map holds. The message is
    the one of the engine the extension runs on. *)
Definition notAFunction : Thrown :=
  HostError
    (str "elementRefMap.entries is not a function or its return value is not iterable").

Definition entries (m : gmap Handle jsstring)
  : Completion Thrown (list (Element * jsstring)) :=
  Throw notAFunction.

End WeakMap.

(** The two module-level variables. *)
Record RefTable : Type := {
  elementRefCounter : N;
  elementRefMap : gmap Handle jsstring
}.

(** The state of a freshly loaded content script. *)
Definition initialRefTable : RefTable :=
  {| elementRefCounter := 0; elementRefMap := ∅ |}.

Definition getOrCreateRef (element : Element) (t : RefTable) : jsstring * RefTable :=
  match WeakMap.get (elementRefMap t) element with
  | Some ref =>
      if truthy ref then (ref, t)
      else
        let counter := (elementRefCounter t + 1)%N in
        let ref := str "e" ++ numberToString counter in
        (ref, {| elementRefCounter := counter;
                 elementRefMap := WeakMap.set (elementRefMap t) element ref |})
  | None =>
      let counter := (elementRefCounter t + 1)%N in
      let ref := str "e" ++ numberToString counter in
      (ref, {| elementRefCounter := counter;
               elementRefMap := WeakMap.set (elementRefMap t) element ref |})
  end.

Definition findElementByRef (ref : jsstring) (t : RefTable)
  : Completion Thrown (option Element) :=
  match WeakMap.entries (elementRefMap t) with
  | Throw e => Throw e
  | Return entries =>
      Return (fst <$> List.find (fun entry => bool_decide (snd entry = ref)) entries)
  end.

(** [input.type.toLowerCase()] on an element without the property. *)
Definition undefinedToLowerCase : Thrown :=
  HostError (str "Cannot read properties of undefined (reading 'toLowerCase')").

Definition getInputRole (input : Element) : Completion Thrown jsstring :=
  match type input with
  | None => Throw undefinedToLowerCase
  | Some type =>
      let type := toLowerCase type in
      Return
        (if bool_decide (type = str "button") then str "button"
         else if bool_decide (type = str "checkbox") then str "checkbox"
         else if bool_decide (type = str "radio") then str "radio"
         else if bool_decide (type = str "text") then str "textbox"
         else if bool_decide (type = str "email") then str "textbox"
         else if bool_decide (type = str "password") then str "textbox"
         else if bool_decide (type = str "search") then str "searchbox"
         else if bool_decide (type = str "tel") then str "textbox"
         else if bool_decide (type = str "url") then str "textbox"
         else if bool_decide (type = str "number") then str "spinbutton"
         else if bool_decide (type = str "range") then str "slider"
         else str "textbox")
  end.

(** The table [implicitRoles], read at [tagName]; [inputRole] is its entry
    for [input]. A tag outside the table has no role: what the lookup
    finds for a name inherited from [Object.prototype] is not a string
    and equals no role. *)
Definition implicitRole (element : Element) (inputRole : jsstring)
    (tagName : jsstring) : option jsstring :=
  if bool_decide (tagName = str "a")
  then (if hasAttribute element (str "href") then Some (str "link") else None)
  else if bool_decide (tagName = str "button") then Some (str "button")
  else if bool_decide (tagName = str "input") then Some inputRole
  else if bool_decide (tagName = str "textarea") then Some (str "textbox")
  else if bool_decide (tagName = str "select")
  then (if hasAttribute element (str "multiple") then Some (str "listbox")
        else Some (str "combobox"))
  else if bool_decide (tagName ∈ [str "h1"; str "h2"; str "h3"; str "h4"; str "h5"; str "h6"])
  then Some (str "heading")
  else if bool_decide (tagName = str "img")
  then (if hasAttribute element (str "alt") then Some (str "img") else None)
  else if bool_decide (tagName = str "nav") then Some (str "navigation")
  else if bool_decide (tagName = str "main") then Some (str "main")
  else if bool_decide (tagName = str "header") then Some (str "banner")
  else if bool_decide (tagName = str "footer") then Some (str "contentinfo")
  else if bool_decide (tagName = str "aside") then Some (str "complementary")
  else if bool_decide (tagName = str "section") then Some (str "region")
  else if bool_decide (tagName = str "article") then Some (str "article")
  else if bool_decide (tagName = str "form") then Some (str "form")
  else if bool_decide (tagName = str "table") then Some (str "table")
  else if bool_decide (tagName = str "ul") then Some (str "list")
  else if bool_decide (tagName = str "ol") then Some (str "list")
  else if bool_decide (tagName = str "li") then Some (str "listitem")
  else if bool_decide (tagName = str "dialog") then Some (str "dialog")
  else if bool_decide (tagName = str "td") then Some (str "cell")
  else if bool_decide (tagName = str "th") then Some (str "columnheader")
  else None.

(** [None] is null. Without an explicit role the table is built in full
    before it is read, so [getInputRole] runs whatever the tag is. *)
Definition getAriaRole (element : Element) : Completion Thrown (option jsstring) :=
  match truthyAttribute element (str "role") with
  | Some explicitRole => Return (Some (firstSplitPiece explicitRole))
  | None =>
      andThen (getInputRole element) (fun inputRole =>
      Return (implicitRole element inputRole (toLowerCase (tagName element))))
  end.

Definition normalizeWhitespace (text : jsstring) : jsstring :=
  trim (replaceWhiteSpaceRuns false text).

(** [role && roles.includes(role)] *)
Definition roleIn (role : option jsstring) (roles : list jsstring) : bool :=
  match role with
  | Some r => truthy r && includes roles r
  | None => false
  end.

Definition getAccessibleName (doc : Document) (element : Element)
  : Completion Thrown jsstring :=
  let labelledByNames :=
    match truthyAttribute element (str "aria-labelledby") with
    | Some labelledBy =>
        joinSpace
          (omap (fun id => textContent <$> (getElementById doc id ≫= nodeElement))
                (splitWhiteSpace labelledBy))
    | None => []
    end in
  if truthy labelledByNames then Return (normalizeWhitespace labelledByNames)
  else
  match truthyAttribute element (str "aria-label") with
  | Some ariaLabel => Return (normalizeWhitespace ariaLabel)
  | None =>
  let isControl :=
    match interface element with
    | HTMLInputElement | HTMLSelectElement | HTMLTextAreaElement => true
    | _ => false
    end in
  match (if isControl then labels element else []) with
  | label :: _ => Return (normalizeWhitespace label)
  | [] =>
  match (if isControl then closestLabel element else None) with
  | Some label => Return (normalizeWhitespace label)
  | None =>
  match interface element with
  | HTMLImageElement =>
      Return (normalizeWhitespace (default [] (getAttribute element (str "alt"))))
  | _ =>
  match truthyAttribute element (str "title") with
  | Some title => Return (normalizeWhitespace title)
  | None =>
  match truthyAttribute element (str "placeholder") with
  | Some placeholder => Return (normalizeWhitespace placeholder)
  | None =>
  andThen (getAriaRole element) (fun role =>
  if roleIn role [str "button"; str "link"; str "heading"; str "menuitem"; str "tab"]
  then Return (normalizeWhitespace (textContent element))
  else
  match interface element with
  | HTMLTextAreaElement => Return (normalizeWhitespace (value element))
  | _ =>
  if match interface element with HTMLInputElement => truthy (value element) | _ => false end
  then Return (normalizeWhitespace (value element))
  else Return (normalizeWhitespace (substring0 100 (textContent element)))
  end)
  end end end end end end.

Definition shouldIncludeElement (role : jsstring) (element : Element) : bool :=
  let interactiveRoles :=
    [str "button"; str "link"; str "textbox"; str "checkbox"; str "radio";
     str "combobox"; str "searchbox"; str "slider"; str "spinbutton";
     str "menuitem"; str "menuitemcheckbox"; str "menuitemradio";
     str "tab"; str "switch"; str "option"; str "treeitem"] in
  let structuralRoles :=
    [str "heading"; str "navigation"; str "main"; str "banner"; str "contentinfo";
     str "complementary"; str "region"; str "article"; str "form"; str "search"] in
  if includes interactiveRoles role then true
  else if includes structuralRoles role then true
  else if bool_decide (role = str "img")
          && match truthyAttribute element (str "alt") with
             | Some _ => true
             | None => false
             end
  then true
  else false.

Definition isHidden (element : Element) : bool :=
  if bool_decide (getAttribute element (str "aria-hidden") = Some (str "true")) then true
  else if bool_decide (display element = str "none")
          || bool_decide (visibility element = str "hidden") then true
  else if bool_decide (rectWidth element = 0%Z) && bool_decide (rectHeight element = 0%Z)
  then true
  else false.

Definition getChildren (element : Element) (childNodes : list Node)
    (shadowRoot : option (list Node)) (assignedNodes : list Node) : list Node :=
  if bool_decide (tagName element = str "SLOT") && negb (bool_decide (assignedNodes = []))
  then assignedNodes
  else List.filter (fun child => negb (assignedSlot child)) childNodes
       ++ default [] shadowRoot.

(** What the walker has pushed so far. Each row is kept with the element it
    was made for; the response carries the rows alone. *)
Record Exposure : Type := {
  exposed : Element;
  row : AriaElement
}.

Record WalkState : Type := {
  table : RefTable;
  pushed : list Exposure
}.

(** An element that passed the filters: mint or reuse its reference,
    compute its name and push its row. *)
Definition expose (doc : Document) (element : Element) (role : jsstring)
  : Script WalkState unit :=
  fun s =>
    let (ref, t) := getOrCreateRef element (table s) in
    match getAccessibleName doc element with
    | Return name =>
        (Return tt,
         {| table := t;
            pushed := pushed s
                      ++ [{| exposed := element;
                             row := {| ref := ref; role := role; name := name |} |}] |})
    | Throw e => (Throw e, {| table := t; pushed := pushed s |})
    end.

(** [depth] is the room left on the call stack: the recursion has no other
    bound, and an [aria-owns] cycle ends in the RangeError of the host. *)
Fixpoint walkAriaTree (depth : nat) (doc : Document) (node : Node)
  : Script WalkState unit :=
  match depth with
  | O => throw (HostError (str "Maximum call stack size exceeded"))
  | S depth' =>
      match node with
      | OtherNode _ => ret tt
      | ElementNode element _ childNodes shadowRoot assignedNodes =>
          if isHidden element then ret tt
          else
            (match getAriaRole element with
             | Throw e => throw e
             | Return (Some role) =>
                 if truthy role && shouldIncludeElement role element
                 then expose doc element role
                 else ret tt
             | Return None => ret tt
             end ;;;
             forEach (getChildren element childNodes shadowRoot assignedNodes)
                     (walkAriaTree depth' doc) ;;;
             match truthyAttribute element (str "aria-owns") with
             | Some owns =>
                 forEach (splitWhiteSpace owns)
                   (fun id =>
                      if truthy id
                      then match getElementById doc id with
                           | Some owned => walkAriaTree depth' doc owned
                           | None => ret tt
                           end
                      else ret tt)
             | None => ret tt
             end)%script
      end
  end.

(** The run of the walker inside [generateAriaSnapshot]: the counter is
    reset, the map is kept. *)
Definition snapshotExposures (depth : nat) (doc : Document) (t : RefTable)
  : Completion Thrown (list Exposure) * RefTable :=
  let reset := {| elementRefCounter := 0; elementRefMap := elementRefMap t |} in
  match body doc with
  | Some root =>
      match walkAriaTree depth doc root {| table := reset; pushed := [] |} with
      | (Return _, s) => (Return (pushed s), table s)
      | (Throw e, s) => (Throw e, table s)
      end
  | None => (Return [], reset)
  end.

Definition generateAriaSnapshot (depth : nat) (doc : Document)
  : Script RefTable AriaSnapshot :=
  fun t =>
    match snapshotExposures depth doc t with
    | (Return exposures, t') =>
        (Return {| url := href doc; title := documentTitle doc;
                   elements := row <$> exposures |}, t')
    | (Throw e, t') => (Throw e, t')
    end.

End AriaSnapshot.

(* ===================================================================== *)
(** ** [extension/lib/interactions.ts] *)
(* ===================================================================== *)

Module Interactions.

Import AriaSnapshot.

Definition getInputRole (input : Element) : Completion Thrown jsstring :=
  match type input with
  | None => Throw undefinedToLowerCase
  | Some type =>
      let type := toLowerCase type in
      Return
        (if bool_decide (type = str "button") then str "button"
         else if bool_decide (type = str "checkbox") then str "checkbox"
         else if bool_decide (type = str "radio") then str "radio"
         else if bool_decide (type = str "search") then str "searchbox"
         else str "textbox")
  end.

(** The entry for [input] of the table is computed for every element, but
    [getInputRole] runs on an [HTMLInputElement] only. *)
Definition getElementRole (element : Element) : Completion Thrown (option jsstring) :=
  match truthyAttribute element (str "role") with
  | Some explicitRole => Return (Some explicitRole)
  | None =>
      andThen (match interface element with
               | HTMLInputElement => getInputRole element
               | _ => Return (str "textbox")
               end) (fun inputRole =>
      let tagName := toLowerCase (tagName element) in
      Return
        (if bool_decide (tagName = str "button") then Some (str "button")
         else if bool_decide (tagName = str "a") then Some (str "link")
         else if bool_decide (tagName = str "input") then Some inputRole
         else if bool_decide (tagName = str "textarea") then Some (str "textbox")
         else if bool_decide (tagName = str "select") then Some (str "combobox")
         else if bool_decide
                   (tagName ∈ [str "h1"; str "h2"; str "h3"; str "h4"; str "h5"; str "h6"])
         then Some (str "heading")
         else None))
  end.

Definition getAccessibleName (element : Element) : jsstring :=
  match truthyAttribute element (str "aria-label") with
  | Some ariaLabel => trim ariaLabel
  | None =>
      let isControl :=
        match interface element with
        | HTMLInputElement | HTMLTextAreaElement => true
        | _ => false
        end in
      match (if isControl then labels element else []) with
      | label :: _ => trim label
      | [] =>
          match (if isControl then truthyAttribute element (str "placeholder")
                 else None) with
          | Some placeholder => trim placeholder
          | None => trim (textContent element)
          end
      end
  end.

(** The loop of [findByRole] over the elements the walker stops at. *)
Fixpoint findByRoleAmong (nodes : list Element) (role : jsstring)
    (name : option jsstring) : Completion Thrown (list Element) :=
  match nodes with
  | [] => Return []
  | element :: rest =>
      andThen (getElementRole element) (fun elementRole =>
      andThen (findByRoleAmong rest role name) (fun found =>
      Return
        (if bool_decide (elementRole = Some role)
            && match name with
               | None => true
               | Some name => bool_decide (getAccessibleName element = name)
               end
         then element :: found
         else found)))
  end.

(** The walk stops at [document.body] first and then at every element
    below it; [createTreeWalker] rejects a null root. *)
Definition findByRole (doc : Document) (role : jsstring) (name : option jsstring)
  : Completion Thrown (list Element) :=
  match body doc with
  | None => Throw (HostError (str "Failed to execute 'createTreeWalker' on 'Document'"))
  | Some root => findByRoleAmong (treeWalkerElements root) role name
  end.

(** The candidates of a selector: one branch of the [if .. else if] chain. *)
Definition candidates (doc : Document) (t : RefTable) (selector : ElementSelector)
  : Completion Thrown (list Element) :=
  match selector with
  | ByRef ref =>
      match findElementByRef ref t with
      | Throw e => Throw e
      | Return (Some element) => Return [element]
      | Return None => Return []
      end
  | ByCss css => querySelectorAll doc css
  | ByRole role name => findByRole doc role name
  end.

Definition findElement (doc : Document) (t : RefTable) (selector : ElementSelector)
  : Completion Thrown Element :=
  match candidates doc t selector with
  | Throw e => Throw e
  | Return elements =>
      match elements with
      | [] => Throw (CodedError ELEMENT_NOT_FOUND (NoElementFound selector))
      | [element] => Return element
      | _ :: _ :: _ =>
          Throw (CodedError ELEMENT_AMBIGUOUS
                   (MultipleElementsFound (List.length elements) selector))
      end
  end.

(** What the executor does to the page, in the order it does it. *)
Inductive DomEffect : Type :=
  | ScrollIntoView (target : Handle)
  | DispatchEvent (target : Handle) (eventType : jsstring)
  | NativeClick (target : Handle)
  | Focus (target : Handle)
  | SetValue (target : Handle) (newValue : jsstring)
  | SetTextContent (target : Handle) (newText : jsstring).

(** The state of the content script: the reference table and what has been
    done to the page so far. *)
Record ContentState : Type := {
  refTable : RefTable;
  effects : list DomEffect
}.

Definition perform (e : DomEffect) : Script ContentState unit :=
  fun s => (Return tt, {| refTable := refTable s; effects := effects s ++ [e] |}).

Definition resolve (doc : Document) (selector : ElementSelector)
  : Script ContentState Element :=
  fun s => (findElement doc (refTable s) selector, s).

Definition ensureVisible (element : Element) : Script ContentState unit :=
  if instanceofHTMLElement element then perform (ScrollIntoView (handle element))
  else ret tt.

(** The settle delay changes nothing the embedding keeps. *)
Definition waitForStability : Script ContentState unit := ret tt.

Definition click (doc : Document) (selector : ElementSelector)
  : Script ContentState unit :=
  (element <- resolve doc selector ;;
   ensureVisible element ;;;
   perform (DispatchEvent (handle element) (str "mousedown")) ;;;
   perform (DispatchEvent (handle element) (str "mouseup")) ;;;
   perform (DispatchEvent (handle element) (str "click")) ;;;
   (if instanceofHTMLElement element then perform (NativeClick (handle element))
    else ret tt) ;;;
   waitForStability)%script.

(** [<input type="file">]: the property [type] of an input reads as the
    canonical keyword of its state. *)
Definition isFileInput (element : Element) : bool :=
  match interface element, Dom.type element with
  | HTMLInputElement, Some type => bool_decide (toLowerCase type = str "file")
  | _, _ => false
  end.

(** The exception of [element.value = text] on a file input. *)
Definition filenameOnly : Thrown :=
  HostError (str "Failed to set the 'value' property on 'HTMLInputElement': This input element accepts a filename, which may only be programmatically set to the empty string.").

(** [element.value = text] on an input or a textarea: the setter of a file
    input throws an InvalidStateError for every text but the empty one. *)
Definition assignValue (element : Element) (text : jsstring)
  : Script ContentState unit :=
  if isFileInput element && truthy text then throw filenameOnly
  else perform (SetValue (handle element) text).

Definition type (doc : Document) (selector : ElementSelector) (text : jsstring)
  : Script ContentState unit :=
  (element <- resolve doc selector ;;
   ensureVisible element ;;;
   (if instanceofHTMLElement element then perform (Focus (handle element))
    else ret tt) ;;;
   match interface element with
   | HTMLInputElement | HTMLTextAreaElement =>
       assignValue element text ;;;
       perform (DispatchEvent (handle element) (str "input")) ;;;
       perform (DispatchEvent (handle element) (str "change"))
   | _ =>
       if instanceofHTMLElement element && isContentEditable element
       then perform (SetTextContent (handle element) text)
       else ret tt
   end ;;;
   waitForStability)%script.

Definition hover (doc : Document) (selector : ElementSelector)
  : Script ContentState unit :=
  (element <- resolve doc selector ;;
   ensureVisible element ;;;
   perform (DispatchEvent (handle element) (str "mouseover")) ;;;
   perform (DispatchEvent (handle element) (str "mouseenter")) ;;;
   perform (DispatchEvent (handle element) (str "mousemove")) ;;;
   waitForStability)%script.

Definition select (doc : Document) (selector : ElementSelector) (value : jsstring)
  : Script ContentState unit :=
  (element <- resolve doc selector ;;
   match interface element with
   | HTMLSelectElement =>
       ensureVisible element ;;;
       perform (SetValue (handle element) value) ;;;
       perform (DispatchEvent (handle element) (str "change")) ;;;
       waitForStability
   | _ => throw (CodedError INVALID_REQUEST SelectRequiresSelectElement)
   end)%script.

Definition press (doc : Document) (key : jsstring) : Script ContentState unit :=
  match (match activeElement doc with
         | Some focused => Some focused
         | None => body doc ≫= nodeElement
         end) with
  | Some target =>
      (perform (DispatchEvent (handle target) (str "keydown")) ;;;
       perform (DispatchEvent (handle target) (str "keypress")) ;;;
       perform (DispatchEvent (handle target) (str "keyup")) ;;;
       waitForStability)%script
  | None =>
      throw (HostError (str "Cannot read properties of null (reading 'dispatchEvent')"))
  end.

(** The value the executor assigned last to the control, or the one the
    control had when it assigned none. This is what was written, not what
    the host reports on reading [value] back: the host sanitises the
    value of an input, and a select without a matching option reads as
    the empty string. *)
Definition currentValue (log : list DomEffect) (element : Element) : jsstring :=
  fold_left
    (fun v e =>
       match e with
       | SetValue target newValue =>
           if bool_decide (target = handle element) then newValue else v
       | _ => v
       end)
    log (value element).

End Interactions.

(* ===================================================================== *)
(** ** [extension/content.ts] *)
(* ===================================================================== *)

Module Content.

Import AriaSnapshot Interactions.

Record InteractParams : Type := {
  action : jsstring;
  element : option ElementSelector;
  text : option jsstring;
  key : option jsstring;
  value : option jsstring;
  snapshot : option bool
}.

(** [!x] for an optional string: undefined or the empty string. *)
Definition missing (x : option jsstring) : bool :=
  match x with
  | Some s => negb (truthy s)
  | None => true
  end.

Record InteractResult : Type := {
  success : bool;
  (** [url], [title] and [elements], set together *)
  page : option AriaSnapshot
}.

(** [generateAriaSnapshot] inside the content script. *)
Definition takeSnapshot (depth : nat) (doc : Document)
  : Script ContentState AriaSnapshot :=
  fun s =>
    match generateAriaSnapshot depth doc (refTable s) with
    | (r, t) => (r, {| refTable := t; effects := effects s |})
    end.

(** [doc] is the page the action runs on, [docAfter] the page the closing
    snapshot finds. *)
Definition handleInteract (depth : nat) (doc docAfter : Document)
    (params : InteractParams) : Script ContentState InteractResult :=
  ((if bool_decide (action params = str "click") then
      match element params with
      | None => throw (PlainError (str "Element selector required for click action"))
      | Some element => click doc element
      end
    else if bool_decide (action params = str "type") then
      match element params, missing (text params), text params with
      | Some element, false, Some text => type doc element text
      | _, _, _ =>
          throw (PlainError (str "Element selector and text required for type action"))
      end
    else if bool_decide (action params = str "hover") then
      match element params with
      | None => throw (PlainError (str "Element selector required for hover action"))
      | Some element => hover doc element
      end
    else if bool_decide (action params = str "select") then
      match element params, missing (value params), value params with
      | Some element, false, Some value => select doc element value
      | _, _, _ =>
          throw (PlainError (str "Element selector and value required for select action"))
      end
    else if bool_decide (action params = str "press") then
      match missing (key params), key params with
      | false, Some key => press doc key
      | _, _ => throw (PlainError (str "Key required for press action"))
      end
    else throw (PlainError (str "Unknown action: " ++ action params))) ;;;
   match snapshot params with
   | Some true =>
       snap <- takeSnapshot depth docAfter ;;
       ret {| success := true; page := Some snap |}
   | _ => ret {| success := true; page := None |}
   end)%script.

Inductive ResponseMessage : Type :=
  | Coded (message : CodedMessage)
  | Plain (message : jsstring).

Record ErrorInfo : Type := {
  code : ErrorCode;
  message : ResponseMessage
}.

(** The catch block of [handleMessage]: the message of the error is given
    to [JSON.parse]; an object with a code and a message supplies both,
    anything else is an INTERNAL_ERROR with the message as it is. The plain
    and host messages are not JSON texts. *)
Definition errorInfo (e : Thrown) : ErrorInfo :=
  match e with
  | CodedError c m => {| code := c; message := Coded m |}
  | PlainError m => {| code := INTERNAL_ERROR; message := Plain m |}
  | HostError m => {| code := INTERNAL_ERROR; message := Plain m |}
  end.

Inductive InternalMessage : Type :=
  | SNAPSHOT (requestId : jsstring)
  | INTERACT (requestId : jsstring) (params : InteractParams).

Inductive ResultValue : Type :=
  | SnapshotResult (snapshot : AriaSnapshot)
  | InteractionResult (result : InteractResult).

Inductive InternalResponse : Type :=
  | Success (requestId : jsstring) (result : ResultValue)
  | Failure (requestId : jsstring) (error : ErrorInfo).

(** The response [handleMessage] sends for a snapshot or interact
    message. *)
Definition handleMessage (depth : nat) (doc docAfter : Document)
    (message : InternalMessage) (s : ContentState)
  : InternalResponse * ContentState :=
  match message with
  | SNAPSHOT requestId =>
      match takeSnapshot depth doc s with
      | (Return snap, s') => (Success requestId (SnapshotResult snap), s')
      | (Throw e, s') => (Failure requestId (errorInfo e), s')
      end
  | INTERACT requestId params =>
      match handleInteract depth doc docAfter params s with
      | (Return r, s') => (Success requestId (InteractionResult r), s')
      | (Throw e, s') => (Failure requestId (errorInfo e), s')
      end
  end.

End Content.

(* ===================================================================== *)
(** ** [mcp/src/context.ts] and the connection handler of [mcp/src/index.ts] *)
(* ===================================================================== *)

Module Rpc.

(** The identity of a WebSocket object. *)
Definition Socket : Type := positive.

(** One call of [sendRpcRequest]: it names the promise the call returns
    (its [resolve] and [reject]) and the timer the call starts. *)
Definition CallId : Type := positive.

Record JsonRpcRequest : Type := {
  request_id : jsstring;
  method : jsstring;
  (** the JSON text of the parameters *)
  params : jsstring
}.

Record JsonRpcError : Type := {
  code : jsstring;
  message : jsstring
}.

Record JsonRpcResponse : Type := {
  id : jsstring;
  (** the JSON text of the result, when there is one *)
  result : option jsstring;
  error : option JsonRpcError
}.

(** An [Error] with its message and the [code] property set on it, if any. *)
Record Failure : Type := {
  failure_message : jsstring;
  failure_code : option jsstring
}.

Inductive Settlement : Type :=
  | Resolved (value : option jsstring)
  | Rejected (reason : Failure).

(** What the callback of a timer holds: when it is due, and the [id] and
    [timeoutMs] of its closure. *)
Record Timer : Type := {
  deadline : Z;
  timer_id : jsstring;
  timer_timeoutMs : Z
}.

(** The [Context] object ([_ws], [pendingRequests]) and the part of the
    host it acts on: the clock and the timers of the event loop, the
    promises settled so far with the time of their settlement, and the
    sockets. *)
Record Session : Type := {
  _ws : option Socket;
  pendingRequests : gmap jsstring CallId;
  now : Z;
  timers : gmap CallId Timer;
  settled : gmap CallId (Settlement * Z);
  nextCall : CallId;
  (** the sockets carrying the message handler of [set ws] *)
  listening : gset Socket;
  (** the sockets whose [close()] was called *)
  closed : gset Socket;
  sent : list (Socket * JsonRpcRequest)
}.

Definition initial : Session :=
  {| _ws := None; pendingRequests := ∅; now := 0%Z; timers := ∅; settled := ∅;
     nextCall := 1%positive; listening := ∅; closed := ∅; sent := [] |}.

Definition noConnectionMessage : jsstring :=
  str "No connection to browser extension. In order to proceed, you must first connect a tab by clicking the Browser MCP extension icon in the browser toolbar and clicking the 'Connect' button.".

Definition TIMEOUT_CODE : jsstring := str "TIMEOUT".

(** The delay [setTimeout] applies: a delay outside 1..2^31-1 becomes 1. *)
Definition timerDelay (ms : Z) : Z :=
  if bool_decide (1 ≤ ms ≤ 2147483647)%Z then ms else 1%Z.

Definition setTimer (c : CallId) (t : Timer) (w : Session) : Session :=
  {| _ws := _ws w; pendingRequests := pendingRequests w; now := now w;
     timers := <[c := t]> (timers w); settled := settled w;
     nextCall := nextCall w; listening := listening w; closed := closed w;
     sent := sent w |}.

Definition clearTimeout (c : CallId) (w : Session) : Session :=
  {| _ws := _ws w; pendingRequests := pendingRequests w; now := now w;
     timers := delete c (timers w); settled := settled w;
     nextCall := nextCall w; listening := listening w; closed := closed w;
     sent := sent w |}.

Definition setPending (pending : gmap jsstring CallId) (w : Session) : Session :=
  {| _ws := _ws w; pendingRequests := pending; now := now w;
     timers := timers w; settled := settled w;
     nextCall := nextCall w; listening := listening w; closed := closed w;
     sent := sent w |}.

(** [resolve] or [reject] of the promise of call [c]; a promise settles
    once. *)
Definition settle (c : CallId) (outcome : Settlement) (w : Session) : Session :=
  match settled w !! c with
  | Some _ => w
  | None =>
      {| _ws := _ws w; pendingRequests := pendingRequests w; now := now w;
         timers := timers w; settled := <[c := (outcome, now w)]> (settled w);
         nextCall := nextCall w; listening := listening w; closed := closed w;
         sent := sent w |}
  end.

(** [socket.close()] *)
Definition closeSocket (sock : Socket) (w : Session) : Session :=
  {| _ws := _ws w; pendingRequests := pendingRequests w; now := now w;
     timers := timers w; settled := settled w;
     nextCall := nextCall w; listening := listening w;
     closed := {[sock]} ∪ closed w; sent := sent w |}.

(** [socket.send(data)]: nothing leaves a socket that is closing or
    closed, and nothing is thrown either. *)
Definition send (sock : Socket) (request : JsonRpcRequest) (w : Session) : Session :=
  if bool_decide (sock ∈ closed w) then w
  else
    {| _ws := _ws w; pendingRequests := pendingRequests w; now := now w;
       timers := timers w; settled := settled w;
       nextCall := nextCall w; listening := listening w; closed := closed w;
       sent := sent w ++ [(sock, request)] |}.

(** [set ws(ws)] *)
Definition set_ws (sock : Socket) (w : Session) : Session :=
  {| _ws := Some sock; pendingRequests := pendingRequests w; now := now w;
     timers := timers w; settled := settled w;
     nextCall := nextCall w; listening := {[sock]} ∪ listening w;
     closed := closed w; sent := sent w |}.

Definition hasWs (w : Session) : bool :=
  match _ws w with Some _ => true | None => false end.

Definition handleResponse (response : JsonRpcResponse) (w : Session) : Session :=
  match pendingRequests w !! id response with
  | None => w
  | Some pending =>
      let w := clearTimeout pending w in
      let w := setPending (delete (id response) (pendingRequests w)) w in
      match error response with
      | Some e =>
          settle pending
            (Rejected {| failure_message := message e;
                         failure_code := Some (code e) |}) w
      | None => settle pending (Resolved (result response)) w
      end
  end.

Definition timeoutFailure (timeoutMs : Z) : Failure :=
  {| failure_message :=
       str "Request timed out after " ++ str (pretty timeoutMs) ++ str "ms";
     failure_code := Some TIMEOUT_CODE |}.

(** The callback given to [setTimeout] in [sendRpcRequest]. *)
Definition onTimeout (c : CallId) (t : Timer) (w : Session) : Session :=
  let w := setPending (delete (timer_id t) (pendingRequests w)) w in
  settle c (Rejected (timeoutFailure (timer_timeoutMs t))) w.

(** [id] is what [randomUUID()] returned. The result is the call whose
    promise is handed back. *)
Definition sendRpcRequest (id method params : jsstring) (timeoutMs : option Z)
    (w : Session) : CallId * Session :=
  let timeoutMs := default 30000%Z timeoutMs in
  let request := {| request_id := id; method := method; params := params |} in
  let c := nextCall w in
  let w :=
    {| _ws := _ws w; pendingRequests := pendingRequests w; now := now w;
       timers := timers w; settled := settled w;
       nextCall := Pos.succ c; listening := listening w; closed := closed w;
       sent := sent w |} in
  let w := setTimer c {| deadline := (now w + timerDelay timeoutMs)%Z;
                         timer_id := id; timer_timeoutMs := timeoutMs |} w in
  let w := setPending (<[id := c]> (pendingRequests w)) w in
  match _ws w with
  | Some sock => (c, send sock request w)
  | None =>
      (** the getter [ws] throws; the message has no "not connected" in it *)
      let w := clearTimeout c w in
      let w := setPending (delete id (pendingRequests w)) w in
      (c, settle c (Rejected {| failure_message := noConnectionMessage;
                                failure_code := None |}) w)
  end.

Definition connectionClosed : Failure :=
  {| failure_message := str "Connection closed"; failure_code := None |}.

(** The loop of [close] over the entries of [pendingRequests]: the timer
    of each is cleared and its promise rejected. The entries act on
    different calls, so the order of the loop does not show. *)
Definition rejectAll (entries : list (jsstring * CallId)) (w : Session) : Session :=
  foldr (fun entry w => settle entry.2 (Rejected connectionClosed)
                          (clearTimeout entry.2 w))
        w entries.

(** [Context.close()] *)
Definition close (w : Session) : Session :=
  match _ws w with
  | None => w
  | Some sock =>
      let w := rejectAll (map_to_list (pendingRequests w)) w in
      let w := setPending ∅ w in
      closeSocket sock w
  end.

(** The handler of [wss.on("connection", ..)] in [main]. *)
Definition onConnection (websocket : Socket) (w : Session) : Session :=
  let w := match _ws w with
           | Some old => closeSocket old w
           | None => w
           end in
  set_ws websocket w.

(** The message handler installed by [set ws]; [None] is data that
    [JSON.parse] rejects. *)
Definition onMessage (sock : Socket) (data : option JsonRpcResponse) (w : Session)
  : Session :=
  if bool_decide (sock ∈ listening w) then
    match data with
    | Some response => handleResponse response w
    | None => w
    end
  else w.

Definition setNow (t : Z) (w : Session) : Session :=
  {| _ws := _ws w; pendingRequests := pendingRequests w; now := t;
     timers := timers w; settled := settled w;
     nextCall := nextCall w; listening := listening w; closed := closed w;
     sent := sent w |}.

(** What happens to a session, one event at a time. *)
Inductive Event : Type :=
  | Call (id method params : jsstring) (timeoutMs : option Z)
  | Message (sock : Socket) (data : option JsonRpcResponse)
  | Connection (websocket : Socket)
  | Close
  (** the event loop runs the callback of a timer that is due *)
  | TimerFires (c : CallId)
  (** the clock moves on to [t], passing no timer that is still set *)
  | Elapse (t : Z).

Definition step (e : Event) (w : Session) : option Session :=
  match e with
  | Call id method params timeoutMs =>
      Some (sendRpcRequest id method params timeoutMs w).2
  | Message sock data => Some (onMessage sock data w)
  | Connection websocket => Some (onConnection websocket w)
  | Close => Some (close w)
  | TimerFires c =>
      match timers w !! c with
      | Some t =>
          if bool_decide (deadline t ≤ now w)%Z
          then Some (onTimeout c t (clearTimeout c w))
          else None
      | None => None
      end
  | Elapse t =>
      if bool_decide (now w ≤ t)%Z
         && bool_decide (map_Forall (fun _ tm => (t ≤ deadline tm)%Z) (timers w))
      then Some (setNow t w)
      else None
  end.

Fixpoint run (events : list Event) (w : Session) : option Session :=
  match events with
  | [] => Some w
  | e :: rest =>
      match step e w with
      | Some w' => run rest w'
      | None => None
      end
  end.

End Rpc.

(* ===================================================================== *)
(** ** The notions the properties are stated with *)
(* ===================================================================== *)

(** White space as [replaceWhiteSpaceRuns] leaves it: single spaces only,
    none right after a code unit that was white space already. *)
Fixpoint collapsed (after_ws : bool) (s : jsstring) : Prop :=
  match s with
  | [] => True
  | c :: rest =>
      (isWhiteSpace c = true -> c = SPACE /\ after_ws = false)
      /\ collapsed (isWhiteSpace c) rest
  end.

(** A string that does not start with white space. *)
Definition startsClean (s : jsstring) : Prop :=
  match s with [] => True | c :: _ => isWhiteSpace c = false end.

Module RefTableFacts.

Import AriaSnapshot.

(** Every cached token passes the test [if (!ref)] of [getOrCreateRef]. *)
Definition tokensTruthy (t : RefTable) : Prop :=
  forall h r, elementRefMap t !! h = Some r -> truthy r = true.

(** The cache of [t] is still in [t']. *)
Definition keeps (t t' : RefTable) : Prop :=
  forall h r, elementRefMap t !! h = Some r -> elementRefMap t' !! h = Some r.

(** The rows pushed so far carry the token cached for their element. *)
Definition rowsCached (s : WalkState) : Prop :=
  forall x, x ∈ pushed s ->
    elementRefMap (table s) !! handle (exposed x) = Some (ref (row x)).

(** The tables a content script can hold: the initial one, and the ones
    left by [generateAriaSnapshot], whether it returned or threw. *)
Inductive sessionTable : RefTable -> Prop :=
  | session_start : sessionTable initialRefTable
  | session_snapshot depth doc t r t' :
      sessionTable t ->
      generateAriaSnapshot depth doc t = (r, t') ->
      sessionTable t'.

(** What every piece of the walker keeps true of its state. *)
Definition walkInvariant (s : WalkState) : Prop :=
  tokensTruthy (table s) /\ rowsCached s.

Definition preserves (m : Script WalkState unit) : Prop :=
  forall s r s', m s = (r, s') ->
    walkInvariant s -> walkInvariant s' /\ keeps (table s) (table s').

End RefTableFacts.

Module ResolutionFacts.

Import AriaSnapshot Interactions.


End ResolutionFacts.

Module RpcFacts.

Import Rpc.

(** Calls are numbered as they are made: no timer, settlement or pending
    entry belongs to a call that is yet to come. *)
Definition wellFormed (w : Session) : Prop :=
  (forall c tm, timers w !! c = Some tm -> (c < nextCall w)%positive)
  /\ (forall c o, settled w !! c = Some o -> (c < nextCall w)%positive)
  /\ (forall rid c, pendingRequests w !! rid = Some c -> (c < nextCall w)%positive).

(** No timer that is still set belongs to a request with this id: what
    [randomUUID] gives has not been given before. *)
Definition unused (rid : jsstring) (w : Session) : Prop :=
  forall c tm, timers w !! c = Some tm -> timer_id tm <> rid.

(** The events of a session whose remote side never answers request [rid],
    which is not closed, and which gives [rid] to no other call. *)
Definition quiet (rid : jsstring) (e : Event) : Prop :=
  match e with
  | Call rid' _ _ _ => rid' <> rid
  | Message _ (Some response) => id response <> rid
  | Close => False
  | _ => True
  end.

(** Call [c] for request [rid], due at [d] after [T] ms, is still waiting. *)
Definition waiting (rid : jsstring) (c : CallId) (d T : Z) (w : Session) : Prop :=
  pendingRequests w !! rid = Some c
  /\ timers w !! c = Some {| deadline := d; timer_id := rid; timer_timeoutMs := T |}
  /\ settled w !! c = None
  /\ (now w <= d)%Z
  /\ (forall c' tm, timers w !! c' = Some tm -> timer_id tm = rid -> c' = c)
  /\ (forall rid', pendingRequests w !! rid' = Some c -> rid' = rid).

(** Call [c] was rejected by its timer, at [d]. *)
Definition timedOut (rid : jsstring) (c : CallId) (d T : Z) (w : Session) : Prop :=
  pendingRequests w !! rid = None
  /\ timers w !! c = None
  /\ settled w !! c = Some (Rejected (timeoutFailure T), d)
  /\ (d <= now w)%Z
  /\ unused rid w
  /\ (forall rid', pendingRequests w !! rid' <> Some c).

Definition tracked (rid : jsstring) (c : CallId) (d T : Z) (w : Session) : Prop :=
  (c < nextCall w)%positive /\ (waiting rid c d T w \/ timedOut rid c d T w).



End RpcFacts.

(** *** Sample pages and sessions *)

Module Samples.

Import AriaSnapshot.

(** A visible element with a tag, attributes and text, and nothing else. *)
Definition plainElement (h : Handle) (tag : jsstring)
    (attrs : list (jsstring * jsstring)) (text : jsstring) : Element :=
  {| handle := h; tagName := tag; interface := HTMLOtherElement;
     attributes := attrs; type := None; value := []; textContent := text;
     labels := []; closestLabel := None;
     display := str "block"; visibility := str "visible";
     rectWidth := 100%Z; rectHeight := 20%Z; isContentEditable := false |}.

(** [<button>text</button>]: a button has the property [type]. *)
Definition button (h : Handle) (text : jsstring) : Element :=
  {| handle := h; tagName := str "BUTTON"; interface := HTMLButtonElement;
     attributes := []; type := Some (str "submit"); value := [];
     textContent := text; labels := []; closestLabel := None;
     display := str "inline-block"; visibility := str "visible";
     rectWidth := 80%Z; rectHeight := 24%Z; isContentEditable := false |}.

Definition leaf (element : Element) : Node :=
  ElementNode element false [] None [].

(** [<div role="button link">] *)
Definition twoRoles : Element :=
  plainElement 3%positive (str "DIV") [(str "role", str "button link")] [].

(** [<button>Submit</button>] and [<button>Cancel</button>] *)
Definition submit : Element := button 1%positive (str "Submit").
Definition cancel : Element := button 2%positive (str "Cancel").

(** [<body role="application">] *)
Definition applicationBody : Element :=
  plainElement 100%positive (str "BODY") [(str "role", str "application")] [].

(** A page whose body holds the given nodes; [matches] are the elements
    its selector engine finds, whatever the selector. The body carries an
    explicit role: without one, [getAriaRole] reads the property [type]
    that a body does not have, and the snapshot ends there. *)
Definition pageOf (children : list Node) (matches : list Element) : Document :=
  {| body := Some (ElementNode applicationBody false children None []);
     getElementById := fun _ => None;
     querySelectorAll := fun _ => Return matches;
     activeElement := None;
     href := str "https://example.com/";
     documentTitle := str "Example" |}.

(** The page with the Submit button, and the same page after a Cancel
    button was inserted before it. *)
Definition pageBefore : Document := pageOf [leaf submit] [submit].
Definition pageAfter : Document := pageOf [leaf cancel; leaf submit] [submit].


(** A session with one connection and one request sent over it. *)
Definition connected : Rpc.Session := Rpc.onConnection 1%positive Rpc.initial.

Definition oneRequestPending : Rpc.Session :=
  (Rpc.sendRpcRequest (str "a") (str "snapshot") (str "{}") None connected).2.

End Samples.

(* ===================================================================== *)
(** ** [extension/lib/aria-snapshot.ts]: the states of an element *)
(* ===================================================================== *)

Module AriaStates.

Import AriaSnapshot.

(** The properties of form controls that the state functions read, as the
    host reports them for the element. *)
Record ControlState : Type := {
  checked : bool;
  indeterminate : bool;
  disabled : bool;
  selected : bool
}.

(** [boolean | "mixed"] *)
Inductive Tristate : Set := IsTrue | IsFalse | IsMixed.

(** [None] is undefined. *)
Definition getCheckedState (element : Element) (control : ControlState)
  : option Tristate :=
  let ariaChecked := getAttribute element (str "aria-checked") in
  if bool_decide (ariaChecked = Some (str "true")) then Some IsTrue
  else if bool_decide (ariaChecked = Some (str "false")) then Some IsFalse
  else if bool_decide (ariaChecked = Some (str "mixed")) then Some IsMixed
  else match interface element with
       | HTMLInputElement =>
           if indeterminate control then Some IsMixed
           else if checked control then Some IsTrue else Some IsFalse
       | _ => None
       end.

Definition getDisabledState (element : Element) (control : ControlState) : bool :=
  if bool_decide (getAttribute element (str "aria-disabled") = Some (str "true"))
  then true
  else match interface element with
       | HTMLInputElement | HTMLButtonElement | HTMLSelectElement
       | HTMLTextAreaElement => disabled control
       | _ => false
       end.

Definition getSelectedState (element : Element) (control : ControlState) : bool :=
  if bool_decide (getAttribute element (str "aria-selected") = Some (str "true"))
  then true
  else match interface element with
       | HTMLOptionElement => selected control
       | _ => false
       end.

(** The digits 0..9. *)
Definition isDigit (c : N) : bool := ((48 <=? c) && (c <=? 57))%N.

Fixpoint leadingDigits (s : jsstring) : jsstring :=
  match s with
  | [] => []
  | c :: rest => if isDigit c then c :: leadingDigits rest else []
  end.

Definition digitsValue (digits : jsstring) : Z :=
  fold_left (fun acc c => (acc * 10 + Z.of_N (c - 48))%Z) digits 0%Z.

(** What [parseInt] returns for a run of digits: the integer itself when
    a double holds it exactly, which is so up to 2^53; beyond that the
    double nearest to it, or what the engine takes for it past the
    twentieth digit, which the embedding does not compute and keeps as the
    sign and the digits read. *)
Inductive ParsedInt : Type :=
  | Exact (n : Z)
  | Nearest (negative : bool) (digits : jsstring).

(** [parseInt(s, 10)]: leading white space is skipped, a sign is read, and
    the digits that follow give the integer; [None] is NaN, when no digit
    follows. *)
Definition parseInt10 (s : jsstring) : option ParsedInt :=
  let s := trimStart s in
  let signed :=
    match s with
    | c :: rest =>
        if (c =? 45)%N then (true, rest)
        else if (c =? 43)%N then (false, rest)
        else (false, s)
    | [] => (false, [])
    end in
  match leadingDigits signed.2 with
  | [] => None
  | digits =>
      if (digitsValue digits <=? 2 ^ 53)%Z
      then Some (Exact (if signed.1 then (- digitsValue digits)%Z
                        else digitsValue digits))
      else Some (Nearest signed.1 digits)
  end.

(** [None] is undefined. The tag name matches [/^H(\d)$/i] when it is an
    [H] or [h] followed by one digit. *)
Definition getLevel (element : Element) : option ParsedInt :=
  match (match truthyAttribute element (str "aria-level") with
         | Some ariaLevel => parseInt10 ariaLevel
         | None => None
         end) with
  | Some level => Some level
  | None =>
      match tagName element with
      | [h; d] =>
          if ((h =? 72) || (h =? 104))%N && isDigit d
          then Some (Exact (Z.of_N (d - 48)))
          else None
      | _ => None
      end
  end.

(** The entries of the array [states], before they are joined: each stands
    for the text the source pushes ([focused], [checked], [unchecked],
    [checked=mixed], [disabled], [expanded], [collapsed], [pressed],
    [not-pressed], [pressed=mixed], [selected], and [level=] followed by
    the number). *)
Inductive StateToken : Type :=
  | Focused
  | Checked
  | Unchecked
  | CheckedMixed
  | Disabled
  | Expanded
  | Collapsed
  | Pressed
  | NotPressed
  | PressedMixed
  | Selected
  | Level (level : ParsedInt).

Definition checkedRoles : list jsstring :=
  [str "checkbox"; str "radio"; str "menuitemcheckbox"; str "menuitemradio";
   str "switch"].

Definition disabledRoles : list jsstring :=
  [str "button"; str "checkbox"; str "combobox"; str "gridcell"; str "link";
   str "listbox"; str "menuitem"; str "menuitemcheckbox"; str "menuitemradio";
   str "option"; str "radio"; str "searchbox"; str "slider"; str "spinbutton";
   str "switch"; str "tab"; str "textbox"].

Definition expandedRoles : list jsstring :=
  [str "button"; str "combobox"; str "disclosure"; str "menu"; str "menubar";
   str "navigation"; str "tab"].

Definition selectedRoles : list jsstring :=
  [str "option"; str "tab"; str "treeitem"; str "gridcell"].

Definition getAriaStates (doc : Document) (element : Element)
    (control : ControlState) (role : jsstring) : list StateToken :=
  (match activeElement doc with
   | Some active =>
       if bool_decide (handle active = handle element) then [Focused] else []
   | None => []
   end)
  ++ (if includes checkedRoles role
      then match getCheckedState element control with
           | Some IsTrue => [Checked]
           | Some IsFalse => [Unchecked]
           | Some IsMixed => [CheckedMixed]
           | None => []
           end
      else [])
  ++ (if includes disabledRoles role
      then (if getDisabledState element control then [Disabled] else [])
      else [])
  ++ (if includes expandedRoles role
      then (let ariaExpanded := getAttribute element (str "aria-expanded") in
            if bool_decide (ariaExpanded = Some (str "true")) then [Expanded]
            else if bool_decide (ariaExpanded = Some (str "false")) then [Collapsed]
            else [])
      else [])
  ++ (if bool_decide (role = str "button")
      then (let ariaPressed := getAttribute element (str "aria-pressed") in
            if bool_decide (ariaPressed = Some (str "true")) then [Pressed]
            else if bool_decide (ariaPressed = Some (str "false")) then [NotPressed]
            else if bool_decide (ariaPressed = Some (str "mixed")) then [PressedMixed]
            else [])
      else [])
  ++ (if includes selectedRoles role
      then (if getSelectedState element control then [Selected] else [])
      else [])
  ++ (if bool_decide (role = str "heading") || bool_decide (role = str "treeitem")
      then match getLevel element with
           | Some level => [Level level]
           | None => []
           end
      else []).

End AriaStates.

(* ===================================================================== *)
(** ** [extension/lib/console-capture.ts] *)
(* ===================================================================== *)

Module ConsoleCapture.

Inductive LogLevel : Set := LevelLog | LevelInfo | LevelWarn | LevelError | LevelDebug.

Record ConsoleLog : Type := {
  level : LogLevel;
  ts : Z;
  text : jsstring
}.

(** An argument of a console call: a string, an [Error] with its name,
    message and stack, or another value with the text the source gets for
    it from [JSON.stringify(arg, null, 2)], or from [String(arg)] when that
    throws. *)
Inductive Arg : Type :=
  | StringArg (s : jsstring)
  | ErrorArg (name message stack : jsstring)
  | OtherArg (rendered : jsstring).

Definition MAX_LOGS : nat := 1000.

Definition renderArg (arg : Arg) : jsstring :=
  match arg with
  | StringArg s => s
  | ErrorArg name message stack => name ++ str ": " ++ message ++ 10%N :: stack
  | OtherArg rendered => rendered
  end.

(** [now] is what [Date.now()] gives; the list is [capturedLogs]. *)
Definition captureLog (level : LogLevel) (args : list Arg) (now : Z)
    (capturedLogs : list ConsoleLog) : list ConsoleLog :=
  let log := {| level := level; ts := now; text := joinSpace (renderArg <$> args) |} in
  let capturedLogs := capturedLogs ++ [log] in
  if Nat.ltb MAX_LOGS (List.length capturedLogs)
  then tail capturedLogs
  else capturedLogs.

Definition getConsoleLogs (capturedLogs : list ConsoleLog) : list ConsoleLog :=
  capturedLogs.

Definition clearConsoleLogs (capturedLogs : list ConsoleLog) : list ConsoleLog := [].

(** One intercepted call of a console method, and a run of them. *)
Record ConsoleCall : Type := {
  call_level : LogLevel;
  call_args : list Arg;
  call_now : Z
}.

Definition entryOf (c : ConsoleCall) : ConsoleLog :=
  {| level := call_level c; ts := call_now c;
     text := joinSpace (renderArg <$> call_args c) |}.

Definition captureAll (calls : list ConsoleCall) (capturedLogs : list ConsoleLog)
  : list ConsoleLog :=
  fold_left (fun logs c => captureLog (call_level c) (call_args c) (call_now c) logs)
            calls capturedLogs.

End ConsoleCapture.

(* ===================================================================== *)
(** ** More notions for the properties *)
(* ===================================================================== *)

(** A string that does not end with white space. *)
Fixpoint endsClean (s : jsstring) : Prop :=
  match s with
  | [] => True
  | [c] => isWhiteSpace c = false
  | _ :: rest => endsClean rest
  end.

(** The code units of a string that are not white space. *)
Definition inkOf (s : jsstring) : jsstring :=
  List.filter (fun c => negb (isWhiteSpace c)) s.

(** The last [n] entries of a list. *)
Definition lastN {A} (n : nat) (l : list A) : list A :=
  drop (List.length l - n) l.

Module StateFacts.

Import AriaStates.

(** The kind of a state token, numbered in the order [getAriaStates]
    looks at them: focus, checked, disabled, expanded, pressed, selected,
    level. *)
Definition kind (token : StateToken) : nat :=
  match token with
  | Focused => 0
  | Checked | Unchecked | CheckedMixed => 1
  | Disabled => 2
  | Expanded | Collapsed => 3
  | Pressed | NotPressed | PressedMixed => 4
  | Selected => 5
  | Level _ => 6
  end.

(** What a token tells about the role it was reported for and about the
    element. *)
Definition warranted (doc : Document) (element : Element) (role : jsstring)
    (token : StateToken) : Prop :=
  match token with
  | Focused =>
      exists active, activeElement doc = Some active /\ handle active = handle element
  | Checked | Unchecked | CheckedMixed => role ∈ checkedRoles
  | Disabled => role ∈ disabledRoles
  | Expanded =>
      role ∈ expandedRoles
      /\ getAttribute element (str "aria-expanded") = Some (str "true")
  | Collapsed =>
      role ∈ expandedRoles
      /\ getAttribute element (str "aria-expanded") = Some (str "false")
  | Pressed | NotPressed | PressedMixed => role = str "button"
  | Selected => role ∈ selectedRoles
  | Level level =>
      (role = str "heading" \/ role = str "treeitem")
      /\ getLevel element = Some level
  end.

End StateFacts.

Module WalkFacts.

Import AriaSnapshot.

(** The error of a walk that ran out of stack. *)
Definition stackOverflow : Thrown :=
  HostError (str "Maximum call stack size exceeded").



(** What a row tells about the element it was made for. *)
Definition rowFaithful (doc : Document) (x : Exposure) : Prop :=
  isHidden (exposed x) = false
  /\ getAriaRole (exposed x) = Return (Some (role (row x)))
  /\ truthy (role (row x)) = true
  /\ shouldIncludeElement (role (row x)) (exposed x) = true
  /\ getAccessibleName doc (exposed x) = Return (name (row x)).

(** The tokens of the cache are [e1 .. ek] for the [k] of the counter, and
    no two elements hold the same one. *)
Definition tokensCounted (t : RefTable) : Prop :=
  (forall h r, elementRefMap t !! h = Some r ->
     exists k, (1 <= k <= elementRefCounter t)%N /\ r = str "e" ++ numberToString k)
  /\ (forall h1 h2 r, elementRefMap t !! h1 = Some r ->
        elementRefMap t !! h2 = Some r -> h1 = h2).

(** A piece of the walker that keeps [J] true of its state. *)
Definition maintains (J : WalkState -> Prop) (m : Script WalkState unit) : Prop :=
  forall s r s', m s = (r, s') -> J s -> J s'.

(** A piece of the walker whose completions all satisfy [P]. *)
Definition ends (P : Completion Thrown unit -> Prop) (m : Script WalkState unit)
  : Prop :=
  forall s r s', m s = (r, s') -> P r.


(** The roles a row can carry. *)
Definition includedRoles : list jsstring :=
  [str "button"; str "link"; str "textbox"; str "checkbox"; str "radio";
   str "combobox"; str "searchbox"; str "slider"; str "spinbutton";
   str "menuitem"; str "menuitemcheckbox"; str "menuitemradio";
   str "tab"; str "switch"; str "option"; str "treeitem";
   str "heading"; str "navigation"; str "main"; str "banner"; str "contentinfo";
   str "complementary"; str "region"; str "article"; str "form"; str "search";
   str "img"].

End WalkFacts.

Module ActionFacts.

Import AriaSnapshot Interactions.

(** The element an effect is done to. *)
Definition targetOf (e : DomEffect) : Handle :=
  match e with
  | ScrollIntoView target | DispatchEvent target _ | NativeClick target
  | Focus target | SetValue target _ | SetTextContent target _ => target
  end.

(** The selector engine of the page throws nothing but its own
    exceptions. *)
Definition hostThrowsOnly (doc : Document) : Prop :=
  forall css e, querySelectorAll doc css = Throw e -> exists m, e = HostError m.

(** The test of [findByRole] on one element whose role is known. *)
Definition roleMatches (role : jsstring) (name : option jsstring)
    (element : Element) : bool :=
  match getElementRole element with
  | Return elementRole => bool_decide (elementRole = Some role)
  | Throw _ => false
  end
  && match name with
     | None => true
     | Some name => bool_decide (getAccessibleName element = name)
     end.

(** The request with its [snapshot] flag replaced. *)
Definition withSnapshot (params : Content.InteractParams) (flag : option bool)
  : Content.InteractParams :=
  {| Content.action := Content.action params;
     Content.element := Content.element params;
     Content.text := Content.text params;
     Content.key := Content.key params;
     Content.value := Content.value params;
     Content.snapshot := flag |}.

(** An effect that writes to the page: it assigns [value] or
    [textContent], or dispatches an event. *)
Definition writes (e : DomEffect) : bool :=
  match e with
  | SetValue _ _ | SetTextContent _ _ | DispatchEvent _ _ | NativeClick _ => true
  | ScrollIntoView _ | Focus _ => false
  end.

(** The element [press] dispatches to. *)
Definition pressTarget (doc : Document) : option Element :=
  match activeElement doc with
  | Some focused => Some focused
  | None => body doc ≫= nodeElement
  end.

(** An exception of the host. *)
Definition isHostError (e : Thrown) : Prop := exists m, e = HostError m.


(** What an action on a selector leaves: nothing when it throws, and
    otherwise effects on the element the selector resolved to. *)
Definition actedOn (doc : Document) (selector : ElementSelector)
    (s : ContentState) (r : Completion Thrown unit) (s' : ContentState) : Prop :=
  (exists e, r = Throw e /\ s' = s
             /\ findElement doc (refTable s) selector = Throw e)
  \/ (exists target done,
        findElement doc (refTable s) selector = Return target
        /\ r = Return tt
        /\ refTable s' = refTable s
        /\ effects s' = effects s ++ done
        /\ forall e, e ∈ done -> targetOf e = handle target).

(** A type request that stopped at the assignment of [value]: its
    selector resolved to a file input, which was scrolled to and focused
    before the assignment threw. *)
Definition stoppedAtFileInput (doc : Document) (selector : ElementSelector)
    (s : ContentState) (e : Thrown) (s' : ContentState) : Prop :=
  exists target,
    findElement doc (refTable s) selector = Return target
    /\ isFileInput target = true
    /\ e = filenameOnly
    /\ refTable s' = refTable s
    /\ effects s' = effects s ++ [ScrollIntoView (handle target); Focus (handle target)].

(** An exception that carries no code. *)
Definition uncoded (e : Thrown) : Prop :=
  match e with
  | CodedError _ _ => False
  | PlainError _ | HostError _ => True
  end.

(** Why the action of an interact request threw [e]: the resolution of its
    selector threw it, or the selector of a select request resolved to an
    element that is no [<select>], or it is an exception without a code
    (a missing parameter, an unknown action, no element to press on). *)
Definition failureCause (doc : Document) (t : RefTable)
    (params : Content.InteractParams) (e : Thrown) : Prop :=
  (exists selector,
     Content.element params = Some selector
     /\ findElement doc t selector = Throw e)
  \/ (Content.action params = str "select"
      /\ e = CodedError INVALID_REQUEST SelectRequiresSelectElement
      /\ exists selector target,
           Content.element params = Some selector
           /\ findElement doc t selector = Return target
           /\ interface target <> HTMLSelectElement)
  \/ uncoded e.

(** What the code of a failed interact request tells about the request. *)
Definition codeCause (doc : Document) (t : RefTable)
    (params : Content.InteractParams) (c : ErrorCode) : Prop :=
  match c with
  | ELEMENT_NOT_FOUND =>
      exists selector,
        Content.element params = Some selector
        /\ candidates doc t selector = Return []
  | ELEMENT_AMBIGUOUS =>
      exists selector found,
        Content.element params = Some selector
        /\ candidates doc t selector = Return found
        /\ 1 < List.length found
  | INVALID_REQUEST =>
      Content.action params = str "select"
      /\ exists selector target,
           Content.element params = Some selector
           /\ findElement doc t selector = Return target
           /\ interface target <> HTMLSelectElement
  | INTERNAL_ERROR => True
  | TIMEOUT | NO_TAB | NAVIGATION_FAILED => False
  end.

(** Why resolution threw [e]: no candidate, several candidates, or an
    exception of the host. *)
Definition resolutionFailure (doc : Document) (t : RefTable)
    (selector : ElementSelector) (e : Thrown) : Prop :=
  (e = CodedError ELEMENT_NOT_FOUND (NoElementFound selector)
   /\ candidates doc t selector = Return [])
  \/ (exists found,
        e = CodedError ELEMENT_AMBIGUOUS
              (MultipleElementsFound (List.length found) selector)
        /\ candidates doc t selector = Return found
        /\ 1 < List.length found)
  \/ isHostError e.

End ActionFacts.

Module SessionFacts.

Import Rpc.

(** What a response settles the promise of its call with. *)
Definition outcomeOf (response : JsonRpcResponse) : Settlement :=
  match error response with
  | Some e => Rejected {| failure_message := message e;
                          failure_code := Some (code e) |}
  | None => Resolved (result response)
  end.

(** Every call made so far is accounted for: its promise is settled and
    its timer gone, or its promise is not settled and its timer is set and
    not overdue. *)
Definition accounted (w : Session) : Prop :=
  forall c : CallId, (c < nextCall w)%positive ->
    (settled w !! c = None
     /\ exists tm, timers w !! c = Some tm /\ (now w <= deadline tm)%Z)
    \/ ((exists o, settled w !! c = Some o) /\ timers w !! c = None).




End SessionFacts.

Module MoreSamples.

Import AriaSnapshot Samples.

(** [<body>] with no attribute. *)
Definition plainBody : Element := plainElement 100%positive (str "BODY") [] [].

(** An ordinary page: a body without a role, holding the Submit button. *)
Definition ordinaryPage : Document :=
  {| body := Some (ElementNode plainBody false [leaf submit] None []);
     getElementById := fun _ => None;
     querySelectorAll := fun _ => Return [submit];
     activeElement := None;
     href := str "https://example.com/";
     documentTitle := str "Example" |}.

(** [<div role="navigation" aria-owns="go">], and a page on which it owns
    the button [<button id="go">] that is also a child of the body. *)
Definition owner : Element :=
  plainElement 4%positive (str "DIV")
    [(str "role", str "navigation"); (str "aria-owns", str "go")] [].

Definition ownsPage : Document :=
  {| body := Some (ElementNode applicationBody false [leaf owner; leaf submit] None []);
     getElementById := fun id =>
       if bool_decide (id = str "go") then Some (leaf submit) else None;
     querySelectorAll := fun _ => Return [];
     activeElement := None;
     href := str "https://example.com/";
     documentTitle := str "Example" |}.

(** [<div id="self" role="group" aria-owns="self">], on a page where the
    id resolves to the element itself. *)
Definition selfOwner : Element :=
  plainElement 5%positive (str "DIV")
    [(str "id", str "self"); (str "role", str "group");
     (str "aria-owns", str "self")] [].

Definition selfOwningPage : Document :=
  {| body := Some (ElementNode applicationBody false [leaf selfOwner] None []);
     getElementById := fun id =>
       if bool_decide (id = str "self") then Some (leaf selfOwner) else None;
     querySelectorAll := fun _ => Return [];
     activeElement := None;
     href := str "https://example.com/";
     documentTitle := str "Example" |}.

(** [<input type="file">] *)
Definition fileInput : Element :=
  {| handle := 6%positive; tagName := str "INPUT"; interface := HTMLInputElement;
     attributes := [(str "type", str "file")]; type := Some (str "file");
     value := []; textContent := []; labels := []; closestLabel := None;
     display := str "inline-block"; visibility := str "visible";
     rectWidth := 120%Z; rectHeight := 24%Z; isContentEditable := false |}.


(** A page whose selector engine finds the given element for every
    pattern. *)
Definition pageFinding (element : Element) : Document :=
  pageOf [leaf element] [element].

End MoreSamples.

(* ===================================================================== *)
(** ** Properties *)
(* ===================================================================== *)

(** *** White space *)

Section WhiteSpace.

Lemma isWhiteSpace_SPACE : isWhiteSpace SPACE = true.
Proof. reflexivity. Qed.

Lemma collapsed_weaken b s : collapsed b s -> collapsed false s.
Proof. destruct s as [|c rest]; simpl; [done|]. intros [H ?]. split; [|done]. intros Hc. destruct (H Hc). done. Qed.

Lemma replaceWhiteSpaceRuns_collapsed b s :
  collapsed b (replaceWhiteSpaceRuns b s).
Proof.
  revert b. induction s as [|c rest IH]; intros b; simpl; [done|].
  destruct (isWhiteSpace c) eqn:Hc.
  - destruct b.
    + apply IH.
    + simpl. rewrite isWhiteSpace_SPACE. split; [done|]. apply IH.
  - simpl. rewrite Hc. split; [done|]. apply IH.
Qed.

Lemma replaceWhiteSpaceRuns_fixed b s :
  collapsed b s -> replaceWhiteSpaceRuns b s = s.
Proof.
  revert b. induction s as [|c rest IH]; intros b; simpl; [done|].
  intros [Hc Hrest]. destruct (isWhiteSpace c) eqn:E.
  - destruct (Hc eq_refl) as [-> ->]. f_equal. by apply IH.
  - f_equal. by apply IH.
Qed.

Lemma collapsed_trimStart b s : collapsed b s -> collapsed false (trimStart s).
Proof.
  revert b. induction s as [|c rest IH]; intros b; simpl; [done|].
  intros [Hc Hrest]. destruct (isWhiteSpace c) eqn:E.
  - by eapply IH.
  - simpl. rewrite E. split; [done|]. done.
Qed.

Lemma collapsed_trimEnd b s : collapsed b s -> collapsed b (trimEnd s).
Proof.
  revert b. induction s as [|c rest IH]; intros b; simpl; [done|].
  intros [Hc Hrest]. specialize (IH _ Hrest).
  destruct (trimEnd rest) as [|k kept] eqn:Ek.
  - destruct (isWhiteSpace c) eqn:E; simpl; [done|]. rewrite E. done.
  - split; done.
Qed.

Lemma trimStart_startsClean s : startsClean (trimStart s).
Proof.
  induction s as [|c rest IH]; simpl; [done|].
  destruct (isWhiteSpace c) eqn:E; [done|]. simpl. done.
Qed.

Lemma trimStart_fixed s : startsClean s -> trimStart s = s.
Proof. destruct s as [|c rest]; simpl; [done|]. by intros ->. Qed.

Lemma trimEnd_startsClean s : startsClean s -> startsClean (trimEnd s).
Proof.
  destruct s as [|c rest]; simpl; [done|]. intros E.
  destruct (trimEnd rest); simpl; [rewrite E|]; done.
Qed.

Lemma trimEnd_idem s : trimEnd (trimEnd s) = trimEnd s.
Proof.
  induction s as [|c rest IH]; simpl; [done|].
  destruct (trimEnd rest) as [|k kept] eqn:Ek.
  - destruct (isWhiteSpace c) eqn:E; simpl; [done|]. by rewrite E.
  - simpl. simpl in IH. rewrite IH. done.
Qed.

Lemma trim_fixed s : trim (trim s) = trim s.
Proof.
  unfold trim.
  rewrite (trimStart_fixed (trimEnd (trimStart s))).
  - apply trimEnd_idem.
  - apply trimEnd_startsClean, trimStart_startsClean.
Qed.

End WhiteSpace.

(** C9. Whitespace normalisation is idempotent: for every string [s],
    normalising [normalizeWhitespace s] again returns it unchanged, where
    [normalizeWhitespace] turns every run of white space into one space
    and trims both ends. *)
Theorem normalizeWhitespace_idempotent (s : jsstring) :
  AriaSnapshot.normalizeWhitespace (AriaSnapshot.normalizeWhitespace s)
  = AriaSnapshot.normalizeWhitespace s.
Proof.
  unfold AriaSnapshot.normalizeWhitespace.
  rewrite (replaceWhiteSpaceRuns_fixed false (trim _)).
  - apply trim_fixed.
  - unfold trim. apply collapsed_trimEnd.
    eapply collapsed_trimStart, replaceWhiteSpaceRuns_collapsed.
Qed.

(** *** The role classifiers *)

Section Roles.

Import AriaSnapshot.

Lemma getAriaRole_explicit element explicitRole :
  truthyAttribute element (str "role") = Some explicitRole ->
  getAriaRole element = Return (Some (firstSplitPiece explicitRole)).
Proof. unfold getAriaRole. by intros ->. Qed.

Lemma getElementRole_explicit element explicitRole :
  truthyAttribute element (str "role") = Some explicitRole ->
  Interactions.getElementRole element = Return (Some explicitRole).
Proof. unfold Interactions.getElementRole. by intros ->. Qed.

(** Without an explicit role, the snapshot classifier throws on an element
    that has no property [type], whatever its tag. *)
Lemma getAriaRole_without_type element :
  truthyAttribute element (str "role") = None ->
  type element = None ->
  getAriaRole element = Throw undefinedToLowerCase.
Proof. unfold getAriaRole, getInputRole. by intros -> ->. Qed.

(** C5, at the element [<div role="button link">]: the snapshot classifier
    gives the first token, [button]; the classifier of the role selector
    gives the whole attribute, [button link]. The two do not agree. *)
Theorem multi_token_role_diverges :
  let element := Samples.twoRoles in
  getAriaRole element = Return (Some (str "button"))
  /\ Interactions.getElementRole element = Return (Some (str "button link"))
  /\ getAriaRole element <> Interactions.getElementRole element.
Proof. repeat split; [vm_compute; reflexivity .. | vm_compute; discriminate]. Qed.

End Roles.

(** *** The reference table *)

Section References.

Import AriaSnapshot RefTableFacts.

Lemma keeps_refl t : keeps t t.
Proof. by intros h r. Qed.

Lemma keeps_trans t1 t2 t3 : keeps t1 t2 -> keeps t2 t3 -> keeps t1 t3.
Proof. intros H12 H23 h r Hh. by apply H23, H12. Qed.

Lemma minted_truthy n : truthy (str "e" ++ numberToString n) = true.
Proof. reflexivity. Qed.

(** [getOrCreateRef] returns the cached token when there is one, caches
    the token it returns, and leaves every other entry alone. *)
Lemma getOrCreateRef_cached element t r :
  tokensTruthy t ->
  elementRefMap t !! handle element = Some r ->
  getOrCreateRef element t = (r, t).
Proof.
  intros Ht Hr. unfold getOrCreateRef, WeakMap.get. rewrite Hr.
  by rewrite (Ht _ _ Hr).
Qed.

Lemma getOrCreateRef_spec element t r t' :
  tokensTruthy t ->
  getOrCreateRef element t = (r, t') ->
  tokensTruthy t' /\ keeps t t'
  /\ elementRefMap t' !! handle element = Some r.
Proof.
  intros Ht. unfold getOrCreateRef, WeakMap.get, WeakMap.set.
  destruct (elementRefMap t !! handle element) as [cached|] eqn:Hc.
  - rewrite (Ht _ _ Hc). intros [= <- <-]. auto using keeps_refl.
  - intros [= <- <-]. unfold tokensTruthy, keeps. simpl. repeat split.
    + intros h r. rewrite lookup_insert. case_decide.
      * intros [= <-]. apply minted_truthy.
      * apply Ht.
    + intros h r Hh. rewrite lookup_insert_ne; [done|]. congruence.
    + by rewrite lookup_insert_eq.
Qed.

Lemma preserves_ret : preserves (ret tt).
Proof. intros s r s' [= <- <-] H. auto using keeps_refl. Qed.

Lemma preserves_throw e : preserves (throw e).
Proof. intros s r s' [= <- <-] H. auto using keeps_refl. Qed.

Lemma preserves_bind (m : Script WalkState unit) k :
  preserves m -> (forall u, preserves (k u)) -> preserves (bind m k).
Proof.
  intros Hm Hk s r s' Hrun Hinv. unfold bind in Hrun.
  destruct (m s) as [[u|e] s1] eqn:Em.
  - destruct (Hm _ _ _ Em Hinv) as [Hinv1 Hk1].
    destruct (Hk u _ _ _ Hrun Hinv1) as [Hinv2 Hk2].
    eauto using keeps_trans.
  - injection Hrun as <- <-. by eapply Hm.
Qed.

Lemma preserves_forEach {A} (xs : list A) body :
  (forall x, preserves (body x)) -> preserves (forEach xs body).
Proof.
  intros Hbody. induction xs as [|x rest IH]; simpl.
  - apply preserves_ret.
  - apply preserves_bind; [apply Hbody | intros _; apply IH].
Qed.

Lemma preserves_expose doc element role : preserves (expose doc element role).
Proof.
  intros s r s' Hrun [Htok Hrows]. unfold expose in Hrun.
  destruct (getOrCreateRef element (table s)) as [ref t] eqn:Eg.
  destruct (getOrCreateRef_spec _ _ _ _ Htok Eg) as (Htok' & Hkeep & Hnew).
  destruct (getAccessibleName doc element) as [name|e];
    injection Hrun as <- <-; repeat split; simpl; try done.
  - intros x [Hx | ->%list_elem_of_singleton]%elem_of_app; simpl; [|done].
    by apply Hkeep, Hrows.
  - intros x Hx. by apply Hkeep, Hrows.
Qed.

Lemma preserves_walkAriaTree depth doc node :
  preserves (walkAriaTree depth doc node).
Proof.
  revert node. induction depth as [|depth IH]; intros node; simpl.
  - apply preserves_throw.
  - destruct node as [a | element a childNodes shadowRoot assignedNodes].
    + apply preserves_ret.
    + destruct (isHidden element); [apply preserves_ret|].
      apply preserves_bind.
      { destruct (getAriaRole element) as [[role|]|e];
          [|apply preserves_ret|apply preserves_throw].
        destruct (truthy role && shouldIncludeElement role element);
          [apply preserves_expose | apply preserves_ret]. }
      intros _. apply preserves_bind.
      { apply preserves_forEach. intros child. apply IH. }
      intros _.
      destruct (truthyAttribute element (str "aria-owns")) as [owns|];
        [|apply preserves_ret].
      apply preserves_forEach. intros id.
      destruct (truthy id); [|apply preserves_ret].
      destruct (getElementById doc id) as [owned|]; [apply IH | apply preserves_ret].
Qed.

(** A snapshot keeps the cache it starts from, and every row it reports
    carries the token cached for its element when it ends. *)
Lemma snapshotExposures_spec depth doc t r t' :
  tokensTruthy t ->
  snapshotExposures depth doc t = (r, t') ->
  tokensTruthy t' /\ keeps t t'
  /\ forall xs, r = Return xs ->
       forall x, x ∈ xs ->
         elementRefMap t' !! handle (exposed x) = Some (ref (row x)).
Proof.
  intros Ht. unfold snapshotExposures.
  destruct (body doc) as [root|].
  - destruct (walkAriaTree depth doc root _) as [[u|e] s] eqn:Ew;
      intros [= <- <-];
      (destruct (preserves_walkAriaTree _ _ _ _ _ _ Ew) as [[Htok Hrows] Hkeep];
       [split; [exact Ht | intros x Hx; by apply elem_of_nil in Hx] |]);
      repeat split; try done.
    intros xs [= <-] x Hx. by apply Hrows.
  - intros [= <- <-]. repeat split; try done.
    + by intros h r.
    + intros xs [= <-] x Hx. by apply elem_of_nil in Hx.
Qed.

Lemma generateAriaSnapshot_exposures depth doc t snap t' :
  generateAriaSnapshot depth doc t = (Return snap, t') ->
  exists xs, snapshotExposures depth doc t = (Return xs, t')
             /\ elements snap = row <$> xs.
Proof.
  unfold generateAriaSnapshot.
  destruct (snapshotExposures depth doc t) as [[xs|e] t1]; [|done].
  intros [= <- <-]. eauto.
Qed.

Lemma sessionTable_tokensTruthy t : sessionTable t -> tokensTruthy t.
Proof.
  induction 1 as [|depth doc t r t' _ IH Hgen].
  - intros h r. simpl. by rewrite lookup_empty.
  - unfold generateAriaSnapshot in Hgen.
    destruct (snapshotExposures depth doc t) as [[xs|e] t1] eqn:Es;
      injection Hgen as <- <-; by eapply snapshotExposures_spec.
Qed.

(** C7. Reference stability: when two successive snapshots of a session
    both expose an element, the rows they report for it carry the same
    token. The rows of a snapshot are the rows of its exposures, in
    order. *)
Theorem reference_stability depth1 depth2 doc1 doc2 t0 t1 t2 snap1 snap2 :
  sessionTable t0 ->
  generateAriaSnapshot depth1 doc1 t0 = (Return snap1, t1) ->
  generateAriaSnapshot depth2 doc2 t1 = (Return snap2, t2) ->
  exists xs1 xs2,
    snapshotExposures depth1 doc1 t0 = (Return xs1, t1)
    /\ snapshotExposures depth2 doc2 t1 = (Return xs2, t2)
    /\ elements snap1 = row <$> xs1
    /\ elements snap2 = row <$> xs2
    /\ forall x1 x2, x1 ∈ xs1 -> x2 ∈ xs2 ->
         handle (exposed x1) = handle (exposed x2) ->
         ref (row x1) = ref (row x2).
Proof.
  intros Hs H1 H2.
  destruct (generateAriaSnapshot_exposures _ _ _ _ _ H1) as (xs1 & E1 & R1).
  destruct (generateAriaSnapshot_exposures _ _ _ _ _ H2) as (xs2 & E2 & R2).
  exists xs1, xs2. repeat split; try done.
  intros x1 x2 Hx1 Hx2 Hsame.
  pose proof (sessionTable_tokensTruthy _ Hs) as Ht0.
  destruct (snapshotExposures_spec _ _ _ _ _ Ht0 E1) as (Ht1 & _ & Hrows1).
  destruct (snapshotExposures_spec _ _ _ _ _ Ht1 E2) as (_ & Hkeep & Hrows2).
  pose proof (Hkeep _ _ (Hrows1 _ eq_refl _ Hx1)) as Hc1.
  pose proof (Hrows2 _ eq_refl _ Hx2) as Hc2.
  rewrite Hsame in Hc1. congruence.
Qed.

End References.

Section ReferenceExamples.

Import AriaSnapshot RefTableFacts Samples.

Lemma reference_stability_witness :
  sessionTable initialRefTable
  /\ exists snap1 t1 snap2 t2,
       generateAriaSnapshot 3 pageBefore initialRefTable = (Return snap1, t1)
       /\ generateAriaSnapshot 3 pageAfter t1 = (Return snap2, t2)
       /\ exists xs1 xs2,
            snapshotExposures 3 pageBefore initialRefTable = (Return xs1, t1)
            /\ snapshotExposures 3 pageAfter t1 = (Return xs2, t2)
            /\ elements snap1 = row <$> xs1
            /\ elements snap2 = row <$> xs2
            /\ forall x1 x2, x1 ∈ xs1 -> x2 ∈ xs2 ->
                 handle (exposed x1) = handle (exposed x2) ->
                 ref (row x1) = ref (row x2).
Proof.
  split; [apply session_start|].
  do 4 eexists.
  split; [vm_compute; reflexivity|].
  split; [vm_compute; reflexivity|].
  eapply reference_stability;
    [apply session_start | vm_compute; reflexivity | vm_compute; reflexivity].
Defined.

(** A snapshot ends in a TypeError at the first visible element that has
    neither an explicit role nor the property [type]; for most pages that
    is the body. *)
Lemma generateAriaSnapshot_plain_body depth doc element a childNodes shadowRoot
    assignedNodes t :
  body doc = Some (ElementNode element a childNodes shadowRoot assignedNodes) ->
  isHidden element = false ->
  truthyAttribute element (str "role") = None ->
  type element = None ->
  generateAriaSnapshot (S depth) doc t
  = (Throw undefinedToLowerCase,
     {| elementRefCounter := 0; elementRefMap := elementRefMap t |}).
Proof.
  intros Hbody Hvisible Hrole Htype.
  unfold generateAriaSnapshot, snapshotExposures. rewrite Hbody. cbn.
  rewrite Hvisible, (getAriaRole_without_type _ Hrole Htype). reflexivity.
Qed.

(** C2, on a page (its body has an explicit role, so that snapshots go
    through) with a Submit button that gets a Cancel button inserted
    before it between two snapshots: the second snapshot starts counting at
    zero again, so the new button is given [e1], the token the cache still
    holds for the Submit button. Two different elements hold the same
    token, and both rows of the second snapshot read [e1]. *)
Theorem counter_reset_reuses_token :
  exists snap1 t1 snap2 t2,
    generateAriaSnapshot 3 pageBefore initialRefTable = (Return snap1, t1)
    /\ generateAriaSnapshot 3 pageAfter t1 = (Return snap2, t2)
    /\ handle submit <> handle cancel
    /\ elementRefMap t2 !! handle submit = Some (str "e1")
    /\ elementRefMap t2 !! handle cancel = Some (str "e1")
    /\ ref <$> elements snap1 = [str "e1"]
    /\ ref <$> elements snap2 = [str "e1"; str "e1"].
Proof.
  do 4 eexists.
  split; [vm_compute; reflexivity|].
  split; [vm_compute; reflexivity|].
  split; [vm_compute; discriminate|].
  repeat split; vm_compute; reflexivity.
Qed.

End ReferenceExamples.

(** *** Selector resolution and the executor *)

Section Resolution.

Import AriaSnapshot Interactions Samples.

Lemma findElementByRef_throws ref t : findElementByRef ref t = Throw WeakMap.notAFunction.
Proof. reflexivity. Qed.

(** Once the candidates are there, [findElement] returns the only one or
    fails with the code for none or for several. *)
Lemma findElement_of_candidates doc t selector elements :
  candidates doc t selector = Return elements ->
  findElement doc t selector =
    match elements with
    | [] => Throw (CodedError ELEMENT_NOT_FOUND (NoElementFound selector))
    | [element] => Return element
    | _ :: _ :: _ =>
        Throw (CodedError ELEMENT_AMBIGUOUS
                 (MultipleElementsFound (List.length elements) selector))
    end.
Proof. unfold findElement. by intros ->. Qed.

Lemma findElement_returns doc t selector element :
  findElement doc t selector = Return element ->
  candidates doc t selector = Return [element].
Proof.
  unfold findElement.
  destruct (candidates doc t selector) as [[|e [|e' rest]]|]; try done.
  by intros [= ->].
Qed.

(** The candidates of the selectors by pattern and by role do not depend
    on the reference table. *)
Lemma candidates_css doc t css :
  candidates doc t (ByCss css) = querySelectorAll doc css.
Proof. reflexivity. Qed.

Lemma candidates_role doc t role name :
  candidates doc t (ByRole role name) = findByRole doc role name.
Proof. reflexivity. Qed.

Lemma findElement_by_ref doc t ref :
  findElement doc t (ByRef ref) = Throw WeakMap.notAFunction
  /\ candidates doc t (ByRef ref) = Throw WeakMap.notAFunction.
Proof. unfold findElement, candidates. by rewrite findElementByRef_throws. Qed.

(** The selector by reference: whatever the page and the table hold, and
    whether the token was minted or not, resolution ends in the TypeError
    of [elementRefMap.entries()]. It returns no element and fails with
    neither ELEMENT_NOT_FOUND nor ELEMENT_AMBIGUOUS. *)
Lemma findElement_by_ref_throws doc t ref :
  findElement doc t (ByRef ref) = Throw WeakMap.notAFunction
  /\ (forall element, findElement doc t (ByRef ref) <> Return element)
  /\ (forall m, findElement doc t (ByRef ref) <> Throw (CodedError ELEMENT_NOT_FOUND m))
  /\ (forall m, findElement doc t (ByRef ref) <> Throw (CodedError ELEMENT_AMBIGUOUS m)).
Proof.
  destruct (findElement_by_ref doc t ref) as [E _].
  rewrite E. repeat split; intros; discriminate.
Qed.

Lemma getElementRole_throws element e :
  getElementRole element = Throw e ->
  e = undefinedToLowerCase
  /\ interface element = HTMLInputElement /\ Dom.type element = None.
Proof.
  unfold getElementRole, getInputRole.
  destruct (truthyAttribute element (str "role")); [done|].
  destruct (interface element); try done.
  destruct (Dom.type element); [done|]. simpl. by intros [= <-].
Qed.

Lemma findByRoleAmong_throws nodes role name e :
  findByRoleAmong nodes role name = Throw e -> ActionFacts.isHostError e.
Proof.
  induction nodes as [|element rest IH]; [done|]. cbn [findByRoleAmong].
  destruct (getElementRole element) as [elementRole|e1] eqn:Erole.
  - cbn [andThen]. destruct (findByRoleAmong rest role name) as [found|e2]; [done|].
    cbn [andThen]. intros [= <-]. by apply IH.
  - cbn [andThen]. intros [= <-].
    apply getElementRole_throws in Erole as (-> & _). by eexists.
Qed.




(** C8. A select action whose selector resolves to an element that is not
    a [<select>] fails with INVALID_REQUEST and does nothing to the page:
    the state is the one before the call, and so is the value of the
    element. The content script reports the failure under that code. *)
Theorem select_rejects_non_select depth doc docAfter requestId selector v k sn
    (s : ContentState) element :
  findElement doc (refTable s) selector = Return element ->
  interface element <> HTMLSelectElement ->
  (forall r s', select doc selector v s = (r, s') ->
     r = Throw (CodedError INVALID_REQUEST SelectRequiresSelectElement)
     /\ s' = s
     /\ currentValue (effects s') element = currentValue (effects s) element)
  /\ (truthy v = true ->
      Content.handleMessage depth doc docAfter
        (Content.INTERACT requestId
           {| Content.action := str "select"; Content.element := Some selector;
              Content.text := k; Content.key := k; Content.value := Some v;
              Content.snapshot := sn |}) s
      = (Content.Failure requestId
           {| Content.code := INVALID_REQUEST;
              Content.message := Content.Coded SelectRequiresSelectElement |}, s)).
Proof.
  intros Hfound Hkind.
  assert (select doc selector v s
          = (Throw (CodedError INVALID_REQUEST SelectRequiresSelectElement), s)) as E.
  { unfold select, bind, resolve. rewrite Hfound.
    destruct (interface element); done. }
  split; [rewrite E; by intros r s' [= <- <-]|].
  intros Hv. unfold Content.handleMessage, Content.handleInteract, bind. simpl.
  unfold Content.missing. rewrite Hv. simpl. by rewrite E.
Qed.

End Resolution.

Section ResolutionExamples.

Import AriaSnapshot Interactions ResolutionFacts Samples.



Lemma select_rejects_non_select_witness :
  let s := {| refTable := initialRefTable; effects := [] |} in
  let params :=
    {| Content.action := str "select"; Content.element := Some (ByCss (str "button"));
       Content.text := None; Content.key := None;
       Content.value := Some (str "blue"); Content.snapshot := None |} in
  findElement pageBefore (refTable s) (ByCss (str "button")) = Return submit
  /\ interface submit <> HTMLSelectElement
  /\ (forall r s', select pageBefore (ByCss (str "button")) (str "blue") s = (r, s') ->
        r = Throw (CodedError INVALID_REQUEST SelectRequiresSelectElement)
        /\ s' = s
        /\ currentValue (effects s') submit = currentValue (effects s) submit)
  /\ (truthy (str "blue") = true ->
      Content.handleMessage 3 pageBefore pageBefore
        (Content.INTERACT (str "r1") params) s
      = (Content.Failure (str "r1")
           {| Content.code := INVALID_REQUEST;
              Content.message := Content.Coded SelectRequiresSelectElement |}, s)).
Proof.
  intros s params.
  split; [reflexivity|]. split; [discriminate|].
  apply (select_rejects_non_select 3 pageBefore pageBefore (str "r1")
           (ByCss (str "button")) (str "blue") None None s submit);
    [reflexivity | discriminate].
Defined.

End ResolutionExamples.

(** *** The content script *)

Section ContentScript.

Import AriaSnapshot Interactions.

(** C3, at the request [interact({action: "click", element: {ref: "e99"}})]:
    on every page and in every state of the content script the response
    carries INTERNAL_ERROR, with the message of the TypeError thrown by
    [elementRefMap.entries()], and not ELEMENT_NOT_FOUND. *)
Theorem interact_unknown_ref_internal_error depth doc docAfter requestId
    (s : ContentState) :
  Content.handleMessage depth doc docAfter
    (Content.INTERACT requestId
       {| Content.action := str "click"; Content.element := Some (ByRef (str "e99"));
          Content.text := None; Content.key := None; Content.value := None;
          Content.snapshot := None |}) s
  = (Content.Failure requestId
       {| Content.code := INTERNAL_ERROR;
          Content.message :=
            Content.Plain
              (str "elementRefMap.entries is not a function or its return value is not iterable") |},
     s).
Proof.
  assert (click doc (ByRef (str "e99")) s = (Throw WeakMap.notAFunction, s)) as E.
  { unfold click, bind, resolve.
    by destruct (findElement_by_ref doc (refTable s) (str "e99")) as [-> _]. }
  unfold Content.handleMessage, Content.handleInteract, bind.
  change (bool_decide (_ = str "click")) with true. cbv iota.
  cbn [Content.element Content.snapshot]. by rewrite E.
Qed.

(** C10. A required string parameter that is the empty string is treated
    as absent: an interact request with action [type] and an empty text,
    or with action [select] and an empty value, is rejected with the same error
    as the request without the parameter, and nothing is done to the page
    or to the reference table. *)
Theorem empty_string_parameter_is_missing depth doc docAfter selector k v t sn
    (s : ContentState) :
  let typeWith text :=
    {| Content.action := str "type"; Content.element := selector;
       Content.text := text; Content.key := k; Content.value := v;
       Content.snapshot := sn |} in
  let selectWith value :=
    {| Content.action := str "select"; Content.element := selector;
       Content.text := t; Content.key := k; Content.value := value;
       Content.snapshot := sn |} in
  Content.handleInteract depth doc docAfter (typeWith (Some [])) s
    = (Throw (PlainError (str "Element selector and text required for type action")), s)
  /\ Content.handleInteract depth doc docAfter (typeWith None) s
    = (Throw (PlainError (str "Element selector and text required for type action")), s)
  /\ Content.handleInteract depth doc docAfter (selectWith (Some [])) s
    = (Throw (PlainError (str "Element selector and value required for select action")), s)
  /\ Content.handleInteract depth doc docAfter (selectWith None) s
    = (Throw (PlainError (str "Element selector and value required for select action")), s).
Proof.
  intros typeWith selectWith.
  unfold Content.handleInteract, bind, typeWith, selectWith. simpl.
  destruct selector; done.
Qed.

End ContentScript.

(** *** The RPC session *)

Section Session.

Import Rpc RpcFacts.

Lemma settle_settled c c' o w :
  settled (settle c' o w) !! c =
    match settled w !! c with
    | Some x => Some x
    | None => if decide (c' = c) then Some (o, now w) else None
    end.
Proof.
  unfold settle. destruct (settled w !! c') as [x|] eqn:E.
  - destruct (settled w !! c) eqn:E'; [done|]. case_decide; congruence.
  - cbn. rewrite lookup_insert. case_decide.
    + subst. by rewrite E.
    + by destruct (settled w !! c).
Qed.

Lemma settle_frame c o w :
  _ws (settle c o w) = _ws w
  /\ pendingRequests (settle c o w) = pendingRequests w
  /\ now (settle c o w) = now w
  /\ timers (settle c o w) = timers w
  /\ nextCall (settle c o w) = nextCall w
  /\ listening (settle c o w) = listening w
  /\ closed (settle c o w) = closed w.
Proof. unfold settle. by destruct (settled w !! c). Qed.

Lemma settle_dom c c' o w x :
  settled (settle c' o w) !! c = Some x -> c = c' \/ settled w !! c = Some x.
Proof.
  rewrite settle_settled. destruct (settled w !! c); [auto|].
  case_decide; [auto|done].
Qed.

Lemma rejectAll_cons entry entries w :
  rejectAll (entry :: entries) w
  = settle entry.2 (Rejected connectionClosed) (clearTimeout entry.2 (rejectAll entries w)).
Proof. reflexivity. Qed.

Lemma rejectAll_frame entries w :
  _ws (rejectAll entries w) = _ws w
  /\ pendingRequests (rejectAll entries w) = pendingRequests w
  /\ now (rejectAll entries w) = now w
  /\ nextCall (rejectAll entries w) = nextCall w
  /\ listening (rejectAll entries w) = listening w
  /\ closed (rejectAll entries w) = closed w.
Proof.
  induction entries as [|entry entries IH]; [done|].
  rewrite rejectAll_cons.
  destruct (settle_frame entry.2 (Rejected connectionClosed)
              (clearTimeout entry.2 (rejectAll entries w)))
    as (-> & -> & -> & _ & -> & -> & ->).
  exact IH.
Qed.

Lemma rejectAll_timers entries w c tm :
  timers (rejectAll entries w) !! c = Some tm -> timers w !! c = Some tm.
Proof.
  induction entries as [|entry entries IH]; [done|].
  rewrite rejectAll_cons.
  destruct (settle_frame entry.2 (Rejected connectionClosed)
              (clearTimeout entry.2 (rejectAll entries w)))
    as (_ & _ & _ & -> & _).
  cbn. intros [_ H]%lookup_delete_Some. by apply IH.
Qed.

Lemma rejectAll_settled entries w c :
  settled (rejectAll entries w) !! c =
    match settled w !! c with
    | Some x => Some x
    | None => if bool_decide (c ∈ entries.*2)
              then Some (Rejected connectionClosed, now w) else None
    end.
Proof.
  induction entries as [|entry entries IH].
  - cbn. by destruct (settled w !! c).
  - rewrite rejectAll_cons, settle_settled. cbn [clearTimeout settled now].
    rewrite IH. destruct (rejectAll_frame entries w) as (_ & _ & -> & _).
    destruct (settled w !! c); [done|].
    rewrite fmap_cons.
    destruct (bool_decide (c ∈ entries.*2)) eqn:E.
    + apply bool_decide_eq_true in E.
      rewrite bool_decide_eq_true_2; [done|]. apply elem_of_cons; by right.
    + apply bool_decide_eq_false in E. case_decide as Hc.
      * rewrite bool_decide_eq_true_2; [done|]. subst. apply elem_of_cons; by left.
      * rewrite bool_decide_eq_false_2; [done|].
        intros [->|?]%elem_of_cons; done.
Qed.


(** **** Calls are numbered in order *)

Lemma wellFormed_initial : wellFormed initial.
Proof. repeat split; intros ? ?; cbn; by rewrite lookup_empty. Qed.

Lemma wellFormed_settle c o w :
  wellFormed w -> (c < nextCall w)%positive -> wellFormed (settle c o w).
Proof.
  intros (Ht & Hs & Hp) Hc.
  destruct (settle_frame c o w) as (_ & Ep & _ & Et & En & _).
  unfold wellFormed. rewrite Ep, Et, En. repeat split; [done| |done].
  intros c' x [->|H]%settle_dom; eauto.
Qed.

Lemma wellFormed_clearTimeout c w : wellFormed w -> wellFormed (clearTimeout c w).
Proof.
  intros (Ht & Hs & Hp). repeat split; cbn; [|done..].
  intros c' tm [_ H]%lookup_delete_Some. eauto.
Qed.

Lemma wellFormed_forget rid w :
  wellFormed w -> wellFormed (setPending (delete rid (pendingRequests w)) w).
Proof.
  intros (Ht & Hs & Hp). repeat split; cbn; [done..|].
  intros rid' c' [_ H]%lookup_delete_Some. eauto.
Qed.

Lemma wellFormed_rejectAll entries w :
  wellFormed w ->
  (forall entry, entry ∈ entries -> (entry.2 < nextCall w)%positive) ->
  wellFormed (rejectAll entries w).
Proof.
  intros Hw. induction entries as [|entry entries IH]; intros Hall; [done|].
  rewrite rejectAll_cons. apply wellFormed_settle.
  - apply wellFormed_clearTimeout, IH. intros e He. apply Hall, elem_of_cons. by right.
  - cbn. destruct (rejectAll_frame entries w) as (_ & _ & _ & -> & _).
    apply Hall, elem_of_cons. by left.
Qed.

Lemma wellFormed_handleResponse response w :
  wellFormed w -> wellFormed (handleResponse response w).
Proof.
  intros Hw. unfold handleResponse.
  destruct (pendingRequests w !! id response) as [pending|] eqn:E; [|done].
  assert (pending < nextCall w)%positive as Hlt by (destruct Hw as (_ & _ & Hp); eauto).
  destruct (error response);
    apply wellFormed_settle; try done;
    apply (wellFormed_forget _ (clearTimeout pending w)), wellFormed_clearTimeout, Hw.
Qed.

Lemma wellFormed_sendRpcRequest rid method params timeoutMs w :
  wellFormed w -> wellFormed (sendRpcRequest rid method params timeoutMs w).2.
Proof.
  intros (Ht & Hs & Hp).
  set (w1 := setPending (<[rid := nextCall w]> (pendingRequests w))
               (setTimer (nextCall w)
                  {| deadline := (now w + timerDelay (default 30000%Z timeoutMs))%Z;
                     timer_id := rid;
                     timer_timeoutMs := default 30000%Z timeoutMs |}
                  {| _ws := _ws w; pendingRequests := pendingRequests w; now := now w;
                     timers := timers w; settled := settled w;
                     nextCall := Pos.succ (nextCall w); listening := listening w;
                     closed := closed w; sent := sent w |})).
  assert (wellFormed w1) as Hw1.
  { repeat split; cbn.
    - intros c tm [[<- _]|[_ H]]%lookup_insert_Some; [lia|]. apply Ht in H. lia.
    - intros c o H. apply Hs in H. lia.
    - intros r c [[_ <-]|[_ H]]%lookup_insert_Some; [lia|]. apply Hp in H. lia. }
  unfold sendRpcRequest. fold w1. cbn [_ws setPending setTimer].
  destruct (_ws w) as [sock|]; cbn [snd].
  - unfold send. case_bool_decide; [done|]. exact Hw1.
  - apply wellFormed_settle; [|cbn; lia].
    apply (wellFormed_forget _ (clearTimeout (nextCall w) w1)), wellFormed_clearTimeout, Hw1.
Qed.

Lemma wellFormed_close w : wellFormed w -> wellFormed (close w).
Proof.
  intros Hw. unfold close. destruct (_ws w) as [sock|]; [|done].
  assert (wellFormed (rejectAll (map_to_list (pendingRequests w)) w)) as (Ht & Hs & _).
  { apply wellFormed_rejectAll; [done|]. intros [rid c] H%elem_of_map_to_list.
    destruct Hw as (_ & _ & Hp). eauto. }
  repeat split; cbn; [done..|]. intros rid c. by rewrite lookup_empty.
Qed.

Lemma wellFormed_step e w w' :
  step e w = Some w' -> wellFormed w -> wellFormed w'.
Proof.
  intros Hstep Hw. destruct e as [rid method params timeoutMs|sock data|sock| |c|t];
    cbn in Hstep.
  - injection Hstep as <-. by apply wellFormed_sendRpcRequest.
  - injection Hstep as <-. unfold onMessage. case_bool_decide; [|done].
    destruct data; [by apply wellFormed_handleResponse|done].
  - injection Hstep as <-. unfold onConnection. by destruct (_ws w).
  - injection Hstep as <-. by apply wellFormed_close.
  - destruct (timers w !! c) as [tm|] eqn:E; [|done].
    case_bool_decide; [|done]. injection Hstep as <-.
    unfold onTimeout. apply wellFormed_settle.
    + apply (wellFormed_forget _ (clearTimeout c w)), wellFormed_clearTimeout, Hw.
    + cbn. destruct Hw as (Ht & _). eauto.
  - destruct (_ && _); [|done]. by injection Hstep as <-.
Qed.

Lemma wellFormed_run events w w' :
  run events w = Some w' -> wellFormed w -> wellFormed w'.
Proof.
  revert w. induction events as [|e rest IH]; intros w; cbn.
  - by intros [= <-].
  - destruct (step e w) as [w1|] eqn:E; [|done].
    eauto using wellFormed_step.
Qed.


(** **** At most one connection is live *)








(** [Context.close] rejects every request that is pending and empties the
    table. *)
Lemma close_rejects_pending w sock rid c :
  _ws w = Some sock ->
  pendingRequests w !! rid = Some c ->
  settled w !! c = None ->
  settled (close w) !! c = Some (Rejected connectionClosed, now w)
  /\ pendingRequests (close w) = ∅.
Proof.
  intros Hs Hp Hn. unfold close. rewrite Hs. cbn. split; [|done].
  rewrite rejectAll_settled, Hn. rewrite bool_decide_eq_true_2; [done|].
  apply list_elem_of_fmap. exists (rid, c). split; [done|].
  by apply elem_of_map_to_list.
Qed.


End Session.

(** Read the fields of a session through [settle]. *)
Ltac settle_fields :=
  rewrite ?settle_settled;
  repeat match goal with
  | |- context [Rpc.settle ?c ?o ?x] =>
      let E1 := fresh in let E2 := fresh in let E3 := fresh in
      let E4 := fresh in let E5 := fresh in let E6 := fresh in
      let E7 := fresh in
      destruct (settle_frame c o x) as (E1 & E2 & E3 & E4 & E5 & E6 & E7);
      progress (rewrite ?E1, ?E2, ?E3, ?E4, ?E5, ?E6, ?E7);
      clear E1 E2 E3 E4 E5 E6 E7
  end.

(** **** A call that is never answered *)

Section Deadline.

Import Rpc RpcFacts.

Variables (rid : jsstring) (c : CallId) (d T : Z).

(** Whatever leaves the entry, the timer and the promise of the call alone
    leaves it tracked. *)
Lemma tracked_frame w w' :
  (nextCall w <= nextCall w')%positive ->
  now w' = now w ->
  pendingRequests w' !! rid = pendingRequests w !! rid ->
  (forall r, pendingRequests w' !! r = Some c -> pendingRequests w !! r = Some c) ->
  timers w' !! c = timers w !! c ->
  (forall c' tm, timers w' !! c' = Some tm -> timer_id tm = rid ->
                 timers w !! c' = Some tm) ->
  settled w' !! c = settled w !! c ->
  tracked rid c d T w -> tracked rid c d T w'.
Proof.
  intros Hn Hnow Hp Hpc Ht Htr Hs [Hlt Hcase]. split; [lia|].
  destruct Hcase as [(W1 & W2 & W3 & W4 & W5 & W6)|(O1 & O2 & O3 & O4 & O5 & O6)];
    [left|right]; unfold waiting, timedOut, unused;
    rewrite Hp, Ht, Hs, Hnow; repeat split; try done.
  - intros c' tm H1 H2. eauto.
  - intros r H. eauto.
  - intros c' tm H1 H2. by eapply O5; eauto.
  - intros r H. by eapply O6; eauto.
Qed.

(** A pending entry of another request belongs to another call. *)
Lemma tracked_other_entry w r p :
  tracked rid c d T w -> pendingRequests w !! r = Some p -> r <> rid -> p <> c.
Proof.
  intros [_ [(_ & _ & _ & _ & _ & W6)|(_ & _ & _ & _ & _ & O6)]] Hp Hr ->.
  - by apply Hr, W6.
  - by eapply O6.
Qed.

Lemma tracked_handleResponse response w :
  id response <> rid ->
  tracked rid c d T w -> tracked rid c d T (handleResponse response w).
Proof.
  intros Hne Htr. unfold handleResponse.
  destruct (pendingRequests w !! id response) as [p|] eqn:E; [|done].
  pose proof (tracked_other_entry _ _ _ Htr E Hne) as Hpc.
  eapply tracked_frame; [..|exact Htr];
    destruct (error response);
    settle_fields; cbn; try done; try lia.
  all: try (by rewrite lookup_delete_ne).
  all: try (intros r [_ H]%lookup_delete_Some; done).
  all: try (intros c' tm [_ H]%lookup_delete_Some _; done).
  all: destruct (settled w !! c); [done|]; by case_decide.
Qed.

Lemma tracked_sendRpcRequest rid' method params timeoutMs w :
  rid' <> rid ->
  tracked rid c d T w ->
  tracked rid c d T (sendRpcRequest rid' method params timeoutMs w).2.
Proof.
  intros Hne Htr. pose proof Htr as [Hlt _].
  unfold sendRpcRequest. cbn [_ws setPending setTimer].
  destruct (_ws w) as [sock|]; cbn [snd].
  - eapply tracked_frame; [..|exact Htr];
      unfold send; case_bool_decide; cbn; try done; try lia.
    all: try (by rewrite lookup_insert_ne).
    all: try (rewrite lookup_insert_ne by lia; done).
    all: try (intros r [[_ <-]|[_ Hold]]%lookup_insert_Some; [lia|done]).
    all: intros c' tm [[_ <-]|[_ Hold]]%lookup_insert_Some; cbn; done.
  - eapply tracked_frame; [..|exact Htr];
      settle_fields; cbn; try done; try lia.
    + rewrite lookup_delete_ne by done. by rewrite lookup_insert_ne.
    + intros r [_ [[_ <-]|[_ H]]%lookup_insert_Some]%lookup_delete_Some; [lia|done].
    + rewrite lookup_delete_ne by lia. rewrite lookup_insert_ne by lia. done.
    + intros c' tm [_ [[_ <-]|[_ H]]%lookup_insert_Some]%lookup_delete_Some; cbn; done.
    + destruct (settled w !! c); [done|]. case_decide; [lia|done].
Qed.

Lemma tracked_onConnection websocket w :
  tracked rid c d T w -> tracked rid c d T (onConnection websocket w).
Proof.
  intros Htr. eapply tracked_frame; [..|exact Htr];
    unfold onConnection; destruct (_ws w); cbn; try done; lia.
Qed.

Lemma tracked_timer c' tm w :
  timers w !! c' = Some tm ->
  (deadline tm <= now w)%Z ->
  tracked rid c d T w ->
  tracked rid c d T (onTimeout c' tm (clearTimeout c' w)).
Proof.
  intros Htm Hdue Htr. destruct (decide (c' = c)) as [->|Hc].
  - (* the timer of the call itself *)
    destruct Htr as [Hlt [(W1 & W2 & W3 & W4 & W5 & W6)|(_ & O2 & _)]];
      [|congruence].
    rewrite W2 in Htm. injection Htm as <-. cbn in Hdue.
    assert (now w = d) as Hnow by lia.
    split.
    { unfold onTimeout. settle_fields. done. }
    right. unfold timedOut, unused, onTimeout.
    settle_fields. cbn. rewrite W3, Hnow. rewrite decide_True by done.
    repeat split; try done; try lia.
    + by rewrite lookup_delete_eq.
    + by rewrite lookup_delete_eq.
    + intros c' tm [Hc' H]%lookup_delete_Some Hid. apply Hc'. symmetry. eauto.
    + intros r [Hr H]%lookup_delete_Some. apply Hr. symmetry. eauto.
  - (* the timer of another call *)
    assert (timer_id tm <> rid) as Hid.
    { destruct Htr as [_ [(_ & _ & _ & _ & W5 & _)|(_ & _ & _ & _ & O5 & _)]].
      - intros H. by apply Hc, (W5 _ tm).
      - by eapply O5. }
    eapply tracked_frame; [..|exact Htr]; unfold onTimeout;
      settle_fields; cbn; try done; try lia.
    + by rewrite lookup_delete_ne.
    + intros r [_ H]%lookup_delete_Some. done.
    + by rewrite lookup_delete_ne.
    + intros c'' tm' [_ H]%lookup_delete_Some _. done.
    + destruct (settled w !! c); [done|]. by case_decide.
Qed.

Lemma tracked_elapse t w :
  (now w <= t)%Z ->
  map_Forall (fun _ tm => (t <= deadline tm)%Z) (timers w) ->
  tracked rid c d T w -> tracked rid c d T (setNow t w).
Proof.
  intros Hnow Hall [Hlt Hcase]. split; [done|].
  destruct Hcase as [(W1 & W2 & W3 & W4 & W5 & W6)|(O1 & O2 & O3 & O4 & O5 & O6)];
    [left|right]; repeat split; cbn; try done.
  - apply (Hall _ _ W2).
  - lia.
Qed.

Lemma tracked_step e w w' :
  quiet rid e -> step e w = Some w' ->
  tracked rid c d T w -> tracked rid c d T w'.
Proof.
  intros Hq Hstep Htr.
  destruct e as [rid' method params timeoutMs|sock data|sock| |c'|t];
    cbn in Hstep, Hq.
  - injection Hstep as <-. by apply tracked_sendRpcRequest.
  - injection Hstep as <-. unfold onMessage. case_bool_decide; [|done].
    destruct data as [response|]; [|done]. by apply tracked_handleResponse.
  - injection Hstep as <-. by apply tracked_onConnection.
  - done.
  - destruct (timers w !! c') as [tm|] eqn:E; [|done].
    case_bool_decide; [|done]. injection Hstep as <-. by apply tracked_timer.
  - destruct (bool_decide (now w ≤ t)%Z) eqn:E1; [|done].
    destruct (bool_decide (map_Forall _ _)) eqn:E2; [|done].
    injection Hstep as <-.
    apply bool_decide_eq_true in E1, E2. by apply tracked_elapse.
Qed.

Lemma tracked_run events w w' :
  Forall (quiet rid) events -> run events w = Some w' ->
  tracked rid c d T w -> tracked rid c d T w'.
Proof.
  intros Hq. revert w. induction Hq as [|e rest He _ IH]; intros w; cbn.
  - by intros [= <-].
  - destruct (step e w) as [w1|] eqn:E; [|done].
    eauto using tracked_step.
Qed.

End Deadline.

Section Scenarios.

Import Rpc RpcFacts.

(** What holds right after a call on a connected session. *)
Lemma sendRpcRequest_tracked rid method params timeoutMs w sock :
  wellFormed w ->
  _ws w = Some sock ->
  unused rid w ->
  (1 <= default 30000%Z timeoutMs <= 2147483647)%Z ->
  (sendRpcRequest rid method params timeoutMs w).1 = nextCall w
  /\ tracked rid (nextCall w) (now w + default 30000%Z timeoutMs)
       (default 30000%Z timeoutMs)
       (sendRpcRequest rid method params timeoutMs w).2.
Proof.
  intros (Ht & Hs & Hp) Hws Hun Hrange.
  unfold sendRpcRequest. cbn [_ws setPending setTimer]. rewrite Hws. cbn [fst snd].
  split; [done|].
  assert (timerDelay (default 30000%Z timeoutMs) = default 30000%Z timeoutMs) as ->.
  { unfold timerDelay. by rewrite bool_decide_eq_true_2. }
  split; [unfold send; case_bool_decide; cbn; lia|].
  left. unfold waiting, send. case_bool_decide; cbn.
  all: repeat split; try (by rewrite lookup_insert_eq); try lia.
  all: try (destruct (settled w !! nextCall w) eqn:E; [apply Hs in E; lia|done]).
  all: try (intros c' tm [[-> _]|[_ Hold]]%lookup_insert_Some Hid;
            [done|by apply Hun in Hold]).
  all: intros r [[-> _]|[_ Hold]]%lookup_insert_Some; [done|apply Hp in Hold; lia].
Qed.

(** C6. A call on a connected session, with a timeout the timer of the host
    takes as it is (30000 ms when none is given), whose request id is given
    to no other call, whose remote side never answers and whose session
    is not closed: before the deadline the request is pending and its
    promise unsettled; the clock cannot pass the deadline without the timer
    firing, and then the promise is rejected, at the deadline, with the
    code TIMEOUT, and the id has left the pending table; the promise is
    never settled in another way or at another time; and a response with
    that id that arrives later leaves the session as it is. *)
Theorem call_times_out_at_deadline history w sock rid method params timeoutMs
    events w' :
  run history initial = Some w ->
  _ws w = Some sock ->
  sock ∉ closed w ->
  unused rid w ->
  (1 <= default 30000%Z timeoutMs <= 2147483647)%Z ->
  Forall (quiet rid) events ->
  run events (sendRpcRequest rid method params timeoutMs w).2 = Some w' ->
  let T := default 30000%Z timeoutMs in
  let c := (sendRpcRequest rid method params timeoutMs w).1 in
  let d := (now w + T)%Z in
  failure_code (timeoutFailure T) = Some (str "TIMEOUT")
  /\ ((now w' < d)%Z ->
      pendingRequests w' !! rid = Some c /\ settled w' !! c = None)
  /\ ((d < now w')%Z ->
      pendingRequests w' !! rid = None
      /\ settled w' !! c = Some (Rejected (timeoutFailure T), d))
  /\ (settled w' !! c = None
      \/ settled w' !! c = Some (Rejected (timeoutFailure T), d))
  /\ (settled w' !! c <> None ->
      pendingRequests w' !! rid = None
      /\ forall sock' response, id response = rid ->
           onMessage sock' (Some response) w' = w').
Proof.
  intros Hhist Hws _ Hun Hrange Hquiet Hrun T c d.
  assert (wellFormed w) as Hw
    by (eapply wellFormed_run; [exact Hhist | apply wellFormed_initial]).
  destruct (sendRpcRequest_tracked rid method params timeoutMs w sock Hw Hws Hun Hrange)
    as [Ec Htr].
  subst c. rewrite Ec.
  pose proof (tracked_run _ _ _ _ _ _ _ Hquiet Hrun Htr) as [_ Hcase].
  fold T in Hcase. fold d in Hcase.
  split; [reflexivity|].
  destruct Hcase as [(W1 & W2 & W3 & W4 & W5 & W6)|(O1 & O2 & O3 & O4 & O5 & O6)].
  - repeat split; try done; try lia; auto.
  - repeat split; try done; try lia; auto.
    intros sock' response <-. unfold onMessage, handleResponse. rewrite O1.
    by case_bool_decide.
Qed.

End Scenarios.

Section ScenarioExamples.

Import Rpc RpcFacts Samples.

Lemma call_times_out_at_deadline_witness :
  let events := [Elapse 30000%Z; TimerFires 1%positive; Elapse 45000%Z] in
  run [Connection 1%positive] initial = Some connected
  /\ _ws connected = Some 1%positive
  /\ (1%positive ∉ closed connected)
  /\ unused (str "a") connected
  /\ (1 <= default 30000%Z None <= 2147483647)%Z
  /\ Forall (quiet (str "a")) events
  /\ exists w',
       run events oneRequestPending = Some w'
       /\ failure_code (timeoutFailure 30000%Z) = Some (str "TIMEOUT")
       /\ ((now w' < 30000)%Z ->
           pendingRequests w' !! str "a" = Some 1%positive
           /\ settled w' !! 1%positive = None)
       /\ ((30000 < now w')%Z ->
           pendingRequests w' !! str "a" = None
           /\ settled w' !! 1%positive
              = Some (Rejected (timeoutFailure 30000%Z), 30000%Z))
       /\ (settled w' !! 1%positive = None
           \/ settled w' !! 1%positive
              = Some (Rejected (timeoutFailure 30000%Z), 30000%Z))
       /\ (settled w' !! 1%positive <> None ->
           pendingRequests w' !! str "a" = None
           /\ forall sock' response, id response = str "a" ->
                onMessage sock' (Some response) w' = w').
Proof.
  intros events.
  assert (unused (str "a") connected) as Hun by (intros c tm H; cbn in H; done).
  assert (Forall (quiet (str "a")) events) as Hq by (repeat constructor).
  assert (1%positive ∉ closed connected) as Hopen by (cbn; set_solver).
  split; [reflexivity|]. split; [reflexivity|]. split; [exact Hopen|].
  split; [exact Hun|]. split; [cbn; lia|]. split; [exact Hq|].
  eexists. split; [vm_compute; reflexivity|].
  apply (call_times_out_at_deadline [Connection 1%positive] connected 1%positive
           (str "a") (str "snapshot") (str "{}") None events);
    [reflexivity | reflexivity | exact Hopen | exact Hun | cbn; lia | exact Hq
    | vm_compute; reflexivity].
Defined.


End ScenarioExamples.

(** *** More on white space *)

Section WhiteSpaceShape.

Import AriaSnapshot.

Lemma endsClean_trimEnd s : endsClean (trimEnd s).
Proof.
  induction s as [|c rest IH]; simpl; [done|].
  destruct (trimEnd rest) as [|k kept] eqn:Ek.
  - destruct (isWhiteSpace c) eqn:E; simpl; done.
  - exact IH.
Qed.

Lemma inkOf_replaceWhiteSpaceRuns b s : inkOf (replaceWhiteSpaceRuns b s) = inkOf s.
Proof.
  revert b. induction s as [|c rest IH]; intros b; [done|].
  unfold inkOf in *. simpl. destruct (isWhiteSpace c) eqn:E; simpl.
  - destruct b; simpl; apply IH.
  - rewrite E. simpl. f_equal. apply IH.
Qed.

Lemma inkOf_trimStart s : inkOf (trimStart s) = inkOf s.
Proof.
  induction s as [|c rest IH]; [done|].
  unfold inkOf in *. simpl. destruct (isWhiteSpace c) eqn:E; simpl; [done|].
  by rewrite E.
Qed.

Lemma inkOf_trimEnd s : inkOf (trimEnd s) = inkOf s.
Proof.
  induction s as [|c rest IH]; [done|].
  unfold inkOf in *. simpl.
  destruct (trimEnd rest) as [|k kept] eqn:Ek; rewrite <- IH.
  - destruct (isWhiteSpace c) eqn:E; simpl; rewrite ?E; done.
  - simpl. done.
Qed.

(** X1. What [normalizeWhitespace] returns: its white space is single
    spaces between other code units, it neither starts nor ends with white
    space, and its other code units are those of the text, in order. *)
Theorem normalizeWhitespace_shape (s : jsstring) :
  collapsed false (normalizeWhitespace s)
  /\ startsClean (normalizeWhitespace s)
  /\ endsClean (normalizeWhitespace s)
  /\ inkOf (normalizeWhitespace s) = inkOf s.
Proof.
  unfold normalizeWhitespace, trim. repeat split.
  - apply collapsed_trimEnd.
    eapply collapsed_trimStart, replaceWhiteSpaceRuns_collapsed.
  - apply trimEnd_startsClean, trimStart_startsClean.
  - apply endsClean_trimEnd.
  - by rewrite inkOf_trimEnd, inkOf_trimStart, inkOf_replaceWhiteSpaceRuns.
Qed.

Lemma normalizeWhitespace_fixed s :
  normalizeWhitespace (normalizeWhitespace s) = normalizeWhitespace s.
Proof.
  unfold normalizeWhitespace.
  rewrite (replaceWhiteSpaceRuns_fixed false (trim _)); [apply trim_fixed|].
  unfold trim. apply collapsed_trimEnd.
  eapply collapsed_trimStart, replaceWhiteSpaceRuns_collapsed.
Qed.

Lemma splitWhiteSpaceFrom_head cur s :
  head (splitWhiteSpaceFrom false cur s) = Some (rev cur ++ firstSplitPiece s).
Proof.
  revert cur. induction s as [|c rest IH]; intros cur; simpl.
  - by rewrite app_nil_r.
  - destruct (isWhiteSpace c); simpl; [by rewrite app_nil_r|].
    rewrite IH. simpl. by rewrite <- app_assoc.
Qed.

Lemma firstSplitPiece_ink s : inkOf (firstSplitPiece s) = firstSplitPiece s.
Proof.
  induction s as [|c rest IH]; [done|]. simpl.
  destruct (isWhiteSpace c) eqn:E; [done|].
  unfold inkOf in *. simpl. rewrite E. simpl. by f_equal.
Qed.

Lemma inkOf_fixed_cons c rest :
  inkOf (c :: rest) = c :: rest -> isWhiteSpace c = false /\ inkOf rest = rest.
Proof.
  unfold inkOf. simpl. destruct (isWhiteSpace c) eqn:E; simpl.
  - intros H. apply (f_equal List.length) in H. simpl in H.
    pose proof (List.filter_length_le (fun c => negb (isWhiteSpace c)) rest). lia.
  - by intros [= ->].
Qed.

Lemma firstSplitPiece_fixed s : inkOf s = s -> firstSplitPiece s = s.
Proof.
  induction s as [|c rest IH]; [done|].
  intros [Hc Hrest]%inkOf_fixed_cons. simpl. rewrite Hc. f_equal. by apply IH.
Qed.

(** X2. The role the snapshot gives for an explicit role attribute is the
    first piece of the attribute split at white space, and holds no white
    space. It is the role the role selector sees for the element exactly
    when the attribute holds no white space. *)
Theorem explicit_role_is_first_piece element explicitRole :
  truthyAttribute element (str "role") = Some explicitRole ->
  exists role,
    getAriaRole element = Return (Some role)
    /\ head (splitWhiteSpace explicitRole) = Some role
    /\ inkOf role = role
    /\ (getAriaRole element = Interactions.getElementRole element
        <-> inkOf explicitRole = explicitRole).
Proof.
  intros H. exists (firstSplitPiece explicitRole).
  assert (getAriaRole element = Return (Some (firstSplitPiece explicitRole))) as Ea
    by (unfold getAriaRole; by rewrite H).
  assert (Interactions.getElementRole element = Return (Some explicitRole)) as Ei
    by (unfold Interactions.getElementRole; by rewrite H).
  split; [done|]. split; [apply (splitWhiteSpaceFrom_head [] explicitRole)|].
  split; [apply firstSplitPiece_ink|].
  rewrite Ea, Ei. split.
  - intros [= E]. rewrite <- E. apply firstSplitPiece_ink.
  - intros E. by rewrite firstSplitPiece_fixed.
Qed.

End WhiteSpaceShape.

(** *** The walker *)

Section Walker.

Import AriaSnapshot RefTableFacts WalkFacts.

Lemma maintains_ret J : maintains J (ret tt).
Proof. by intros s r s' [= <- <-]. Qed.

Lemma maintains_throw J e : maintains J (throw e).
Proof. by intros s r s' [= <- <-]. Qed.

Lemma maintains_bind J (m : Script WalkState unit) k :
  maintains J m -> (forall u, maintains J (k u)) -> maintains J (bind m k).
Proof.
  intros Hm Hk s r s' Hrun HJ. unfold bind in Hrun.
  destruct (m s) as [[u|e] s1] eqn:Em.
  - eapply Hk; [exact Hrun|]. by eapply Hm.
  - injection Hrun as <- <-. by eapply Hm.
Qed.

Lemma maintains_forEach J {A} (xs : list A) body :
  (forall x, maintains J (body x)) -> maintains J (forEach xs body).
Proof.
  intros Hbody. induction xs as [|x rest IH]; simpl.
  - apply maintains_ret.
  - apply maintains_bind; [apply Hbody | intros _; apply IH].
Qed.

(** What holds of the state of the walker before the walk and is kept by
    every row pushed for a visible element with an included role, holds
    after the walk. *)
Lemma maintains_walkAriaTree (J : WalkState -> Prop) doc :
  (forall element role,
     isHidden element = false ->
     getAriaRole element = Return (Some role) ->
     truthy role && shouldIncludeElement role element = true ->
     maintains J (expose doc element role)) ->
  forall depth node, maintains J (walkAriaTree depth doc node).
Proof.
  intros Hexpose depth.
  induction depth as [|depth IH]; intros node; simpl.
  - apply maintains_throw.
  - destruct node as [a | element a childNodes shadowRoot assignedNodes].
    + apply maintains_ret.
    + destruct (isHidden element) eqn:Ehid; [apply maintains_ret|].
      apply maintains_bind.
      { destruct (getAriaRole element) as [[role|]|e] eqn:Erole;
          [|apply maintains_ret|apply maintains_throw].
        destruct (truthy role && shouldIncludeElement role element) eqn:Einc;
          [by apply Hexpose | apply maintains_ret]. }
      intros _. apply maintains_bind.
      { apply maintains_forEach. intros child. apply IH. }
      intros _.
      destruct (truthyAttribute element (str "aria-owns")) as [owns|];
        [|apply maintains_ret].
      apply maintains_forEach. intros id.
      destruct (truthy id); [|apply maintains_ret].
      destruct (getElementById doc id) as [owned|]; [apply IH | apply maintains_ret].
Qed.

Lemma snapshotExposures_maintains (J : WalkState -> Prop) depth doc t xs t' :
  (forall element role,
     isHidden element = false ->
     getAriaRole element = Return (Some role) ->
     truthy role && shouldIncludeElement role element = true ->
     maintains J (expose doc element role)) ->
  J {| table := {| elementRefCounter := 0; elementRefMap := elementRefMap t |};
       pushed := [] |} ->
  snapshotExposures depth doc t = (Return xs, t') ->
  xs = [] \/ exists s, J s /\ pushed s = xs /\ table s = t'.
Proof.
  intros Hexpose HJ. unfold snapshotExposures.
  destruct (body doc) as [root|]; [|intros [= <- <-]; by left].
  destruct (walkAriaTree depth doc root _) as [[u|e] s] eqn:Ew; [|done].
  intros [= <- <-]. right. exists s. split; [|done].
  eapply maintains_walkAriaTree; eauto.
Qed.

Ltac name_step :=
  match goal with
  | |- Return _ = Return _ -> _ => intros [= <-]; eauto
  | |- Throw _ = Return _ -> _ => discriminate
  | |- Throw _ = Throw _ -> _ => intros [= <-]; eauto
  | |- Return _ = Throw _ -> _ => discriminate
  | |- andThen ?c _ = _ -> _ => destruct c as [?|?] eqn:?; simpl
  | |- match ?x with _ => _ end = _ -> _ => destruct x
  | |- exists n, Return _ = Return n => eauto
  | |- exists n, andThen ?c _ = Return n => destruct c as [?|?] eqn:?; simpl
  | |- exists n, match ?x with _ => _ end = Return n => destruct x
  end.

(** [getAccessibleName] fails only where [getAriaRole] does. *)
Lemma getAccessibleName_returns doc element role :
  getAriaRole element = Return role ->
  exists name, getAccessibleName doc element = Return name.
Proof.
  intros Hrole. unfold getAccessibleName. rewrite Hrole. cbv zeta.
  repeat name_step; discriminate.
Qed.

Lemma getAccessibleName_throws doc element e :
  getAccessibleName doc element = Throw e ->
  getAriaRole element = Throw e.
Proof.
  unfold getAccessibleName. cbv zeta. repeat name_step.
Qed.

Lemma getAccessibleName_normalized doc element name :
  getAccessibleName doc element = Return name ->
  exists text, name = normalizeWhitespace text.
Proof.
  unfold getAccessibleName. cbv zeta. repeat name_step.
Qed.

Lemma shouldIncludeElement_roles role element :
  shouldIncludeElement role element = true -> role ∈ includedRoles.
Proof.
  unfold shouldIncludeElement, includes.
  match goal with
  | |- context [bool_decide (role ∈ ?l1)] =>
      match goal with
      | |- context [if bool_decide (role ∈ l1) then true
                    else if bool_decide (role ∈ ?l2) then _ else _] =>
          change includedRoles with (l1 ++ l2 ++ [str "img"])
      end
  end.
  rewrite !elem_of_app.
  case_bool_decide; [by left|]. case_bool_decide; [by right; left|].
  case_bool_decide; [|done]. intros _. right. right. subst role.
  by apply list_elem_of_singleton.
Qed.

Lemma expose_rowFaithful doc element role :
  isHidden element = false ->
  getAriaRole element = Return (Some role) ->
  truthy role && shouldIncludeElement role element = true ->
  maintains (fun s => forall x, x ∈ pushed s -> rowFaithful doc x)
            (expose doc element role).
Proof.
  intros Hvis Hrole [Htr Hinc]%andb_true_iff s r s' Hrun HJ. unfold expose in Hrun.
  destruct (getOrCreateRef element (table s)) as [ref t].
  destruct (getAccessibleName doc element) as [name|e] eqn:En;
    injection Hrun as <- <-; simpl; [|done].
  intros x [Hx | ->%list_elem_of_singleton]%elem_of_app; [by apply HJ|].
  by repeat split.
Qed.

(** X3. Every row of a snapshot was made for a visible element, carries the
    role [getAriaRole] gives that element, which is one of the included
    roles, and the name [getAccessibleName] gives it, which is normalised
    white space already. *)
Theorem snapshot_rows_faithful depth doc t snap t' :
  generateAriaSnapshot depth doc t = (Return snap, t') ->
  exists xs,
    snapshotExposures depth doc t = (Return xs, t')
    /\ elements snap = row <$> xs
    /\ forall x, x ∈ xs ->
         isHidden (exposed x) = false
         /\ getAriaRole (exposed x) = Return (Some (role (row x)))
         /\ role (row x) ∈ includedRoles
         /\ getAccessibleName doc (exposed x) = Return (name (row x))
         /\ normalizeWhitespace (name (row x)) = name (row x).
Proof.
  intros Hgen.
  destruct (generateAriaSnapshot_exposures _ _ _ _ _ Hgen) as (xs & Es & Er).
  exists xs. split; [done|]. split; [done|]. intros x Hx.
  assert (rowFaithful doc x) as (Hvis & Hrole & Htr & Hinc & Hname).
  { destruct (snapshotExposures_maintains
                (fun s => forall x, x ∈ pushed s -> rowFaithful doc x)
                depth doc t xs t' (expose_rowFaithful doc)) as [->|(s & HJ & <- & _)];
      [intros x' Hx'; by apply elem_of_nil in Hx' | exact Es
      | by apply elem_of_nil in Hx | by apply HJ]. }
  repeat split; try done.
  - by eapply shouldIncludeElement_roles.
  - destruct (getAccessibleName_normalized _ _ _ Hname) as [text ->].
    apply normalizeWhitespace_fixed.
Qed.

(** X4. Asking for the reference of an element twice in a row gives the
    same token and changes nothing the second time, and no call touches
    the entry of another element. *)
Theorem getOrCreateRef_again element t :
  getOrCreateRef element (getOrCreateRef element t).2 = getOrCreateRef element t
  /\ forall other, handle other <> handle element ->
       elementRefMap (getOrCreateRef element t).2 !! handle other
       = elementRefMap t !! handle other.
Proof.
  unfold getOrCreateRef, WeakMap.get, WeakMap.set.
  destruct (elementRefMap t !! handle element) as [cached|] eqn:Hc;
    [destruct (truthy cached) eqn:Ht|]; simpl; rewrite ?Hc, ?Ht, ?lookup_insert_eq;
    simpl; (split; [done|]); try done;
    intros other Hother; by rewrite lookup_insert_ne.
Qed.

Lemma str_inj s1 s2 : str s1 = str s2 -> s1 = s2.
Proof.
  unfold str. intros H.
  rewrite <- (string_of_list_ascii_of_string s1), <- (string_of_list_ascii_of_string s2).
  f_equal. revert H. generalize (list_ascii_of_string s1) (list_ascii_of_string s2).
  induction l as [|a l IH]; intros [|b l']; simpl; try done.
  intros [= Hab Hl]. f_equal; [|by apply IH].
  by rewrite <- (ascii_N_embedding a), <- (ascii_N_embedding b), Hab.
Qed.

Lemma token_inj k1 k2 :
  str "e" ++ numberToString k1 = str "e" ++ numberToString k2 -> k1 = k2.
Proof.
  intros [= H]. apply str_inj in H. by apply (inj pretty) in H.
Qed.

Lemma tokensCounted_truthy t : tokensCounted t -> tokensTruthy t.
Proof. intros [Hk _] h r Hr. by destruct (Hk _ _ Hr) as (k & _ & ->). Qed.

Lemma getOrCreateRef_counted element t r t' :
  tokensCounted t ->
  getOrCreateRef element t = (r, t') ->
  tokensCounted t' /\ keeps t t'
  /\ elementRefMap t' !! handle element = Some r.
Proof.
  intros Ht Hg.
  destruct (getOrCreateRef_spec _ _ _ _ (tokensCounted_truthy _ Ht) Hg)
    as (_ & Hkeep & Hnew).
  split; [|done]. clear Hkeep Hnew. destruct Ht as [Hk Hinj].
  revert Hg. unfold getOrCreateRef, WeakMap.get, WeakMap.set.
  destruct (elementRefMap t !! handle element) as [cached|] eqn:Hc.
  { destruct (Hk _ _ Hc) as (k & _ & ->). simpl. by intros [= <- <-]. }
  intros [= <- <-]. split; simpl.
  - intros h r. rewrite lookup_insert. case_decide.
    + intros [= <-]. exists (elementRefCounter t + 1)%N. split; [lia|done].
    + intros Hr. destruct (Hk _ _ Hr) as (k & Hle & ->). exists k. split; [lia|done].
  - intros h1 h2 r. rewrite !lookup_insert. repeat case_decide; try congruence.
    + intros [= <-] Hr. destruct (Hk _ _ Hr) as (k & Hle & Hr').
      apply token_inj in Hr'. lia.
    + intros Hr [= <-]. destruct (Hk _ _ Hr) as (k & Hle & Hr').
      apply token_inj in Hr'. lia.
    + apply Hinj.
Qed.

Lemma expose_counted doc element role :
  maintains (fun s => tokensCounted (table s) /\ rowsCached s)
            (expose doc element role).
Proof.
  intros s r s' Hrun [Htok Hrows]. unfold expose in Hrun.
  destruct (getOrCreateRef element (table s)) as [ref t] eqn:Eg.
  destruct (getOrCreateRef_counted _ _ _ _ Htok Eg) as (Htok' & Hkeep & Hnew).
  destruct (getAccessibleName doc element) as [name|e];
    injection Hrun as <- <-; split; simpl; try done.
  - intros x [Hx | ->%list_elem_of_singleton]%elem_of_app; simpl; [|done].
    by apply Hkeep, Hrows.
  - intros x Hx. by apply Hkeep, Hrows.
Qed.

(** X5. In the first snapshot of a content script, and in any snapshot that
    starts from an empty cache, the rows of two different elements carry
    different tokens, and the rows of one element the same token. *)
Theorem first_snapshot_tokens_distinct depth doc t snap t' :
  elementRefMap t = ∅ ->
  generateAriaSnapshot depth doc t = (Return snap, t') ->
  exists xs,
    snapshotExposures depth doc t = (Return xs, t')
    /\ elements snap = row <$> xs
    /\ forall x1 x2, x1 ∈ xs -> x2 ∈ xs ->
         (ref (row x1) = ref (row x2)
          <-> handle (exposed x1) = handle (exposed x2)).
Proof.
  intros Hempty Hgen.
  destruct (generateAriaSnapshot_exposures _ _ _ _ _ Hgen) as (xs & Es & Er).
  exists xs. split; [done|]. split; [done|]. intros x1 x2 Hx1 Hx2.
  destruct (snapshotExposures_maintains
              (fun s => tokensCounted (table s) /\ rowsCached s)
              depth doc t xs t' (fun element role _ _ _ => expose_counted doc element role))
    as [->|(s & [[_ Hinj] Hrows] & <- & _)];
    [| exact Es | by apply elem_of_nil in Hx1 |].
  { simpl. rewrite Hempty. split; [split|].
    - intros h r. simpl. by rewrite lookup_empty.
    - intros h1 h2 r. simpl. by rewrite lookup_empty.
    - intros x Hx. by apply elem_of_nil in Hx. }
  pose proof (Hrows _ Hx1) as H1. pose proof (Hrows _ Hx2) as H2. split.
  - intros E. rewrite E in H1. by eapply Hinj.
  - intros E. rewrite E in H1. congruence.
Qed.

(** X6. Within one snapshot, the rows made for the same element, which
    [aria-owns] can visit more than once, carry the same token. *)
Theorem snapshot_rows_agree depth doc t snap t' :
  sessionTable t ->
  generateAriaSnapshot depth doc t = (Return snap, t') ->
  exists xs,
    snapshotExposures depth doc t = (Return xs, t')
    /\ elements snap = row <$> xs
    /\ forall x1 x2, x1 ∈ xs -> x2 ∈ xs ->
         handle (exposed x1) = handle (exposed x2) ->
         ref (row x1) = ref (row x2).
Proof.
  intros Hs Hgen.
  destruct (generateAriaSnapshot_exposures _ _ _ _ _ Hgen) as (xs & Es & Er).
  exists xs. split; [done|]. split; [done|]. intros x1 x2 Hx1 Hx2 Hsame.
  destruct (snapshotExposures_spec _ _ _ _ _ (sessionTable_tokensTruthy _ Hs) Es)
    as (_ & _ & Hrows).
  pose proof (Hrows _ eq_refl _ Hx1) as H1. pose proof (Hrows _ eq_refl _ Hx2) as H2.
  rewrite Hsame in H1. congruence.
Qed.

(** X7. A snapshot, whether it returns or throws, leaves every token of the
    cache with its element: no entry is dropped or overwritten. *)
Theorem snapshot_keeps_cache depth doc t r t' element token :
  sessionTable t ->
  generateAriaSnapshot depth doc t = (r, t') ->
  WeakMap.get (elementRefMap t) element = Some token ->
  WeakMap.get (elementRefMap t') element = Some token
  /\ getOrCreateRef element t' = (token, t').
Proof.
  intros Hs Hgen Hc. unfold WeakMap.get in *.
  assert (tokensTruthy t' /\ keeps t t') as [Ht' Hkeep].
  { unfold generateAriaSnapshot in Hgen.
    destruct (snapshotExposures depth doc t) as [[xs|e] t1] eqn:Es;
      injection Hgen as <- <-;
      destruct (snapshotExposures_spec _ _ _ _ _ (sessionTable_tokensTruthy _ Hs) Es)
        as (? & ? & _); done. }
  split; [by apply Hkeep|]. apply getOrCreateRef_cached; [done|]. by apply Hkeep.
Qed.

End Walker.

(** *** The stack of the walker *)

Section WalkerStack.

Import AriaSnapshot RefTableFacts WalkFacts.

Lemma expose_returns doc element role s :
  getAriaRole element = Return (Some role) ->
  exists s', expose doc element role s = (Return tt, s').
Proof.
  intros Hrole. unfold expose.
  destruct (getOrCreateRef element (table s)) as [ref t].
  destruct (getAccessibleName_returns doc _ _ Hrole) as [name ->]. eauto.
Qed.

(** X8. An element that is visible, has a role and lists its own id in
    [aria-owns] is walked again from inside its own walk: the walk cannot
    return, and ends in the RangeError of the call stack whatever room the
    stack has. *)
Theorem aria_owns_self_overflows doc element a role owns id rest depth s :
  let node := ElementNode element a [] None [] in
  isHidden element = false ->
  getAriaRole element = Return role ->
  truthyAttribute element (str "aria-owns") = Some owns ->
  splitWhiteSpace owns = id :: rest ->
  truthy id = true ->
  getElementById doc id = Some node ->
  exists s', walkAriaTree depth doc node s = (Throw stackOverflow, s').
Proof.
  intros node Hvis Hrole Howns Hsplit Hid Hself. revert s.
  induction depth as [|depth IH]; intros s; [by eexists|].
  cbn [walkAriaTree]. fold node. unfold node at 1.
  rewrite Hvis, Hrole, Howns, Hsplit.
  assert (getChildren element [] None [] = []) as ->.
  { unfold getChildren. rewrite andb_false_r. done. }
  assert (exists s1,
    (match role with
     | Some role =>
         if truthy role && shouldIncludeElement role element
         then expose doc element role else ret tt
     | None => ret tt
     end) s = (Return tt, s1)) as [s1 E1].
  { destruct role as [r|]; [|by eexists].
    destruct (truthy r && shouldIncludeElement r element); [|by eexists].
    by apply expose_returns. }
  unfold bind at 1. rewrite E1. unfold bind at 1. cbn [forEach ret].
  cbn [forEach]. unfold bind at 1. rewrite Hid, Hself.
  destruct (IH s1) as [s' ->]. eauto.
Qed.

Lemma ends_ret P : P (Return tt) -> ends P (ret tt).
Proof. by intros HP s r s' [= <- <-]. Qed.

Lemma ends_bind P (m : Script WalkState unit) k :
  ends P m -> (forall u, ends P (k u)) -> ends P (bind m k).
Proof.
  intros Hm Hk s r s' Hrun. unfold bind in Hrun.
  destruct (m s) as [[u|e] s1] eqn:Em.
  - by eapply Hk.
  - injection Hrun as <- <-. by eapply Hm.
Qed.

Lemma ends_forEach P {A} (xs : list A) body :
  P (Return tt) ->
  (forall x, x ∈ xs -> ends P (body x)) -> ends P (forEach xs body).
Proof.
  intros HP. induction xs as [|x rest IH]; intros Hbody; simpl.
  - by apply ends_ret.
  - apply ends_bind; [apply Hbody; by left | intros _; apply IH].
    intros y Hy. apply Hbody. by right.
Qed.




End WalkerStack.

(** *** Role selectors and error codes *)

Section RoleSelectors.

Import AriaSnapshot Interactions ActionFacts WalkFacts.

Lemma findByRoleAmong_filter nodes role name :
  (forall element, element ∈ nodes ->
     interface element = HTMLInputElement -> Dom.type element <> None) ->
  findByRoleAmong nodes role name
  = Return (List.filter (roleMatches role name) nodes).
Proof.
  induction nodes as [|element rest IH]; intros Htyped; [done|].
  cbn [findByRoleAmong List.filter]. unfold roleMatches at 1.
  rewrite IH by (intros x Hx; apply Htyped; by right).
  destruct (getElementRole element) as [elementRole|e] eqn:Erole; [done|].
  apply getElementRole_throws in Erole as (_ & Hi & Ht).
  destruct (Htyped element); [by left|done..].
Qed.

(** X10. On a page whose input elements have their [type] property, the
    candidates of a role selector are the elements under the body, the
    body included, whose role is the one asked for and, when a name is
    given, whose name is that name; they come in document order. *)
Theorem findByRole_is_filter doc root role name :
  body doc = Some root ->
  (forall element, element ∈ treeWalkerElements root ->
     interface element = HTMLInputElement -> Dom.type element <> None) ->
  findByRole doc role name
  = Return (List.filter (roleMatches role name) (treeWalkerElements root)).
Proof.
  intros Hbody Htyped. unfold findByRole. rewrite Hbody.
  by apply findByRoleAmong_filter.
Qed.

Lemma findByRoleAmong_name nodes role name found :
  findByRoleAmong nodes role None = Return found ->
  findByRoleAmong nodes role (Some name)
  = Return (List.filter (fun element => bool_decide (getAccessibleName element = name))
                        found).
Proof.
  revert found. induction nodes as [|element rest IH]; intros found.
  - by intros [= <-].
  - cbn [findByRoleAmong].
    destruct (getElementRole element) as [elementRole|e]; [|done]. cbn [andThen].
    destruct (findByRoleAmong rest role None) as [found'|e]; [|done]. cbn [andThen].
    rewrite (IH _ eq_refl). cbn [andThen]. intros [= <-].
    destruct (bool_decide (elementRole = Some role)); simpl; [|done].
    by destruct (bool_decide (getAccessibleName element = name)).
Qed.

(** X11. Giving a name to a role selector keeps, of the candidates the role
    alone has, those with that name: a role selector that resolves to an
    element still resolves to it when the name of the element is added. *)
Theorem role_selector_with_name doc t role target :
  findElement doc t (ByRole role None) = Return target ->
  findElement doc t (ByRole role (Some (getAccessibleName target))) = Return target
  /\ forall name, name <> getAccessibleName target ->
       findElement doc t (ByRole role (Some name))
       = Throw (CodedError ELEMENT_NOT_FOUND
                  (NoElementFound (ByRole role (Some name)))).
Proof.
  intros Hfound. apply findElement_returns in Hfound.
  rewrite candidates_role in Hfound. unfold findByRole in Hfound.
  destruct (body doc) as [root|] eqn:Hbody; [|done].
  assert (forall name,
            candidates doc t (ByRole role (Some name))
            = Return (List.filter
                        (fun element => bool_decide (getAccessibleName element = name))
                        [target])) as Hc.
  { intros name. rewrite candidates_role. unfold findByRole. rewrite Hbody.
    by apply findByRoleAmong_name. }
  split.
  - rewrite (findElement_of_candidates _ _ _ _ (Hc _)). simpl.
    by rewrite bool_decide_eq_true_2.
  - intros name Hname. rewrite (findElement_of_candidates _ _ _ _ (Hc _)). simpl.
    by rewrite bool_decide_eq_false_2.
Qed.

End RoleSelectors.

(** *** The executor and the content script, once more *)

Section Executor.

Import AriaSnapshot Interactions ActionFacts WalkFacts.

Lemma bind_run {S A B} (m : Script S A) (k : A -> Script S B) s :
  bind m k s = match m s with
               | (Return a, s') => k a s'
               | (Throw e, s') => (Throw e, s')
               end.
Proof. reflexivity. Qed.

Ltac run_action :=
  unfold bind, resolve, ensureVisible, waitForStability, perform, ret, throw;
  repeat match goal with
         | |- context [findElement ?d ?t ?sel] =>
             destruct (findElement d t sel) as [target|thrown] eqn:?
         | |- context [instanceofHTMLElement ?e] => destruct (instanceofHTMLElement e)
         | |- context [interface ?e] => destruct (interface e)
         | |- context [isContentEditable ?e] => destruct (isContentEditable e)
         end; simpl.

Ltac settle_action :=
  intros [= <- <-];
  first
    [ left; eexists; split; [reflexivity|]; split; [reflexivity|];
      first [eassumption | by eexists]
    | right; eexists _, _; split; [first [eassumption | reflexivity]|];
      split; [reflexivity|];
      split; [reflexivity|]; split;
      [simpl; rewrite <- ?app_assoc; simpl; first [reflexivity | symmetry; apply app_nil_r]
      | simpl; intros e He;
        repeat (apply elem_of_cons in He as [->|He]; [reflexivity|]);
        by apply elem_of_nil in He] ].

Lemma click_actedOn doc selector s r s' :
  click doc selector s = (r, s') -> actedOn doc selector s r s'.
Proof. unfold click. run_action; settle_action. Qed.

Lemma hover_actedOn doc selector s r s' :
  hover doc selector s = (r, s') -> actedOn doc selector s r s'.
Proof. unfold hover. run_action; settle_action. Qed.

Lemma type_outcome doc selector text s r s' :
  type doc selector text s = (r, s') ->
  actedOn doc selector s r s'
  \/ (exists e, r = Throw e /\ stoppedAtFileInput doc selector s e s').
Proof.
  unfold type, bind, resolve.
  destruct (findElement doc (refTable s) selector) as [target|thrown] eqn:Hfound;
    [|intros [= <- <-]; left; left; eauto].
  unfold assignValue.
  destruct (isFileInput target && truthy text) eqn:Efile.
  - apply andb_true_iff in Efile as [Efile _]. unfold isFileInput in Efile.
    intros Hrun. right. exists filenameOnly.
    assert (r = Throw filenameOnly
            /\ isFileInput target = true
            /\ refTable s' = refTable s
            /\ effects s' = effects s
                            ++ [ScrollIntoView (handle target); Focus (handle target)])
      as (? & ? & ? & ?); [|split; [done|]; by exists target].
    unfold isFileInput. revert Hrun.
    unfold ensureVisible, instanceofHTMLElement.
    destruct (interface target); try done. rewrite Efile.
    unfold bind, perform, throw. simpl. intros [= <- <-]. simpl.
    by rewrite <- app_assoc.
  - intros Hrun. left. revert Hrun. unfold actedOn. rewrite Hfound.
    unfold bind, ensureVisible, waitForStability, perform, ret.
    destruct (instanceofHTMLElement target), (interface target),
      (isContentEditable target); simpl; intros [= <- <-];
      right; eexists _, _; (split; [reflexivity|]); (split; [reflexivity|]);
      (split; [reflexivity|]);
      (split;
       [simpl; rewrite <- ?app_assoc; simpl;
        first [reflexivity | symmetry; apply app_nil_r]
       | simpl; intros e He;
         repeat (apply elem_of_cons in He as [->|He]; [reflexivity|]);
         by apply elem_of_nil in He]).
Qed.

Lemma select_outcome doc selector value s r s' :
  select doc selector value s = (r, s') ->
  actedOn doc selector s r s'
  \/ (exists target,
        findElement doc (refTable s) selector = Return target
        /\ interface target <> HTMLSelectElement
        /\ r = Throw (CodedError INVALID_REQUEST SelectRequiresSelectElement)
        /\ s' = s).
Proof.
  unfold select, bind, resolve.
  destruct (findElement doc (refTable s) selector) as [target|thrown] eqn:Hfound.
  - destruct (interface target) eqn:Hkind;
      try (intros [= <- <-]; right; exists target; by rewrite Hkind).
    intros Hrun. left. revert Hrun. unfold actedOn. rewrite Hfound.
    unfold bind, ensureVisible, instanceofHTMLElement. rewrite Hkind.
    unfold waitForStability, perform, ret. simpl. intros [= <- <-].
    right. eexists _, _. split; [reflexivity|]. split; [reflexivity|].
    split; [reflexivity|]. split; [simpl; rewrite <- ?app_assoc; reflexivity|].
    simpl. intros e He.
    repeat (apply elem_of_cons in He as [->|He]; [reflexivity|]).
    by apply elem_of_nil in He.
  - intros [= <- <-]. left. left. eauto.
Qed.

Lemma press_outcome doc key s r s' :
  press doc key s = (r, s') ->
  (exists e, r = Throw e /\ s' = s /\ isHostError e)
  \/ (exists target done,
        pressTarget doc = Some target
        /\ r = Return tt
        /\ refTable s' = refTable s
        /\ effects s' = effects s ++ done
        /\ forall e, e ∈ done -> targetOf e = handle target).
Proof.
  unfold press. fold (pressTarget doc).
  destruct (pressTarget doc) as [target|] eqn:?; run_action; settle_action.
Qed.

(** An interact request that asks for no snapshot: it throws, and then the
    state is as it was unless a type request stopped at a file input; or
    it succeeds, and then all it did was done to one element, the one
    [press] dispatches to or the one the selector resolved to. *)
Lemma handleInteract_cases depth doc docAfter params s r s' :
  Content.snapshot params <> Some true ->
  Content.handleInteract depth doc docAfter params s = (r, s') ->
  (exists e, r = Throw e
             /\ failureCause doc (refTable s) params e
             /\ (s' = s
                 \/ (Content.action params = str "type"
                     /\ exists selector,
                          Content.element params = Some selector
                          /\ stoppedAtFileInput doc selector s e s')))
  \/ (r = Return {| Content.success := true; Content.page := None |}
      /\ refTable s' = refTable s
      /\ exists target done,
           effects s' = effects s ++ done
           /\ (forall e, e ∈ done -> targetOf e = handle target)
           /\ ((Content.action params = str "press"
                /\ pressTarget doc = Some target)
               \/ (Content.action params <> str "press"
                   /\ exists selector,
                        Content.element params = Some selector
                        /\ findElement doc (refTable s) selector = Return target))).
Proof.
  intros Hflag. unfold Content.handleInteract. rewrite bind_run.
  set (Q := fun target =>
     (Content.action params = str "press" /\ pressTarget doc = Some target)
     \/ (Content.action params <> str "press"
         /\ exists selector,
              Content.element params = Some selector
              /\ findElement doc (refTable s) selector = Return target)).
  set (F := fun (r1 : Completion Thrown unit) (s1 : ContentState) =>
     exists e, r1 = Throw e
               /\ failureCause doc (refTable s) params e
               /\ (s1 = s
                   \/ (Content.action params = str "type"
                       /\ exists selector,
                            Content.element params = Some selector
                            /\ stoppedAtFileInput doc selector s e s1))).
  assert (forall (m : Script ContentState unit),
    (forall r1 s1, m s = (r1, s1) ->
       F r1 s1
       \/ (exists target done, Q target /\ r1 = Return tt /\ refTable s1 = refTable s
             /\ effects s1 = effects s ++ done
             /\ forall e, e ∈ done -> targetOf e = handle target)) ->
    match m s with
    | (Return a, s1) =>
        match Content.snapshot params with
        | Some true =>
            bind (Content.takeSnapshot depth docAfter)
              (fun snap => ret {| Content.success := true; Content.page := Some snap |})
        | _ => ret {| Content.success := true; Content.page := None |}
        end s1
    | (Throw e, s1) => (Throw e, s1)
    end = (r, s') ->
    (exists e, r = Throw e
               /\ failureCause doc (refTable s) params e
               /\ (s' = s
                   \/ (Content.action params = str "type"
                       /\ exists selector,
                            Content.element params = Some selector
                            /\ stoppedAtFileInput doc selector s e s')))
    \/ (r = Return {| Content.success := true; Content.page := None |}
        /\ refTable s' = refTable s
        /\ exists target done,
             effects s' = effects s ++ done
             /\ (forall e, e ∈ done -> targetOf e = handle target)
             /\ Q target)) as Hstep.
  { intros m Hm. destruct (m s) as [r1 s1] eqn:Em.
    destruct (Hm _ _ eq_refl)
      as [(e & -> & Hc & Hs)|(target & did & HQ & -> & Ht & He & Hd)].
    - intros [= <- <-]. left. exists e. eauto.
    - destruct (Content.snapshot params) as [[|]|]; [done|..];
        intros [= <- <-]; right; eauto 10. }
  assert (forall selector target,
            Content.action params <> str "press" ->
            Content.element params = Some selector ->
            findElement doc (refTable s) selector = Return target -> Q target)
    as Hsel by (intros; right; eauto).
  assert (forall selector r1 s1,
            Content.action params <> str "press" ->
            Content.element params = Some selector ->
            actedOn doc selector s r1 s1 ->
            F r1 s1
            \/ (exists target done, Q target /\ r1 = Return tt
                  /\ refTable s1 = refTable s
                  /\ effects s1 = effects s ++ done
                  /\ forall e, e ∈ done -> targetOf e = handle target)) as Hacted.
  { intros selector r1 s1 Hn He [(e & -> & -> & Hf)|(target & did & ? & ? & ? & ? & ?)].
    - left. exists e. split; [done|]. split; [left; eauto|by left].
    - right. exists target, did. split; [by eapply Hsel|done]. }
  assert (forall msg r1 s1,
            (Throw (PlainError msg), s) = (r1, s1) ->
            (exists e, r1 = Throw e
                       /\ failureCause doc (refTable s) params e
                       /\ (s1 = s
                           \/ (Content.action params = str "type"
                               /\ exists selector,
                                    Content.element params = Some selector
                                    /\ stoppedAtFileInput doc selector s e s1)))
            \/ (r1 = Return {| Content.success := true; Content.page := None |}
                /\ refTable s1 = refTable s
                /\ exists target done,
                     effects s1 = effects s ++ done
                     /\ (forall e, e ∈ done -> targetOf e = handle target)
                     /\ Q target)) as Hplain.
  { intros msg r1 s1 [= <- <-]. left. eexists. split; [done|].
    split; [right; by right|by left]. }
  case_bool_decide as Hclick;
    [|case_bool_decide as Htype;
      [|case_bool_decide as Hhover;
        [|case_bool_decide as Hselect; [|case_bool_decide as Hpress]]]].
  - destruct (Content.element params) as [selector|] eqn:Hel; [|apply Hplain].
    apply Hstep. intros r1 s1 Hrun. apply click_actedOn in Hrun.
    eapply Hacted; [|done..]. by rewrite Hclick.
  - destruct (Content.element params) as [selector|] eqn:Hel,
      (Content.missing (Content.text params)), (Content.text params) as [text|];
      try apply Hplain.
    apply Hstep. intros r1 s1 Hrun.
    apply type_outcome in Hrun as [Hrun|Hstop].
    + eapply Hacted; [|done..]. by rewrite Htype.
    + destruct Hstop as (e & -> & Hstop). left.
      pose proof Hstop as (target & _ & _ & He & _).
      exists e. split; [done|]. split; [right; right; by rewrite He|].
      right. split; [done|]. by exists selector.
  - destruct (Content.element params) as [selector|] eqn:Hel; [|apply Hplain].
    apply Hstep. intros r1 s1 Hrun. apply hover_actedOn in Hrun.
    eapply Hacted; [|done..]. by rewrite Hhover.
  - destruct (Content.element params) as [selector|] eqn:Hel,
      (Content.missing (Content.value params)), (Content.value params) as [value|];
      try apply Hplain.
    apply Hstep. intros r1 s1 Hrun.
    apply select_outcome in Hrun as [Hrun|(target & Hf & Hk & -> & ->)].
    + eapply Hacted; [|done..]. by rewrite Hselect.
    + left. eexists. split; [done|]. split; [|by left]. right. left. eauto 10.
  - destruct (Content.missing (Content.key params)), (Content.key params) as [key|];
      try apply Hplain.
    apply Hstep. intros r1 s1 Hrun.
    apply press_outcome in Hrun
      as [(e & -> & -> & [m ->])|(target & did & ? & ? & ? & ? & ?)].
    + left. eexists. split; [done|]. split; [right; by right|by left].
    + right. exists target, did. split; [|done]. by left.
  - apply Hplain.
Qed.

(** X12. An interact request that asks for no snapshot never touches the
    reference table and only adds to what was done to the page. When it
    fails it has written nothing: no value or text was assigned, no event
    dispatched, no native click made. It has then done nothing at all,
    unless it is a type request whose selector resolved to a file input:
    that element was scrolled to and focused before the assignment of its
    value threw. *)
Theorem interact_failure_writes_nothing depth doc docAfter params s r s' :
  Content.snapshot params <> Some true ->
  Content.handleInteract depth doc docAfter params s = (r, s') ->
  refTable s' = refTable s
  /\ exists did,
       effects s' = effects s ++ did
       /\ forall e, r = Throw e ->
            (forall x, x ∈ did -> writes x = false)
            /\ (did = []
                \/ (Content.action params = str "type"
                    /\ e = filenameOnly
                    /\ exists selector target,
                         Content.element params = Some selector
                         /\ findElement doc (refTable s) selector = Return target
                         /\ isFileInput target = true
                         /\ did = [ScrollIntoView (handle target);
                                   Focus (handle target)])).
Proof.
  intros Hflag Hrun.
  destruct (handleInteract_cases _ _ _ _ _ _ _ Hflag Hrun)
    as [(e & -> & _ & [-> | (Ha & selector & Hel & target & Hf & Hfile & -> & Ht & He)])
       |(-> & Ht & target & did & He & _)].
  - split; [done|]. exists []. split; [by rewrite app_nil_r|].
    intros e' _. split; [by intros x Hx%elem_of_nil|by left].
  - split; [done|]. eexists. split; [exact He|].
    intros e' [= <-]. split.
    + intros x Hx. repeat (apply elem_of_cons in Hx as [->|Hx]; [reflexivity|]).
      by apply elem_of_nil in Hx.
    + right. split; [done|]. split; [done|]. by exists selector, target.
  - split; [done|]. exists did. split; [done|]. by intros e [=].
Qed.

(** X13. All that a successful interact request does to the page, it does
    to one element: the focused element, or the body when none is
    focused, for [press]; the element its selector resolved to for the
    other actions. *)
Theorem interact_acts_on_one_element depth doc docAfter params s result s' :
  Content.snapshot params <> Some true ->
  Content.handleInteract depth doc docAfter params s = (Return result, s') ->
  exists target done,
    effects s' = effects s ++ done
    /\ (forall e, e ∈ done -> targetOf e = handle target)
    /\ ((Content.action params = str "press" /\ pressTarget doc = Some target)
        \/ (Content.action params <> str "press"
            /\ exists selector,
                 Content.element params = Some selector
                 /\ findElement doc (refTable s) selector = Return target)).
Proof.
  intros Hflag Hrun.
  destruct (handleInteract_cases _ _ _ _ _ _ _ Hflag Hrun)
    as [(e & He & _)|(_ & _ & target & did & H)]; [done|].
  by exists target, did.
Qed.


(** X15. An interact request with the snapshot flag answers as the same
    request without the flag followed by a snapshot request on the page
    the action left: when the action fails, with that failure and no
    snapshot taken; when the snapshot fails, with the failure of the
    snapshot, although the action was done. *)
Theorem interact_then_snapshot depth doc docAfter requestId params s :
  Content.handleMessage depth doc docAfter
    (Content.INTERACT requestId (withSnapshot params (Some true))) s
  = match Content.handleMessage depth doc docAfter
            (Content.INTERACT requestId (withSnapshot params None)) s with
    | (Content.Success _ _, s1) =>
        match Content.handleMessage depth docAfter docAfter
                (Content.SNAPSHOT requestId) s1 with
        | (Content.Success _ (Content.SnapshotResult snap), s2) =>
            (Content.Success requestId
               (Content.InteractionResult
                  {| Content.success := true; Content.page := Some snap |}), s2)
        | other => other
        end
    | failure => failure
    end.
Proof.
  unfold Content.handleMessage, Content.handleInteract, withSnapshot.
  cbn [Content.action Content.element Content.text Content.key Content.value
       Content.snapshot].
  rewrite !bind_run.
  match goal with |- context [match ?m s with _ => _ end] => destruct (m s) as [[u|e] s1] end;
    [|reflexivity].
  cbn [ret]. rewrite bind_run.
  destruct (Content.takeSnapshot depth docAfter s1) as [[snap|e] s2]; reflexivity.
Qed.

(** X16. A snapshot request on a page whose body is visible and has neither
    a role attribute nor the property [type], as the body of most pages,
    is answered with INTERNAL_ERROR: the classifier reads
    [type.toLowerCase()] of the body. No row is produced and the counter
    is left at zero. *)
Theorem snapshot_request_plain_body depth doc docAfter requestId element a childNodes
    shadowRoot assignedNodes (s : ContentState) :
  body doc = Some (ElementNode element a childNodes shadowRoot assignedNodes) ->
  isHidden element = false ->
  truthyAttribute element (str "role") = None ->
  Dom.type element = None ->
  Content.handleMessage (S depth) doc docAfter (Content.SNAPSHOT requestId) s
  = (Content.Failure requestId
       {| Content.code := INTERNAL_ERROR;
          Content.message :=
            Content.Plain
              (str "Cannot read properties of undefined (reading 'toLowerCase')") |},
     {| refTable := {| elementRefCounter := 0;
                       elementRefMap := elementRefMap (refTable s) |};
        effects := effects s |}).
Proof.
  intros Hbody Hvis Hrole Htype.
  unfold Content.handleMessage, Content.takeSnapshot.
  by rewrite (generateAriaSnapshot_plain_body depth doc _ _ _ _ _ _ Hbody Hvis Hrole Htype).
Qed.

Lemma findElement_throws doc t selector e :
  hostThrowsOnly doc ->
  findElement doc t selector = Throw e ->
  resolutionFailure doc t selector e.
Proof.
  intros Hhost. unfold findElement.
  destruct (candidates doc t selector) as [[|e1 [|e2 rest]]|thrown] eqn:Hc;
    try done; intros [= <-].
  - by left.
  - right. left. exists (e1 :: e2 :: rest). split; [done|]. split; [done|]. simpl. lia.
  - right. right. destruct selector as [ref|css|role name]; simpl in Hc.
    + injection Hc as <-. by eexists.
    + by eapply Hhost.
    + unfold findByRole in Hc. destruct (body doc); [|injection Hc as <-; by eexists].
      by eapply findByRoleAmong_throws.
Qed.

Lemma walkAriaTree_throws depth doc node :
  ends (fun r => r = Return tt \/ r = Throw undefinedToLowerCase
                 \/ r = Throw stackOverflow)
       (walkAriaTree depth doc node).
Proof.
  revert node. induction depth as [|depth IH]; intros node.
  { intros s r s' [= <- <-]. right. by right. }
  destruct node as [a | element a childNodes shadowRoot assignedNodes];
    cbn [walkAriaTree]; [by apply ends_ret; left|].
  destruct (isHidden element); [by apply ends_ret; left|].
  apply ends_bind.
  { destruct (getAriaRole element) as [[role|]|e] eqn:Erole.
    - destruct (truthy role && shouldIncludeElement role element);
        [|by apply ends_ret; left].
      intros s r s' Hrun. destruct (expose_returns doc _ _ s Erole) as [s1 E1].
      rewrite E1 in Hrun. injection Hrun as <- _. by left.
    - by apply ends_ret; left.
    - intros s r s' [= <- _]. right. left. f_equal.
      unfold getAriaRole in Erole.
      destruct (truthyAttribute element (str "role")); [done|].
      unfold AriaSnapshot.getInputRole in Erole.
      destruct (Dom.type element); [done|].
      by injection Erole as <-. }
  intros _. apply ends_bind.
  { apply ends_forEach; [by left|]. intros child _. apply IH. }
  intros _. destruct (truthyAttribute element (str "aria-owns")) as [owns|];
    [|by apply ends_ret; left].
  apply ends_forEach; [by left|]. intros id _.
  destruct (truthy id); [|by apply ends_ret; left].
  destruct (getElementById doc id); [apply IH | by apply ends_ret; left].
Qed.

Lemma generateAriaSnapshot_throws depth doc t e t' :
  generateAriaSnapshot depth doc t = (Throw e, t') ->
  e = undefinedToLowerCase \/ e = stackOverflow.
Proof.
  unfold generateAriaSnapshot, snapshotExposures.
  destruct (body doc) as [root|]; [|done].
  destruct (walkAriaTree depth doc root _) as [[u|e1] s1] eqn:Ew; [done|].
  intros [= <- _].
  destruct (walkAriaTree_throws _ _ _ _ _ _ Ew) as [|[[= ->]|[= ->]]]; auto.
  done.
Qed.


Lemma handleInteract_flag depth doc docAfter params s :
  Content.handleInteract depth doc docAfter params s
  = match Content.handleInteract depth doc docAfter (withSnapshot params None) s with
    | (Return _, s1) =>
        match Content.snapshot params with
        | Some true =>
            bind (Content.takeSnapshot depth docAfter)
              (fun snap => ret {| Content.success := true; Content.page := Some snap |})
              s1
        | _ => (Return {| Content.success := true; Content.page := None |}, s1)
        end
    | (Throw e, s1) => (Throw e, s1)
    end.
Proof.
  unfold Content.handleInteract, withSnapshot.
  cbn [Content.action Content.element Content.text Content.key Content.value
       Content.snapshot].
  rewrite !bind_run.
  match goal with |- context [match ?m s with _ => _ end] => destruct (m s) as [[u|e] s1] end;
    [|reflexivity].
  cbn [ret]. by destruct (Content.snapshot params) as [[|]|].
Qed.

(** X18. The code of a failed interact request tells what went wrong, on a
    page whose selector engine throws only exceptions of its own:
    ELEMENT_NOT_FOUND, that the selector had no candidate;
    ELEMENT_AMBIGUOUS, that it had several; INVALID_REQUEST, that a select
    request resolved to an element that is no [<select>]. Every other
    failure carries INTERNAL_ERROR. *)
Theorem interact_error_code_names_cause depth doc docAfter requestId params s
    requestId' info s' :
  hostThrowsOnly doc ->
  Content.handleMessage depth doc docAfter (Content.INTERACT requestId params) s
  = (Content.Failure requestId' info, s') ->
  requestId' = requestId
  /\ codeCause doc (refTable s) params (Content.code info).
Proof.
  intros Hhost. unfold Content.handleMessage.
  destruct (Content.handleInteract depth doc docAfter params s) as [[res|e] s1] eqn:Hrun;
    [done|].
  intros [= <- <- <-]. split; [done|].
  rewrite handleInteract_flag in Hrun.
  destruct (Content.handleInteract depth doc docAfter (withSnapshot params None) s)
    as [[res|e1] s2] eqn:Hact.
  - destruct (Content.snapshot params) as [[|]|]; try done.
    rewrite bind_run in Hrun. unfold Content.takeSnapshot in Hrun.
    destruct (generateAriaSnapshot depth docAfter (refTable s2)) as [[snap|e2] t] eqn:Hgen;
      [done|].
    injection Hrun as <- _.
    destruct (generateAriaSnapshot_throws _ _ _ _ _ Hgen) as [-> | ->]; exact I.
  - injection Hrun as <- _.
    assert (Content.snapshot (withSnapshot params None) <> Some true) as Hflag by done.
    destruct (handleInteract_cases _ _ _ _ _ _ _ Hflag Hact)
      as [(e' & [= <-] & Hcause & _)|(? & _)]; [|done].
    destruct Hcause as [(selector & Hel & Hf)|[(Hsel & -> & Hrest)|Hun]].
    + destruct (findElement_throws _ _ _ _ Hhost Hf)
        as [[-> Hc]|[(found & -> & Hc & Hlen)|[m ->]]]; simpl; eauto.
    + simpl. eauto.
    + destruct e1; [done|exact I..].
Qed.

End Executor.

(** *** More on the RPC session *)

Section SessionMore.

Import Rpc RpcFacts SessionFacts.

Lemma settle_sent c o w : sent (settle c o w) = sent w.
Proof. unfold settle. by destruct (settled w !! c). Qed.

(** [handleResponse], field by field, when the id is pending. *)
Lemma handleResponse_pending response w c :
  pendingRequests w !! id response = Some c ->
  let w' := handleResponse response w in
  _ws w' = _ws w
  /\ pendingRequests w' = delete (id response) (pendingRequests w)
  /\ now w' = now w
  /\ timers w' = delete c (timers w)
  /\ nextCall w' = nextCall w
  /\ listening w' = listening w
  /\ closed w' = closed w
  /\ sent w' = sent w
  /\ forall c', settled w' !! c' =
       match settled w !! c' with
       | Some x => Some x
       | None => if decide (c = c') then Some (outcomeOf response, now w) else None
       end.
Proof.
  intros Hp. unfold handleResponse, outcomeOf. rewrite Hp.
  destruct (error response) as [e|];
    (repeat split; [settle_fields; reflexivity ..| |]);
    [by rewrite settle_sent| |by rewrite settle_sent|];
    intros c'; by rewrite settle_settled.
Qed.

Lemma handleResponse_unknown response w :
  pendingRequests w !! id response = None -> handleResponse response w = w.
Proof. unfold handleResponse. by intros ->. Qed.

(** X19. A response is handled once: after a response for an id was
    handled, another response with that id arriving on the same socket
    changes nothing. *)
Theorem duplicate_response_is_ignored sock response response' w :
  id response' = id response ->
  onMessage sock (Some response') (onMessage sock (Some response) w)
  = onMessage sock (Some response) w.
Proof.
  intros Hid. unfold onMessage.
  destruct (bool_decide (sock ∈ listening w)) eqn:Hl.
  - destruct (pendingRequests w !! id response) as [c|] eqn:Hp.
    + destruct (handleResponse_pending _ _ _ Hp) as (_ & Hp' & _ & _ & _ & Hl' & _).
      rewrite Hl', Hl. apply handleResponse_unknown.
      rewrite Hp', Hid. apply lookup_delete_eq.
    + rewrite (handleResponse_unknown _ _ Hp), Hl.
      apply handleResponse_unknown. by rewrite Hid.
  - by rewrite Hl.
Qed.

(** X20. A response settles the call that is pending under its id, with
    its result or its error, clears the timer of that call and removes
    the entry; it leaves every other entry, timer and promise alone, and
    sends nothing. *)
Theorem response_settles_its_call response w c :
  pendingRequests w !! id response = Some c ->
  settled w !! c = None ->
  let w' := handleResponse response w in
  settled w' !! c = Some (outcomeOf response, now w)
  /\ timers w' !! c = None
  /\ pendingRequests w' !! id response = None
  /\ (forall rid, rid <> id response ->
        pendingRequests w' !! rid = pendingRequests w !! rid)
  /\ (forall c', c' <> c ->
        timers w' !! c' = timers w !! c' /\ settled w' !! c' = settled w !! c')
  /\ sent w' = sent w.
Proof.
  intros Hp Hs w'.
  destruct (handleResponse_pending _ _ _ Hp)
    as (_ & Hp' & _ & Ht' & _ & _ & _ & Hsent & Hs').
  fold w' in Hp', Ht', Hsent, Hs'. repeat split.
  - rewrite Hs', Hs. by rewrite decide_True.
  - rewrite Ht'. apply lookup_delete_eq.
  - rewrite Hp'. apply lookup_delete_eq.
  - intros rid Hrid. rewrite Hp'. by apply lookup_delete_ne.
  - rewrite Ht'. by apply lookup_delete_ne.
  - rewrite Hs'. destruct (settled w !! c'); [done|]. by rewrite decide_False.
  - done.
Qed.

(** [sendRpcRequest], field by field. *)
Lemma sendRpcRequest_fields rid method params timeoutMs w :
  let T := default 30000%Z timeoutMs in
  let c := nextCall w in
  let tm := {| deadline := (now w + timerDelay T)%Z; timer_id := rid;
               timer_timeoutMs := T |} in
  let w' := (sendRpcRequest rid method params timeoutMs w).2 in
  (sendRpcRequest rid method params timeoutMs w).1 = c
  /\ nextCall w' = Pos.succ c
  /\ now w' = now w
  /\ _ws w' = _ws w
  /\ match _ws w with
     | Some sock =>
         timers w' = <[c := tm]> (timers w)
         /\ settled w' = settled w
         /\ pendingRequests w' = <[rid := c]> (pendingRequests w)
         /\ sent w' = (if bool_decide (sock ∈ closed w) then sent w
                       else sent w ++ [(sock, {| request_id := rid; method := method;
                                                 params := params |})])
     | None =>
         timers w' = delete c (<[c := tm]> (timers w))
         /\ (forall c', settled w' !! c' =
               match settled w !! c' with
               | Some x => Some x
               | None =>
                   if decide (c = c')
                   then Some (Rejected {| failure_message := noConnectionMessage;
                                          failure_code := None |}, now w)
                   else None
               end)
         /\ pendingRequests w' = delete rid (<[rid := c]> (pendingRequests w))
         /\ sent w' = sent w
     end.
Proof.
  intros T c tm w'. subst w'. unfold sendRpcRequest. fold T. fold c. cbn [_ws setPending setTimer].
  destruct (_ws w) as [sock|] eqn:Hws; cbn [fst snd].
  - unfold send.
    cbn [closed setPending setTimer _ws pendingRequests timers now settled nextCall
         listening sent].
    destruct (bool_decide (sock ∈ closed w)); cbn; by rewrite ?Hws.
  - repeat split;
      first [ intros c'; rewrite settle_settled; reflexivity
            | rewrite settle_sent; reflexivity
            | settle_fields; reflexivity ].
Qed.

(** X21. A call made while no connection was ever accepted is rejected at
    once with the no-connection message: its timer is cleared, its entry
    removed, and nothing is sent. *)
Theorem call_without_connection_is_rejected rid method params timeoutMs w :
  wellFormed w ->
  _ws w = None ->
  let c := (sendRpcRequest rid method params timeoutMs w).1 in
  let w' := (sendRpcRequest rid method params timeoutMs w).2 in
  settled w' !! c
  = Some (Rejected {| failure_message := noConnectionMessage;
                      failure_code := None |}, now w)
  /\ timers w' !! c = None
  /\ pendingRequests w' !! rid = None
  /\ sent w' = sent w.
Proof.
  intros (Ht & Hs & Hp) Hws c w'.
  destruct (sendRpcRequest_fields rid method params timeoutMs w)
    as (Hc & _ & _ & _ & H). rewrite Hws in H.
  destruct H as (Ht' & Hs' & Hp' & Hsent). fold w' in Ht', Hs', Hp', Hsent.
  subst c. rewrite Hc. repeat split.
  - rewrite Hs'. destruct (settled w !! nextCall w) as [x|] eqn:E.
    + apply Hs in E. lia.
    + by rewrite decide_True.
  - rewrite Ht'. apply lookup_delete_eq.
  - rewrite Hp'. apply lookup_delete_eq.
  - done.
Qed.

(** X22. [Context.close] leaves the closed socket in place, so the session
    still counts as connected: a call made after it is not rejected, its
    request leaves no socket, and the call stays pending with its timer
    set. When its id is given to no other call and its timeout is one the
    timer takes as it is, then as long as no response carries its id and
    the context is not closed again, the call is settled by its timeout
    and by nothing else: its promise is open until the deadline and
    rejected with the time-out error at the deadline. *)
Theorem call_after_close_is_lost rid method params timeoutMs w sock :
  wellFormed w ->
  _ws w = Some sock ->
  let w1 := close w in
  let c := (sendRpcRequest rid method params timeoutMs w1).1 in
  let w2 := (sendRpcRequest rid method params timeoutMs w1).2 in
  let T := default 30000%Z timeoutMs in
  hasWs w1 = true
  /\ sent w2 = sent w
  /\ pendingRequests w2 !! rid = Some c
  /\ settled w2 !! c = None
  /\ timers w2 !! c
     = Some {| deadline := (now w + timerDelay T)%Z;
               timer_id := rid;
               timer_timeoutMs := T |}
  /\ (unused rid w ->
      (1 <= T <= 2147483647)%Z ->
      forall events w3,
        Forall (quiet rid) events ->
        run events w2 = Some w3 ->
        ((now w3 < now w + T)%Z ->
         pendingRequests w3 !! rid = Some c /\ settled w3 !! c = None)
        /\ ((now w + T < now w3)%Z ->
            pendingRequests w3 !! rid = None
            /\ settled w3 !! c = Some (Rejected (timeoutFailure T), (now w + T)%Z))
        /\ (settled w3 !! c = None
            \/ settled w3 !! c
               = Some (Rejected (timeoutFailure T), (now w + T)%Z))).
Proof.
  intros Hw Hws w1 c w2 T.
  assert (_ws w1 = Some sock /\ sock ∈ closed w1 /\ sent w1 = sent w /\ now w1 = now w)
    as (Hws1 & Hcl & Hsent1 & Hnow1).
  { unfold w1, close. rewrite Hws. cbn.
    destruct (rejectAll_frame (map_to_list (pendingRequests w)) w)
      as (-> & _ & -> & _ & _ & ->).
    split; [done|]. split; [set_solver|]. split; [|done].
    generalize (map_to_list (pendingRequests w)). intros entries.
    induction entries as [|entry entries IH]; [done|].
    rewrite rejectAll_cons, settle_sent. exact IH. }
  pose proof (wellFormed_close _ Hw) as Hw1. fold w1 in Hw1.
  pose proof Hw1 as (_ & Hs1 & _).
  destruct (sendRpcRequest_fields rid method params timeoutMs w1)
    as (Hc & _ & _ & _ & H). rewrite Hws1 in H.
  destruct H as (Ht' & Hs' & Hp' & Hsent). fold w2 in Ht', Hs', Hp', Hsent.
  subst c. rewrite Hc.
  split; [unfold hasWs; by rewrite Hws1|].
  split; [rewrite Hsent, bool_decide_eq_true_2; done|].
  split; [rewrite Hp'; apply lookup_insert_eq|].
  split.
  { rewrite Hs'. destruct (settled w1 !! nextCall w1) as [x|] eqn:E; [|done].
    apply Hs1 in E. lia. }
  split; [rewrite Ht', Hnow1; apply lookup_insert_eq|].
  intros Hun Hrange events w3 Hquiet Hrun.
  assert (unused rid w1) as Hun1.
  { intros c' tm Htm. apply (Hun c' tm). revert Htm. unfold w1, close. rewrite Hws.
    cbn [closeSocket setPending timers]. apply rejectAll_timers. }
  destruct (sendRpcRequest_tracked rid method params timeoutMs w1 sock Hw1 Hws1 Hun1 Hrange)
    as [_ Htr].
  fold w2 in Htr. fold T in Htr. rewrite Hnow1 in Htr.
  pose proof (tracked_run _ _ _ _ _ _ _ Hquiet Hrun Htr) as [_ Hcase].
  destruct Hcase as [(W1 & W2 & W3 & W4 & W5 & W6)|(O1 & O2 & O3 & O4 & O5 & O6)].
  - repeat split; try done; try lia; auto.
  - repeat split; try done; try lia; auto.
Qed.

Lemma rejectAll_sent entries w : sent (rejectAll entries w) = sent w.
Proof.
  induction entries as [|entry entries IH]; [done|].
  by rewrite rejectAll_cons, settle_sent.
Qed.

Lemma rejectAll_timers_lookup entries w c :
  timers (rejectAll entries w) !! c
  = if bool_decide (c ∈ entries.*2) then None else timers w !! c.
Proof.
  induction entries as [|entry entries IH]; [done|].
  rewrite rejectAll_cons. settle_fields. cbn [clearTimeout timers]. rewrite fmap_cons.
  destruct (decide (entry.2 = c)) as [<-|Hne].
  - rewrite lookup_delete_eq, bool_decide_eq_true_2; [done|]. apply elem_of_cons; by left.
  - rewrite lookup_delete_ne, IH by done.
    destruct (bool_decide (c ∈ entries.*2)) eqn:E.
    + apply bool_decide_eq_true in E.
      rewrite bool_decide_eq_true_2; [done|]. apply elem_of_cons; by right.
    + apply bool_decide_eq_false in E.
      rewrite bool_decide_eq_false_2; [done|]. intros [->|?]%elem_of_cons; done.
Qed.

(** X23. [Context.close] empties the table of pending requests, clears the
    timer of each and rejects each of them with [Connection closed], and
    closes the socket; calls that were not pending keep their timer and
    their outcome. The socket stays in place as the current one. *)
Theorem close_settles_all_pending w sock :
  _ws w = Some sock ->
  pendingRequests (close w) = ∅
  /\ sock ∈ closed (close w)
  /\ _ws (close w) = Some sock
  /\ (forall rid c, pendingRequests w !! rid = Some c ->
        timers (close w) !! c = None
        /\ (settled w !! c = None ->
            settled (close w) !! c = Some (Rejected connectionClosed, now w)))
  /\ (forall c, (forall rid, pendingRequests w !! rid <> Some c) ->
        timers (close w) !! c = timers w !! c
        /\ settled (close w) !! c = settled w !! c).
Proof.
  intros Hws. unfold close. rewrite Hws.
  cbn [closeSocket setPending pendingRequests closed _ws timers settled].
  destruct (rejectAll_frame (map_to_list (pendingRequests w)) w)
    as (-> & _ & _ & _ & _ & ->).
  split; [done|]. split; [set_solver|]. split; [done|]. split.
  - intros rid c Hp.
    assert (c ∈ (map_to_list (pendingRequests w)).*2) as Hin.
    { apply list_elem_of_fmap. exists (rid, c). split; [done|].
      by apply elem_of_map_to_list. }
    rewrite rejectAll_timers_lookup, rejectAll_settled.
    rewrite !bool_decide_eq_true_2 by done. split; [done|]. by intros ->.
  - intros c Hnot.
    assert (c ∉ (map_to_list (pendingRequests w)).*2) as Hin.
    { intros ([rid c'] & -> & Hin)%list_elem_of_fmap.
      apply elem_of_map_to_list in Hin. by eapply Hnot. }
    rewrite rejectAll_timers_lookup, rejectAll_settled.
    rewrite !bool_decide_eq_false_2 by done. split; [done|].
    by destruct (settled w !! c).
Qed.

Lemma step_settled e w w' c o :
  step e w = Some w' ->
  settled w !! c = Some o -> settled w' !! c = Some o.
Proof.
  intros Hstep Hs. destruct e as [rid method params timeoutMs|sock data|websocket| |c'|t];
    cbn [step] in Hstep.
  - injection Hstep as <-.
    destruct (sendRpcRequest_fields rid method params timeoutMs w) as (_ & _ & _ & _ & H).
    destruct (_ws w).
    + destruct H as (_ & -> & _). done.
    + destruct H as (_ & -> & _). by rewrite Hs.
  - injection Hstep as <-. unfold onMessage.
    destruct (bool_decide (sock ∈ listening w)); [|done].
    destruct data as [response|]; [|done].
    destruct (pendingRequests w !! id response) as [p|] eqn:Hp.
    + destruct (handleResponse_pending _ _ _ Hp) as (_ & _ & _ & _ & _ & _ & _ & _ & ->).
      by rewrite Hs.
    + by rewrite handleResponse_unknown.
  - injection Hstep as <-. unfold onConnection. by destruct (_ws w).
  - injection Hstep as <-. unfold close. destruct (_ws w); [|done].
    cbn [closeSocket setPending settled]. by rewrite rejectAll_settled, Hs.
  - destruct (timers w !! c') as [tm|]; [|done].
    destruct (bool_decide (deadline tm ≤ now w)%Z); [|done].
    injection Hstep as <-. unfold onTimeout. rewrite settle_settled.
    cbn [setPending clearTimeout settled]. by rewrite Hs.
  - destruct (_ && _); [|done]. by injection Hstep as <-.
Qed.

(** X24. A promise settles once: the outcome a call has, and the time it
    got it, stay the same whatever happens to the session afterwards, be
    it a late response, its timer, or the close of the session. *)
Theorem settlement_is_final events w w' c o :
  run events w = Some w' ->
  settled w !! c = Some o ->
  settled w' !! c = Some o.
Proof.
  revert w. induction events as [|e events IH]; intros w; cbn [run].
  - by intros [= <-].
  - destruct (step e w) as [w1|] eqn:Hstep; [|done].
    intros Hrun Hs. apply (IH w1 Hrun). by eapply step_settled.
Qed.

(** X25. When the timer of a call has fired, a response that arrives for
    the id of that call is ignored: the session stays as the timer left
    it. *)
Theorem response_after_timeout_is_ignored w w' c tm sock response :
  timers w !! c = Some tm ->
  id response = timer_id tm ->
  step (TimerFires c) w = Some w' ->
  settled w !! c = None ->
  settled w' !! c = Some (Rejected (timeoutFailure (timer_timeoutMs tm)), now w)
  /\ step (Message sock (Some response)) w' = Some w'.
Proof.
  intros Htm Hid Hstep Hs. cbn [step] in *. rewrite Htm in Hstep.
  destruct (bool_decide (deadline tm ≤ now w)%Z); [|done].
  injection Hstep as <-. split.
  - unfold onTimeout. rewrite settle_settled.
    cbn [setPending clearTimeout settled now]. rewrite Hs. by rewrite decide_True.
  - f_equal. unfold onMessage. destruct (bool_decide _); [|done].
    apply handleResponse_unknown. unfold onTimeout. settle_fields.
    cbn [setPending pendingRequests]. rewrite Hid. apply lookup_delete_eq.
Qed.

Lemma accounted_finish p o w w' :
  accounted w ->
  nextCall w' = nextCall w ->
  now w' = now w ->
  timers w' = delete p (timers w) ->
  (forall c, settled w' !! c =
     match settled w !! c with
     | Some x => Some x
     | None => if decide (p = c) then Some (o, now w) else None
     end) ->
  accounted w'.
Proof.
  intros Ha Hn Hnow Ht Hs c Hc. rewrite Hn in Hc.
  rewrite Hs, Ht, Hnow.
  destruct (Ha c Hc) as [(Hs0 & tm & Htm & Hd)|((o0 & Hs0) & Ht0)]; rewrite Hs0.
  - destruct (decide (p = c)) as [->|Hne].
    + right. split; [eauto|]. apply lookup_delete_eq.
    + left. split; [done|]. exists tm. by rewrite lookup_delete_ne.
  - right. split; [eauto|].
    destruct (decide (p = c)) as [->|Hne];
      [apply lookup_delete_eq | by rewrite lookup_delete_ne].
Qed.

Lemma accounted_rejectAll entries w : accounted w -> accounted (rejectAll entries w).
Proof.
  intros Ha. induction entries as [|entry entries IH]; [done|].
  rewrite rejectAll_cons.
  eapply (accounted_finish entry.2 (Rejected connectionClosed)); [exact IH|..];
    settle_fields; try reflexivity.
  intros c. by rewrite settle_settled.
Qed.

Lemma accounted_same w w' :
  accounted w ->
  nextCall w' = nextCall w -> now w' = now w ->
  timers w' = timers w -> settled w' = settled w ->
  accounted w'.
Proof. intros Ha Hn Hnow Ht Hs c. rewrite Hn, Hnow, Ht, Hs. apply Ha. Qed.

Lemma timerDelay_positive ms : (1 <= timerDelay ms)%Z.
Proof. unfold timerDelay. case_bool_decide; lia. Qed.

Lemma accounted_step e w w' :
  wellFormed w -> accounted w -> step e w = Some w' -> accounted w'.
Proof.
  intros (Hwt & Hws & _) Ha Hstep.
  destruct e as [rid method params timeoutMs|sock data|websocket| |c'|t];
    cbn [step] in Hstep.
  - injection Hstep as <-.
    destruct (sendRpcRequest_fields rid method params timeoutMs w)
      as (_ & Hn & Hnow & _ & H).
    pose proof (timerDelay_positive (default 30000%Z timeoutMs)) as Hd.
    assert (settled w !! nextCall w = None) as Hfresh.
    { destruct (settled w !! nextCall w) as [x|] eqn:E; [|done]. apply Hws in E. lia. }
    intros c Hc. rewrite Hn in Hc. rewrite Hnow.
    destruct (decide (c = nextCall w)) as [->|Hne].
    + destruct (_ws w).
      * destruct H as (-> & -> & _). left. split; [done|].
        eexists. rewrite lookup_insert_eq. split; [done|]. cbn. lia.
      * destruct H as (-> & -> & _). right. rewrite Hfresh, decide_True by done.
        split; [eauto|]. apply lookup_delete_eq.
    + assert (c < nextCall w)%positive as Hlt by lia.
      assert (timers (sendRpcRequest rid method params timeoutMs w).2 !! c = timers w !! c
              /\ settled (sendRpcRequest rid method params timeoutMs w).2 !! c
                 = settled w !! c) as [-> ->]; [|by apply Ha].
      destruct (_ws w).
      * destruct H as (-> & -> & _). by rewrite lookup_insert_ne.
      * destruct H as (-> & -> & _). rewrite lookup_delete_ne, lookup_insert_ne by done.
        split; [done|]. destruct (settled w !! c); [done|]. by rewrite decide_False.
  - injection Hstep as <-. unfold onMessage.
    destruct (bool_decide (sock ∈ listening w)); [|done].
    destruct data as [response|]; [|done].
    destruct (pendingRequests w !! id response) as [p|] eqn:Hp.
    + destruct (handleResponse_pending _ _ _ Hp)
        as (_ & _ & Hnow & Ht & Hn & _ & _ & _ & Hs).
      by eapply accounted_finish.
    + by rewrite handleResponse_unknown.
  - injection Hstep as <-. unfold onConnection.
    destruct (_ws w); by eapply accounted_same.
  - injection Hstep as <-. unfold close. destruct (_ws w); [|done].
    eapply accounted_same; [by apply (accounted_rejectAll (map_to_list (pendingRequests w)))|..];
      reflexivity.
  - destruct (timers w !! c') as [tm|]; [|done].
    destruct (bool_decide (deadline tm ≤ now w)%Z); [|done].
    injection Hstep as <-. unfold onTimeout.
    eapply (accounted_finish c'); [exact Ha|..]; settle_fields; try reflexivity.
    intros c. by rewrite settle_settled.
  - destruct (bool_decide (now w ≤ t)%Z) eqn:E1; [|done].
    destruct (bool_decide (map_Forall _ (timers w))) eqn:E2; [|done].
    injection Hstep as <-. apply bool_decide_eq_true in E2.
    intros c Hc. cbn [setNow settled timers now nextCall] in *.
    destruct (Ha c Hc) as [(Hs0 & tm & Htm & Hd)|H]; [|by right].
    left. split; [done|]. exists tm. split; [done|]. by apply (E2 c tm).
Qed.


(** X26. No call is left hanging: in every state a session reaches, each
    call made so far either has its promise settled and its timer gone, or
    has its promise open and its timer set, due no earlier than now. *)
Theorem no_call_left_hanging events w :
  run events initial = Some w ->
  accounted w.
Proof.
  assert (forall w0, wellFormed w0 -> accounted w0 -> run events w0 = Some w ->
                     accounted w) as H.
  { induction events as [|e events IH]; intros w0 Hw Ha; cbn [run].
    - by intros [= <-].
    - destruct (step e w0) as [w1|] eqn:Hstep; [|done].
      apply IH; [by eapply wellFormed_step | by eapply accounted_step]. }
  apply H; [apply wellFormed_initial|].
  intros c Hc. cbn in Hc. lia.
Qed.

End SessionMore.

(** *** A connection that replaces another *)

Section Supersede.

Import Rpc RpcFacts SessionFacts.







End Supersede.

(** *** The states of an element *)

Section States.

Import AriaSnapshot AriaStates StateFacts.

(** X27. Each state of an element is reported only for the roles it is
    meant for: checked states for the five checkable roles, disabled,
    expanded and selected for the roles of their lists, pressed for
    buttons, a level for headings and tree items; focused only for the
    active element, and expanded or collapsed only from an explicit
    [aria-expanded]. *)
Theorem states_fit_the_role doc element control role token :
  token ∈ getAriaStates doc element control role ->
  warranted doc element role token.
Proof.
  unfold getAriaStates, includes. rewrite !elem_of_app.
  intros [H|[H|[H|[H|[H|[H|H]]]]]]; revert H.
  - destruct (activeElement doc) as [active|] eqn:Ea; [|by intros ?%elem_of_nil].
    case_bool_decide; [|by intros ?%elem_of_nil].
    intros ->%list_elem_of_singleton. by exists active.
  - case_bool_decide; [|by intros ?%elem_of_nil].
    destruct (getCheckedState element control) as [[| |]|];
      [intros ->%list_elem_of_singleton; done ..|by intros ?%elem_of_nil].
  - case_bool_decide; [|by intros ?%elem_of_nil].
    destruct (getDisabledState element control);
      [intros ->%list_elem_of_singleton; done|by intros ?%elem_of_nil].
  - case_bool_decide; [|by intros ?%elem_of_nil]. cbv zeta.
    case_bool_decide; [intros ->%list_elem_of_singleton; done|].
    case_bool_decide; [intros ->%list_elem_of_singleton; done|].
    by intros ?%elem_of_nil.
  - case_bool_decide; [|by intros ?%elem_of_nil]. cbv zeta.
    repeat (case_bool_decide; [intros ->%list_elem_of_singleton; done|]).
    by intros ?%elem_of_nil.
  - case_bool_decide; [|by intros ?%elem_of_nil].
    destruct (getSelectedState element control);
      [intros ->%list_elem_of_singleton; done|by intros ?%elem_of_nil].
  - destruct (bool_decide (role = str "heading") || bool_decide (role = str "treeitem"))
      eqn:E; [|by intros ?%elem_of_nil].
    destruct (getLevel element) as [level|] eqn:El; [|by intros ?%elem_of_nil].
    intros ->%list_elem_of_singleton. split; [|done].
    apply orb_true_iff in E as [E|E]; apply bool_decide_eq_true in E; auto.
Qed.

(** X28. The states of an element hold at most one token of each kind, in
    the fixed order focus, checked, disabled, expanded, pressed, selected,
    level: an element is never reported both checked and unchecked, or
    both expanded and collapsed. *)
Theorem states_one_of_each_kind doc element control role :
  kind <$> getAriaStates doc element control role `sublist_of` [0; 1; 2; 3; 4; 5; 6].
Proof.
  unfold getAriaStates. rewrite !fmap_app.
  change [0; 1; 2; 3; 4; 5; 6] with ([0] ++ [1] ++ [2] ++ [3] ++ [4] ++ [5] ++ [6]).
  repeat apply sublist_app.
  - destruct (activeElement doc); [|apply sublist_nil_l].
    case_bool_decide; [done|apply sublist_nil_l].
  - destruct (includes checkedRoles role); [|apply sublist_nil_l].
    destruct (getCheckedState element control) as [[| |]|]; try done. apply sublist_nil_l.
  - destruct (includes disabledRoles role); [|apply sublist_nil_l].
    destruct (getDisabledState element control); [done|apply sublist_nil_l].
  - destruct (includes expandedRoles role); [|apply sublist_nil_l]. cbv zeta.
    repeat (case_bool_decide; [done|]). apply sublist_nil_l.
  - case_bool_decide; [|apply sublist_nil_l]. cbv zeta.
    repeat (case_bool_decide; [done|]). apply sublist_nil_l.
  - destruct (includes selectedRoles role); [|apply sublist_nil_l].
    destruct (getSelectedState element control); [done|apply sublist_nil_l].
  - destruct (_ || _); [|apply sublist_nil_l].
    destruct (getLevel element); [done|apply sublist_nil_l].
Qed.

End States.

(** *** The console buffer *)

Section Console.

Import ConsoleCapture.

Lemma lastN_short {A} n (l : list A) : List.length l <= n -> lastN n l = l.
Proof. intros H. unfold lastN. by replace (List.length l - n) with 0 by lia. Qed.

Lemma lastN_length {A} n (l : list A) : List.length (lastN n l) <= n.
Proof. unfold lastN. rewrite length_drop. lia. Qed.

Lemma lastN_app {A} n (l r : list A) :
  lastN n (lastN n l ++ r) = lastN n (l ++ r).
Proof.
  destruct (decide (List.length l <= n)) as [Hle|Hgt].
  { by rewrite (lastN_short n l). }
  unfold lastN. rewrite !length_app, length_drop.
  set (k := List.length l - n).
  destruct (decide (List.length r <= n)) as [Hr|Hr].
  - rewrite !drop_app_le by (rewrite ?length_drop; lia).
    rewrite drop_drop. do 2 f_equal. lia.
  - rewrite !drop_app_ge by (rewrite ?length_drop; lia).
    rewrite length_drop. f_equal. lia.
Qed.

Lemma captureLog_lastN level args now logs :
  List.length logs <= MAX_LOGS ->
  captureLog level args now logs
  = lastN MAX_LOGS
      (logs ++ [{| level := level; ts := now;
                   text := joinSpace (renderArg <$> args) |}]).
Proof.
  intros Hle. unfold captureLog. cbv zeta.
  set (log := {| level := level; ts := now; text := _ |}).
  destruct (Nat.ltb_spec MAX_LOGS (List.length (logs ++ [log]))) as [Hgt|Hfit].
  - unfold lastN. rewrite length_app in *. cbn [List.length] in *.
    replace (List.length logs + 1 - MAX_LOGS) with 1 by lia.
    by destruct (logs ++ [log]).
  - by rewrite lastN_short.
Qed.

(** X29. The buffer holds the last thousand messages: after any run of
    console calls it is the thousand newest entries of what it held
    followed by one entry for each call, in the order of the calls, or all
    of them when they are fewer; after a clear it holds the newest
    entries made since. *)
Theorem buffer_keeps_last_entries calls logs :
  List.length logs <= MAX_LOGS ->
  getConsoleLogs (captureAll calls logs)
  = lastN MAX_LOGS (logs ++ (entryOf <$> calls))
  /\ List.length (getConsoleLogs (captureAll calls logs)) <= MAX_LOGS
  /\ getConsoleLogs (captureAll calls (clearConsoleLogs logs))
     = lastN MAX_LOGS (entryOf <$> calls).
Proof.
  assert (forall logs, List.length logs <= MAX_LOGS ->
            captureAll calls logs = lastN MAX_LOGS (logs ++ (entryOf <$> calls))
            /\ List.length (captureAll calls logs) <= MAX_LOGS) as H.
  { clear logs. induction calls as [|c calls IH]; intros logs Hle.
    - cbn. rewrite app_nil_r, lastN_short; done.
    - cbn [captureAll fold_left fmap list_fmap].
      change (fold_left _ calls ?l) with (captureAll calls l).
      rewrite captureLog_lastN by done.
      fold (entryOf c).
      destruct (IH (lastN MAX_LOGS (logs ++ [entryOf c]))) as [E Hlen];
        [apply lastN_length|].
      split; [|exact Hlen].
      rewrite E, lastN_app. by rewrite <- app_assoc. }
  intros Hle. unfold getConsoleLogs, clearConsoleLogs.
  destruct (H logs Hle) as [E Hlen]. split; [done|]. split; [done|].
  destruct (H [] ltac:(cbn; lia)) as [E' _]. exact E'.
Qed.

End Console.

(** *** The properties at sample pages and sessions *)

Section WalkerExamples.

Import AriaSnapshot RefTableFacts WalkFacts Samples MoreSamples.

Lemma explicit_role_is_first_piece_witness :
  truthyAttribute twoRoles (str "role") = Some (str "button link")
  /\ exists role,
       getAriaRole twoRoles = Return (Some role)
       /\ head (splitWhiteSpace (str "button link")) = Some role
       /\ inkOf role = role
       /\ (getAriaRole twoRoles = Interactions.getElementRole twoRoles
           <-> inkOf (str "button link") = str "button link").
Proof.
  split; [reflexivity|].
  apply (explicit_role_is_first_piece twoRoles (str "button link")). reflexivity.
Defined.

Lemma snapshot_rows_faithful_witness :
  exists snap t',
    generateAriaSnapshot 3 pageAfter initialRefTable = (Return snap, t')
    /\ exists xs,
         snapshotExposures 3 pageAfter initialRefTable = (Return xs, t')
         /\ elements snap = row <$> xs
         /\ forall x, x ∈ xs ->
              isHidden (exposed x) = false
              /\ getAriaRole (exposed x) = Return (Some (role (row x)))
              /\ role (row x) ∈ includedRoles
              /\ getAccessibleName pageAfter (exposed x) = Return (name (row x))
              /\ normalizeWhitespace (name (row x)) = name (row x).
Proof.
  do 2 eexists. split; [vm_compute; reflexivity|].
  apply snapshot_rows_faithful. vm_compute. reflexivity.
Defined.

Lemma first_snapshot_tokens_distinct_witness :
  elementRefMap initialRefTable = ∅
  /\ exists snap t',
       generateAriaSnapshot 3 pageAfter initialRefTable = (Return snap, t')
       /\ exists xs,
            snapshotExposures 3 pageAfter initialRefTable = (Return xs, t')
            /\ elements snap = row <$> xs
            /\ forall x1 x2, x1 ∈ xs -> x2 ∈ xs ->
                 (ref (row x1) = ref (row x2)
                  <-> handle (exposed x1) = handle (exposed x2)).
Proof.
  split; [reflexivity|].
  do 2 eexists. split; [vm_compute; reflexivity|].
  apply first_snapshot_tokens_distinct; [reflexivity | vm_compute; reflexivity].
Defined.

Lemma snapshot_rows_agree_witness :
  sessionTable initialRefTable
  /\ exists snap t',
       generateAriaSnapshot 4 ownsPage initialRefTable = (Return snap, t')
       /\ ref <$> elements snap = [str "e1"; str "e2"; str "e2"]
       /\ exists xs,
            snapshotExposures 4 ownsPage initialRefTable = (Return xs, t')
            /\ elements snap = row <$> xs
            /\ forall x1 x2, x1 ∈ xs -> x2 ∈ xs ->
                 handle (exposed x1) = handle (exposed x2) ->
                 ref (row x1) = ref (row x2).
Proof.
  split; [apply session_start|].
  do 2 eexists. split; [vm_compute; reflexivity|].
  split; [vm_compute; reflexivity|].
  apply snapshot_rows_agree; [apply session_start | vm_compute; reflexivity].
Defined.

Lemma snapshot_keeps_cache_witness :
  let t1 := (generateAriaSnapshot 3 pageBefore initialRefTable).2 in
  sessionTable t1
  /\ WeakMap.get (elementRefMap t1) submit = Some (str "e1")
  /\ exists r t2,
       generateAriaSnapshot 3 pageAfter t1 = (r, t2)
       /\ WeakMap.get (elementRefMap t2) submit = Some (str "e1")
       /\ getOrCreateRef submit t2 = (str "e1", t2).
Proof.
  intros t1.
  assert (sessionTable t1) as Hs.
  { eapply session_snapshot; [apply session_start | apply surjective_pairing]. }
  split; [exact Hs|]. split; [vm_compute; reflexivity|].
  exists (generateAriaSnapshot 3 pageAfter t1).1, (generateAriaSnapshot 3 pageAfter t1).2.
  split; [apply surjective_pairing|].
  apply (snapshot_keeps_cache 3 pageAfter t1
           (generateAriaSnapshot 3 pageAfter t1).1
           (generateAriaSnapshot 3 pageAfter t1).2 submit (str "e1"));
    [exact Hs | apply surjective_pairing | vm_compute; reflexivity].
Defined.

Lemma aria_owns_self_overflows_witness :
  let node := ElementNode selfOwner false [] None [] in
  let s := {| table := initialRefTable; pushed := [] |} in
  isHidden selfOwner = false
  /\ getAriaRole selfOwner = Return (Some (str "group"))
  /\ truthyAttribute selfOwner (str "aria-owns") = Some (str "self")
  /\ splitWhiteSpace (str "self") = [str "self"]
  /\ truthy (str "self") = true
  /\ getElementById selfOwningPage (str "self") = Some node
  /\ exists s', walkAriaTree 50 selfOwningPage node s = (Throw stackOverflow, s').
Proof.
  intros node s. repeat (split; [vm_compute; reflexivity|]).
  apply (aria_owns_self_overflows selfOwningPage selfOwner false (Some (str "group"))
           (str "self") (str "self") [] 50 s); vm_compute; reflexivity.
Defined.


End WalkerExamples.

Section ExecutorExamples.

Import AriaSnapshot Interactions ActionFacts WalkFacts Samples MoreSamples.

Lemma interact_failure_writes_nothing_witness :
  let s := {| refTable := initialRefTable; effects := [] |} in
  let doc := pageFinding fileInput in
  let params :=
    {| Content.action := str "type"; Content.element := Some (ByCss (str "input"));
       Content.text := Some (str "a.txt"); Content.key := None;
       Content.value := None; Content.snapshot := None |} in
  Content.snapshot params <> Some true
  /\ exists r s',
       Content.handleInteract 3 doc doc params s = (r, s')
       /\ r = Throw filenameOnly
       /\ effects s' = [ScrollIntoView (handle fileInput); Focus (handle fileInput)]
       /\ refTable s' = refTable s
       /\ exists did,
            effects s' = effects s ++ did
            /\ forall e, r = Throw e ->
                 (forall x, x ∈ did -> writes x = false)
                 /\ (did = []
                     \/ (Content.action params = str "type"
                         /\ e = filenameOnly
                         /\ exists selector target,
                              Content.element params = Some selector
                              /\ findElement doc (refTable s) selector = Return target
                              /\ isFileInput target = true
                              /\ did = [ScrollIntoView (handle target);
                                        Focus (handle target)])).
Proof.
  intros s doc params. split; [discriminate|].
  do 2 eexists. split; [vm_compute; reflexivity|]. split; [reflexivity|].
  split; [reflexivity|].
  apply (interact_failure_writes_nothing 3 doc doc params s);
    [discriminate | vm_compute; reflexivity].
Defined.

Lemma interact_acts_on_one_element_witness :
  let s := {| refTable := initialRefTable; effects := [] |} in
  let params :=
    {| Content.action := str "click"; Content.element := Some (ByCss (str "button"));
       Content.text := None; Content.key := None; Content.value := None;
       Content.snapshot := None |} in
  Content.snapshot params <> Some true
  /\ exists result s',
       Content.handleInteract 3 pageBefore pageBefore params s = (Return result, s')
       /\ exists target done,
            effects s' = effects s ++ done
            /\ (forall e, e ∈ done -> targetOf e = handle target)
            /\ ((Content.action params = str "press"
                 /\ pressTarget pageBefore = Some target)
                \/ (Content.action params <> str "press"
                    /\ exists selector,
                         Content.element params = Some selector
                         /\ findElement pageBefore (refTable s) selector
                            = Return target)).
Proof.
  intros s params. split; [discriminate|].
  do 2 eexists. split; [vm_compute; reflexivity|].
  eapply (interact_acts_on_one_element 3 pageBefore pageBefore params s);
    [discriminate | vm_compute; reflexivity].
Defined.


Lemma snapshot_request_plain_body_witness :
  let s := {| refTable := initialRefTable; effects := [] |} in
  body ordinaryPage = Some (ElementNode plainBody false [leaf submit] None [])
  /\ isHidden plainBody = false
  /\ truthyAttribute plainBody (str "role") = None
  /\ Dom.type plainBody = None
  /\ Content.handleMessage 3 ordinaryPage ordinaryPage (Content.SNAPSHOT (str "r1")) s
     = (Content.Failure (str "r1")
          {| Content.code := INTERNAL_ERROR;
             Content.message :=
               Content.Plain
                 (str "Cannot read properties of undefined (reading 'toLowerCase')") |},
        {| refTable := {| elementRefCounter := 0;
                          elementRefMap := elementRefMap (refTable s) |};
           effects := effects s |}).
Proof.
  intros s. repeat (split; [reflexivity|]).
  apply (snapshot_request_plain_body 2 ordinaryPage ordinaryPage (str "r1") plainBody
           false [leaf submit] None [] s); reflexivity.
Defined.


Lemma interact_error_code_names_cause_witness :
  let s := {| refTable := initialRefTable; effects := [] |} in
  let selector := ByRole (str "button") None in
  let params :=
    {| Content.action := str "click"; Content.element := Some selector;
       Content.text := None; Content.key := None; Content.value := None;
       Content.snapshot := Some true |} in
  let info :=
    {| Content.code := ELEMENT_AMBIGUOUS;
       Content.message := Content.Coded (MultipleElementsFound 2 selector) |} in
  hostThrowsOnly pageAfter
  /\ Content.handleMessage 3 pageAfter pageAfter (Content.INTERACT (str "r1") params) s
     = (Content.Failure (str "r1") info, s)
  /\ str "r1" = str "r1"
  /\ codeCause pageAfter (refTable s) params (Content.code info).
Proof.
  intros s selector params info.
  assert (hostThrowsOnly pageAfter) as Hhost by (intros css e H; discriminate).
  split; [exact Hhost|]. split; [vm_compute; reflexivity|].
  apply (interact_error_code_names_cause 3 pageAfter pageAfter (str "r1") params s
           (str "r1") info s); [exact Hhost | vm_compute; reflexivity].
Defined.

Lemma findByRole_is_filter_witness :
  let root := ElementNode applicationBody false [leaf cancel; leaf submit] None [] in
  body pageAfter = Some root
  /\ (forall element, element ∈ treeWalkerElements root ->
        interface element = HTMLInputElement -> Dom.type element <> None)
  /\ findByRole pageAfter (str "button") (Some (str "Submit"))
     = Return (List.filter (roleMatches (str "button") (Some (str "Submit")))
                           (treeWalkerElements root)).
Proof.
  intros root.
  assert (forall element, element ∈ treeWalkerElements root ->
            interface element = HTMLInputElement -> Dom.type element <> None) as Htyped.
  { intros element Hin. cbn in Hin.
    repeat (apply elem_of_cons in Hin as [->|Hin]; [discriminate|]).
    by apply elem_of_nil in Hin. }
  split; [reflexivity|]. split; [exact Htyped|].
  apply (findByRole_is_filter pageAfter root (str "button") (Some (str "Submit")));
    [reflexivity | exact Htyped].
Defined.

Lemma role_selector_with_name_witness :
  findElement pageBefore initialRefTable (ByRole (str "button") None) = Return submit
  /\ findElement pageBefore initialRefTable
       (ByRole (str "button") (Some (getAccessibleName submit))) = Return submit
  /\ forall name, name <> getAccessibleName submit ->
       findElement pageBefore initialRefTable (ByRole (str "button") (Some name))
       = Throw (CodedError ELEMENT_NOT_FOUND
                  (NoElementFound (ByRole (str "button") (Some name)))).
Proof.
  split; [vm_compute; reflexivity|].
  apply (role_selector_with_name pageBefore initialRefTable (str "button") submit).
  vm_compute. reflexivity.
Defined.

End ExecutorExamples.

Section SupersedeExamples.

Import Rpc RpcFacts SessionFacts Samples.


End SupersedeExamples.

Section SessionExamples.

Import Rpc RpcFacts SessionFacts Samples.

Lemma duplicate_response_is_ignored_witness :
  let first := {| id := str "a"; result := Some (str "{}"); error := None |} in
  let second := {| id := str "a"; result := None;
                   error := Some {| code := str "INTERNAL_ERROR";
                                    message := str "late" |} |} in
  id second = id first
  /\ onMessage 1%positive (Some second)
       (onMessage 1%positive (Some first) oneRequestPending)
     = onMessage 1%positive (Some first) oneRequestPending.
Proof.
  intros first second. split; [reflexivity|].
  apply (duplicate_response_is_ignored 1%positive first second oneRequestPending).
  reflexivity.
Defined.

Lemma response_settles_its_call_witness :
  let response := {| id := str "a"; result := Some (str "{}"); error := None |} in
  let w' := handleResponse response oneRequestPending in
  pendingRequests oneRequestPending !! id response = Some 1%positive
  /\ settled oneRequestPending !! 1%positive = None
  /\ settled w' !! 1%positive = Some (outcomeOf response, now oneRequestPending)
  /\ timers w' !! 1%positive = None
  /\ pendingRequests w' !! id response = None
  /\ (forall rid, rid <> id response ->
        pendingRequests w' !! rid = pendingRequests oneRequestPending !! rid)
  /\ (forall c', c' <> 1%positive ->
        timers w' !! c' = timers oneRequestPending !! c'
        /\ settled w' !! c' = settled oneRequestPending !! c')
  /\ sent w' = sent oneRequestPending.
Proof.
  intros response w'. split; [vm_compute; reflexivity|]. split; [vm_compute; reflexivity|].
  apply (response_settles_its_call response oneRequestPending 1%positive);
    vm_compute; reflexivity.
Defined.

Lemma call_without_connection_is_rejected_witness :
  let c := (sendRpcRequest (str "a") (str "snapshot") (str "{}") None initial).1 in
  let w' := (sendRpcRequest (str "a") (str "snapshot") (str "{}") None initial).2 in
  wellFormed initial
  /\ _ws initial = None
  /\ settled w' !! c
     = Some (Rejected {| failure_message := noConnectionMessage;
                         failure_code := None |}, now initial)
  /\ timers w' !! c = None
  /\ pendingRequests w' !! str "a" = None
  /\ sent w' = sent initial.
Proof.
  intros c w'. split; [apply wellFormed_initial|]. split; [reflexivity|].
  apply (call_without_connection_is_rejected (str "a") (str "snapshot") (str "{}") None
           initial); [apply wellFormed_initial | reflexivity].
Defined.

Lemma call_after_close_is_lost_witness :
  let w1 := close connected in
  let c := (sendRpcRequest (str "a") (str "snapshot") (str "{}") None w1).1 in
  let w2 := (sendRpcRequest (str "a") (str "snapshot") (str "{}") None w1).2 in
  let T := default 30000%Z None in
  let events := [Connection 2%positive; Elapse 30000%Z; TimerFires 1%positive;
                 Elapse 31000%Z] in
  wellFormed connected
  /\ _ws connected = Some 1%positive
  /\ unused (str "a") connected
  /\ (1 <= T <= 2147483647)%Z
  /\ Forall (quiet (str "a")) events
  /\ hasWs w1 = true
  /\ sent w2 = sent connected
  /\ pendingRequests w2 !! str "a" = Some c
  /\ settled w2 !! c = None
  /\ timers w2 !! c
     = Some {| deadline := (now connected + timerDelay T)%Z;
               timer_id := str "a";
               timer_timeoutMs := T |}
  /\ exists w3,
       run events w2 = Some w3
       /\ now w3 = 31000%Z
       /\ ((now w3 < now connected + T)%Z ->
           pendingRequests w3 !! str "a" = Some c /\ settled w3 !! c = None)
       /\ ((now connected + T < now w3)%Z ->
           pendingRequests w3 !! str "a" = None
           /\ settled w3 !! c
              = Some (Rejected (timeoutFailure T), (now connected + T)%Z))
       /\ (settled w3 !! c = None
           \/ settled w3 !! c
              = Some (Rejected (timeoutFailure T), (now connected + T)%Z)).
Proof.
  intros w1 c w2 T events.
  assert (wellFormed connected) as Hw.
  { apply (wellFormed_run [Connection 1%positive] initial);
      [reflexivity | apply wellFormed_initial]. }
  assert (unused (str "a") connected) as Hun by (intros c' tm H; cbn in H; done).
  assert (1 <= T <= 2147483647)%Z as Hrange by (cbn; lia).
  assert (Forall (quiet (str "a")) events) as Hq by (repeat constructor).
  destruct (call_after_close_is_lost (str "a") (str "snapshot") (str "{}") None connected
              1%positive Hw eq_refl) as (H1 & H2 & H3 & H4 & H5 & H6).
  split; [exact Hw|]. split; [reflexivity|]. split; [exact Hun|].
  split; [exact Hrange|]. split; [exact Hq|].
  split; [exact H1|]. split; [exact H2|]. split; [exact H3|]. split; [exact H4|].
  split; [exact H5|].
  destruct (run events w2) as [w3|] eqn:Hrun; [|vm_compute in Hrun; discriminate].
  exists w3. split; [reflexivity|].
  pose proof (H6 Hun Hrange events w3 Hq Hrun) as H7.
  split; [|exact H7].
  vm_compute in Hrun. by injection Hrun as <-.
Defined.

Lemma close_settles_all_pending_witness :
  let w := oneRequestPending in
  _ws w = Some 1%positive
  /\ pendingRequests w !! str "a" = Some 1%positive
  /\ pendingRequests (close w) = ∅
  /\ (1%positive ∈ closed (close w))
  /\ _ws (close w) = Some 1%positive
  /\ (forall rid c, pendingRequests w !! rid = Some c ->
        timers (close w) !! c = None
        /\ (settled w !! c = None ->
            settled (close w) !! c = Some (Rejected connectionClosed, now w)))
  /\ (forall c, (forall rid, pendingRequests w !! rid <> Some c) ->
        timers (close w) !! c = timers w !! c
        /\ settled (close w) !! c = settled w !! c).
Proof.
  intros w. split; [reflexivity|]. split; [vm_compute; reflexivity|].
  apply (close_settles_all_pending w 1%positive). reflexivity.
Defined.

Lemma settlement_is_final_witness :
  let response := {| id := str "a"; result := Some (str "{}"); error := None |} in
  let late := {| id := str "a"; result := None;
                 error := Some {| code := str "INTERNAL_ERROR";
                                  message := str "late" |} |} in
  let w := handleResponse response oneRequestPending in
  let events := [Message 1%positive (Some late); Elapse 40000%Z; Close] in
  exists w',
    run events w = Some w'
    /\ settled w !! 1%positive = Some (Resolved (Some (str "{}")), 0%Z)
    /\ settled w' !! 1%positive = Some (Resolved (Some (str "{}")), 0%Z).
Proof.
  intros response late w events. eexists. split; [vm_compute; reflexivity|].
  split; [vm_compute; reflexivity|].
  eapply (settlement_is_final events w); vm_compute; reflexivity.
Defined.

Lemma response_after_timeout_is_ignored_witness :
  let w := setNow 30000%Z oneRequestPending in
  let tm := {| deadline := 30000%Z; timer_id := str "a"; timer_timeoutMs := 30000%Z |} in
  let response := {| id := str "a"; result := Some (str "{}"); error := None |} in
  exists w',
    timers w !! 1%positive = Some tm
    /\ id response = timer_id tm
    /\ step (TimerFires 1%positive) w = Some w'
    /\ settled w !! 1%positive = None
    /\ settled w' !! 1%positive
       = Some (Rejected (timeoutFailure (timer_timeoutMs tm)), now w)
    /\ step (Message 1%positive (Some response)) w' = Some w'.
Proof.
  intros w tm response. eexists.
  split; [vm_compute; reflexivity|]. split; [reflexivity|].
  split; [vm_compute; reflexivity|]. split; [vm_compute; reflexivity|].
  apply (response_after_timeout_is_ignored w _ 1%positive tm 1%positive response);
    vm_compute; reflexivity.
Defined.

Lemma no_call_left_hanging_witness :
  let events := [Connection 1%positive;
                 Call (str "a") (str "snapshot") (str "{}") None;
                 Elapse 100%Z] in
  exists w, run events initial = Some w /\ accounted w.
Proof.
  intros events. eexists. split; [vm_compute; reflexivity|].
  apply (no_call_left_hanging events). vm_compute. reflexivity.
Defined.

End SessionExamples.

Section StateExamples.

Import AriaSnapshot AriaStates StateFacts ConsoleCapture Samples MoreSamples.

Lemma states_fit_the_role_witness :
  let element :=
    plainElement 9%positive (str "DIV")
      [(str "role", str "button"); (str "aria-pressed", str "true")] [] in
  let control := {| checked := false; indeterminate := false; disabled := false;
                    selected := false |} in
  Pressed ∈ getAriaStates pageBefore element control (str "button")
  /\ warranted pageBefore element (str "button") Pressed.
Proof.
  intros element control.
  assert (Pressed ∈ getAriaStates pageBefore element control (str "button")) as Hin.
  { vm_compute. by left. }
  split; [exact Hin|].
  exact (states_fit_the_role pageBefore element control (str "button") Pressed Hin).
Defined.

Lemma buffer_keeps_last_entries_witness :
  let calls := [{| call_level := LevelWarn; call_args := [StringArg (str "slow")];
                   call_now := 5%Z |}] in
  List.length (A := ConsoleLog) [] <= MAX_LOGS
  /\ getConsoleLogs (captureAll calls [])
     = lastN MAX_LOGS ([] ++ (entryOf <$> calls))
  /\ List.length (getConsoleLogs (captureAll calls [])) <= MAX_LOGS
  /\ getConsoleLogs (captureAll calls (clearConsoleLogs []))
     = lastN MAX_LOGS (entryOf <$> calls).
Proof.
  intros calls. split; [cbn; lia|].
  apply (buffer_keeps_last_entries calls []). cbn. lia.
Defined.

End StateExamples.
